(** * gogrep: the structural matcher of match.go

    A shallow embedding of [match.go]: the node matcher [matcher.node], the
    backtracking sequence matcher [matcher.nodes], the traversal
    [walkWithLists], the pipeline stages [cmdRange] and [cmdFilter], and the
    type-constraint resolver [resolveType].

    Conventions.
    - A Go [ast.Node] value is a [Node]; a possibly nil interface value is an
      [option Node].  A node has the syntax of its go/ast type: the fields
      that match.go reads and the two syntactic fields that it never reads,
      [Field.Tag] and [RangeStmt.Tok].  Left out are source positions (the
      one position the matcher reads, [CallExpr.Ellipsis], is kept),
      comments, and the flags that follow from the other fields in a parsed
      file ([SliceExpr.Slice3], [Incomplete], [EmptyStmt.Implicit]).
    - [m.values] is a Go map, that is, a reference.  The matcher state keeps
      a store of maps and [m.values] is an index into it, so that
      [m.values = oldMatches] is an assignment of references, as in Go.
    - A Go panic is the outcome [Panic]; recursion that Go runs on its call
      stack is bounded here by a fuel counter and [NoFuel] is the outcome of
      an exhausted counter. *)

From stdpp Require Import gmap strings list.
From Stdlib Require Import ZArith Lia.

Local Open Scope string_scope.
Local Open Scope list_scope.
Set Warnings "-register-all,-clear-no-such-hyp".


(** ** The syntax model (go/ast, token) *)

Definition Pos := Z.      (* token.Pos; NoPos is 0 *)
Definition Token := Z.    (* token.Token *)
Definition ChanDir := Z.  (* ast.ChanDir *)

Definition NoPos : Pos := 0%Z.
Definition token_ILLEGAL : Token := 0%Z.
Definition token_INT : Token := 5%Z.
Definition token_STRING : Token := 9%Z.
Definition token_ADD : Token := 12%Z.
Definition token_ASSIGN : Token := 42%Z.
Definition token_DEFINE : Token := 47%Z.
Definition token_VAR : Token := 85%Z.

(* token.Pos.IsValid *)
Definition IsValid (p : Pos) : bool := negb (Z.eqb p NoPos).

Inductive Node : Type :=
  | File (Name : Node) (Decls Imports : list Node)
  | Ident (Name : string)
  (* lists (generated while walking) *)
  | exprList (l : list Node)
  | identList (l : list Node)
  | stmtList (l : list Node)
  | specList (l : list Node)
  (* lits *)
  | BasicLit (Kind : Token) (Value : string)
  | CompositeLit (Type_ : option Node) (Elts : list Node)
  | FuncLit (Type_ Body : Node)
  (* types *)
  | ArrayType (Len : option Node) (Elt : Node)
  | MapType (Key Value : Node)
  | StructType (Fields : option (list Node))
  | Field (Names : list Node) (Type_ : option Node) (Tag : option Node)
  | FuncType (Params Results : option (list Node))
  | InterfaceType (Methods : option (list Node))
  | ChanType (Dir : ChanDir) (Value : Node)
  (* other exprs *)
  | Ellipsis (Elt : option Node)
  | ParenExpr (X : Node)
  | UnaryExpr (Op : Token) (X : Node)
  | BinaryExpr (X : Node) (Op : Token) (Y : Node)
  | CallExpr (Fun : Node) (Args : list Node) (Ellipsis_ : Pos)
  | KeyValueExpr (Key Value : Node)
  | StarExpr (X : Node)
  | SelectorExpr (X Sel : Node)
  | IndexExpr (X Index : Node)
  | SliceExpr (X : Node) (Low High Max : option Node)
  | TypeAssertExpr (X : Node) (Type_ : option Node)
  | BadExpr
  (* decls *)
  | GenDecl (Tok : Token) (Specs : list Node)
  | FuncDecl (Recv : option (list Node)) (Name Type_ : Node)
             (Body : option Node)
  (* specs *)
  | ValueSpec (Names : list Node) (Type_ : option Node) (Values : list Node)
  | TypeSpec (Name Type_ : Node)
  | ImportSpec (Name : option Node) (Path : Node)
  (* stmts *)
  | ExprStmt (X : Node)
  | DeclStmt (Decl : Node)
  | EmptyStmt
  | LabeledStmt (Label Stmt : Node)
  | SendStmt (Chan Value : Node)
  | IncDecStmt (X : Node) (Tok : Token)
  | AssignStmt (Lhs : list Node) (Tok : Token) (Rhs : list Node)
  | GoStmt (Call : Node)
  | DeferStmt (Call : Node)
  | ReturnStmt (Results : list Node)
  | BranchStmt (Tok : Token) (Label : option Node)
  | BlockStmt (List_ : list Node)
  | IfStmt (Init : option Node) (Cond : Node) (Body : Node)
           (Else : option Node)
  | CaseClause (List_ : list Node) (Body : list Node)
  | SwitchStmt (Init Tag : option Node) (Body : Node)
  | TypeSwitchStmt (Init : option Node) (Assign Body : Node)
  | CommClause (Comm : option Node) (Body : list Node)
  | SelectStmt (Body : Node)
  | ForStmt (Init Cond Post : option Node) (Body : Node)
  | RangeStmt (Key Value : option Node) (Tok : Token) (X Body : Node).

(* the Go interface ast.Expr *)
Definition isExpr (n : Node) : bool :=
  match n with
  | BadExpr | Ident _ | Ellipsis _ | BasicLit _ _ | FuncLit _ _
  | CompositeLit _ _ | ParenExpr _ | SelectorExpr _ _ | IndexExpr _ _
  | SliceExpr _ _ _ _ | TypeAssertExpr _ _ | CallExpr _ _ _ | StarExpr _
  | UnaryExpr _ _ | BinaryExpr _ _ _ | KeyValueExpr _ _ | ArrayType _ _
  | StructType _ | FuncType _ _ | InterfaceType _ | MapType _ _
  | ChanType _ _ => true
  | _ => false
  end.

(** The interface [nodeList]: one of the four list types of match.go,
    with [len], [at] and [slice]. *)
Inductive listKind := ExprL | IdentL | StmtL | SpecL.

Record nodeList := NodeList { lkind : listKind; elems : list Node }.

Definition listNode (l : nodeList) : Node :=
  match lkind l with
  | ExprL => exprList (elems l)
  | IdentL => identList (elems l)
  | StmtL => stmtList (elems l)
  | SpecL => specList (elems l)
  end.

(* the type assertion node.(nodeList) *)
Definition asNodeList (n : Node) : option nodeList :=
  match n with
  | exprList l => Some (NodeList ExprL l)
  | identList l => Some (NodeList IdentL l)
  | stmtList l => Some (NodeList StmtL l)
  | specList l => Some (NodeList SpecL l)
  | _ => None
  end.

Definition len (l : nodeList) : nat := length (elems l).

(** ** Collaborators: go/types, regexp, go/ast traversal, pattern variables

    Everything match.go calls outside the file.  [isWildName],
    [fromWildName] and [matcher.info] belong to the pattern parser; the
    rest is the Go standard library. *)

Class Collaborators := {
  Scope : Type;      (* types.Scope *)
  Ty : Type;         (* types.Type *)
  Object : Type;     (* types.Object *)
  Regexp : Type;     (* regexp.Regexp *)
  MatchString : Regexp -> string -> bool;
  (* m.Info.Scopes[node]: nil when absent *)
  Info_Scopes : Node -> option Scope;
  (* m.Info.TypeOf(expr): nil when unknown *)
  Info_TypeOf : Node -> option Ty;
  Comparable : Ty -> bool;
  Identical : Ty -> Ty -> bool;
  AssignableTo : Ty -> Ty -> bool;
  ConvertibleTo : Ty -> Ty -> bool;
  (* scope.LookupParent(name, token.NoPos), second result; a nil scope
     finds nothing *)
  LookupParent : option Scope -> string -> option Object;
  Object_Type : Object -> Ty;
  (* the scope of the imported package when obj is a types.PkgName: None when obj is not a
     package name *)
  PkgName_Scope : Object -> option (option Scope);
  NewSlice : Ty -> Ty;
  NewArray : Ty -> Z -> Ty;
  NewPointer : Ty -> Ty;
  ParseInt : string -> Z;   (* strconv.ParseInt(s, 0, 0), first result *)
  (* Node.Pos() and Node.End() of a go/ast node *)
  ast_Pos : Node -> Pos;
  ast_End : Node -> Pos;
  (* ast.Inspect(node, f) for an f that always returns true: the
     arguments of the successive calls of f (pre-order, a nil after the
     children of each node), and the panic of ast.Walk when it meets a
     node type it does not know *)
  Inspect : Node -> list (option Node) * option Node;
  isWildName : string -> bool;
  fromWildName : string -> Z
}.

(* typeCheck and varInfo, the compiled form of a wildcard *)
Record typeCheck `{Collaborators} := TypeCheck {
  op : string;     (* "type", "asgn" or "conv" *)
  expr : Node
}.

Record varInfo `{Collaborators} := VarInfo {
  name : string;
  any : bool;
  nameRxs : list Regexp;
  types : list typeCheck;
  comp : bool;
  needExpr : bool
}.

(* the zero value varInfo{} *)
Definition varInfo0 `{Collaborators} : varInfo :=
  VarInfo _ "" false [] [] false false.

(** ** Outcomes and the matcher state *)

Inductive fault :=
  | UnexpectedNode (n : Node)        (* panic("unexpected node: %T") *)
  | ArrayLenTODO (n : Node)          (* panic("TODO: %T") *)
  | ResolveTypeTODO (n : option Node)(* panic("resolveType TODO: %T") *)
  | FindScopeTODO (n : option Node)  (* panic("findScope TODO: %T") *)
  | NilDereference                   (* runtime error *)
  | IndexOutOfRange                  (* runtime error *)
  | TypeAssertion.                   (* runtime error: x.(T) without ok *)

Inductive outcome (S A : Type) :=
  | Ret (a : A) (s : S)
  | Panic (f : fault)
  | NoFuel.
Arguments Ret {S A} a s.
Arguments Panic {S A} f.
Arguments NoFuel {S A}.

Section Matcher.
Context `{Collaborators}.

(* the capture environment, a Go map[string]ast.Node *)
Abbreviation bindings := (gmap string Node).

(* The mutable part of the struct matcher, with the store that holds
   every map[string]ast.Node allocated so far. *)
Record matcher := Matcher {
  store : list bindings;
  values : nat;             (* m.values, a reference into [store] *)
  scope : option Scope;     (* m.scope *)
  aggressive : bool         (* m.aggressive *)
}.

Definition M (A : Type) := matcher -> outcome matcher A.

Definition ret {A} (a : A) : M A := fun m => Ret a m.
Definition panic {A} (f : fault) : M A := fun _ => Panic f.
Definition bind {A B} (c : M A) (k : A -> M B) : M B :=
  fun m => match c m with
           | Ret a m' => k a m'
           | Panic f => Panic f
           | NoFuel => NoFuel
           end.

(* Go's short-circuit && and || on calls that may change the state *)
Definition andM (a b : M bool) : M bool :=
  bind a (fun x => if x then b else ret false).
Definition orM (a b : M bool) : M bool :=
  bind a (fun x => if x then ret true else b).

(* the map a reference points to *)
Definition deref (st : list bindings) (r : nat) : bindings :=
  default ∅ (st !! r).

(* prev, ok := m.values[k] *)
Definition lookupValue (k : string) : M (option Node) :=
  fun m => Ret (deref (store m) (values m) !! k) m.

(* m.values[k] = n *)
Definition storeValue (k : string) (n : Node) : M unit :=
  fun m => Ret tt (Matcher (alter (insert k n) (values m) (store m))
                           (values m) (scope m) (aggressive m)).

(* make(map[string]ast.Node) filled with the entries of [b] *)
Definition newMap (b : bindings) : M nat :=
  fun m => Ret (length (store m))
               (Matcher (store m ++ [b]) (values m) (scope m) (aggressive m)).

(* m.values = r *)
Definition setValues (r : nat) : M unit :=
  fun m => Ret tt (Matcher (store m) r (scope m) (aggressive m)).

(* m.scope = sc *)
Definition setScope (sc : option Scope) : M unit :=
  fun m => Ret tt (Matcher (store m) (values m) sc (aggressive m)).

Definition getScope : M (option Scope) := fun m => Ret (scope m) m.
Definition getAggressive : M bool := fun m => Ret (aggressive m) m.

(* the current contents of m.values *)
Definition getBindings : M bindings :=
  fun m => Ret (deref (store m) (values m)) m.

End Matcher.

Notation "'let*' x ':=' c1 'in' c2" := (bind c1 (fun x => c2))
  (at level 10, x name, c1 at level 100, c2 at level 200).
Notation "c1 ';;' c2" := (bind c1 (fun _ => c2))
  (at level 100, c2 at level 200, right associativity).
Infix "&&&" := andM (at level 40, left associativity).
Infix "|||" := orM (at level 50, left associativity).

Arguments lookupValue : simpl never.
Arguments storeValue : simpl never.
Arguments newMap : simpl never.
Arguments setValues : simpl never.
Arguments setScope : simpl never.
Arguments getScope : simpl never.
Arguments getAggressive : simpl never.
Arguments getBindings : simpl never.

(* the result of a function that returns a value or panics and
   touches no state *)
Inductive resolved (A : Type) :=
  | Resolved (a : A)
  | Fatal (f : fault).
Arguments Resolved {A} a.
Arguments Fatal {A} f.

(** ** Helpers of match.go without state *)

Section Helpers.
Context `{Collaborators}.

Definition maybeNilIdent (x : option Node) : option Node := x.

Definition bothValid (p1 p2 : Pos) : bool :=
  bool_decide (IsValid p1 = IsValid p2).

(* l.at(i): an index out of range is a run-time panic *)
Definition at_ (l : nodeList) (i : nat) : M Node :=
  match elems l !! i with
  | Some n => ret n
  | None => panic IndexOutOfRange
  end.

(* l.slice(from, to), the Go slice expression l[from:to] *)
Definition slice (l : nodeList) (from to : nat) : M nodeList :=
  if bool_decide (from ≤ to ∧ to ≤ len l)%nat
  then ret (NodeList (lkind l) (take (to - from) (drop from (elems l))))
  else panic IndexOutOfRange.

Fixpoint fromWildNode (node : Node) : Z :=
  match node with
  | Ident Name => fromWildName Name
  | ExprStmt X => fromWildNode X
  | _ => (-1)%Z
  end.

Definition initExprList (init expr post : option Node) : Node :=
  let stmts : list Node := [] in
  let stmts := match init with Some i => stmts ++ [i] | None => stmts end in
  let stmts :=
    match expr with Some e => stmts ++ [ExprStmt e] | None => stmts end in
  let stmts := match post with Some p => stmts ++ [p] | None => stmts end in
  stmtList stmts.

Definition nodeLists (n : option Node) : list nodeList :=
  let addList (lists : list nodeList) (list_ : nodeList) :=
    if bool_decide (0 < len list_)%nat then lists ++ [list_] else lists in
  let lists : list nodeList := [] in
  match n with
  | Some (CompositeLit _ Elts) => addList lists (NodeList ExprL Elts)
  | Some (CallExpr _ Args _) => addList lists (NodeList ExprL Args)
  | Some (AssignStmt Lhs _ Rhs) =>
      addList (addList lists (NodeList ExprL Lhs)) (NodeList ExprL Rhs)
  | Some (ReturnStmt Results) => addList lists (NodeList ExprL Results)
  | Some (ValueSpec _ _ Values) => addList lists (NodeList ExprL Values)
  | Some (BlockStmt List_) => addList lists (NodeList StmtL List_)
  | Some (CaseClause List_ Body) =>
      addList (addList lists (NodeList ExprL List_)) (NodeList StmtL Body)
  | Some (CommClause _ Body) => addList lists (NodeList StmtL Body)
  | _ => lists
  end.

(* Pos() and End() of a node; the list types take them from their first
   and last element *)
Definition node_Pos (n : Node) : M Pos :=
  match asNodeList n with
  | Some l => let* x := at_ l 0 in ret (ast_Pos x)
  | None => ret (ast_Pos n)
  end.

Definition node_End (n : Node) : M Pos :=
  match asNodeList n with
  | Some l => let* x := at_ l (len l - 1) in ret (ast_End x)
  | None => ret (ast_End n)
  end.

(** ** Type constraint resolution *)

Definition findScope (scope : option Scope) (expr : Node)
  : resolved (option Scope) :=
  match expr with
  | Ident Name =>
      match LookupParent scope Name with
      | None => Fatal TypeAssertion
      | Some obj =>
          match PkgName_Scope obj with
          | Some sc => Resolved sc
          | None => Fatal TypeAssertion
          end
      end
  | x => Fatal (FindScopeTODO (Some x))
  end.

Fixpoint resolveType (scope : option Scope) (expr : Node) : resolved Ty :=
  match expr with
  | Ident Name =>
      match LookupParent scope Name with
      | Some obj => Resolved (Object_Type obj)
      | None => Fatal NilDereference
      end
  | ArrayType Len Elt =>
      match resolveType scope Elt with
      | Fatal f => Fatal f
      | Resolved elt =>
          match Len with
          | None => Resolved (NewSlice elt)
          | Some (BasicLit Kind Value) =>
              if bool_decide (Kind ≠ token_INT)
              then Fatal (ArrayLenTODO expr)
              else Resolved (NewArray elt (ParseInt Value))
          | Some _ => Fatal (ArrayLenTODO expr)
          end
      end
  | StarExpr X =>
      match resolveType scope X with
      | Fatal f => Fatal f
      | Resolved t => Resolved (NewPointer t)
      end
  | SelectorExpr X Sel =>
      match findScope scope X with
      | Fatal f => Fatal f
      | Resolved scope' => resolveType scope' Sel
      end
  | x => Fatal (ResolveTypeTODO (Some x))
  end.

End Helpers.

(** ** The sequence matcher and the node matcher

    [matcher.node] and [matcher.nodes] call each other.  The functions of
    this section take the recursive call [rec] as a parameter; [node] below
    closes the recursion with a fuel counter. *)

(* the local variables of matcher.nodes that its loop updates *)
Record loopState := LoopState {
  i1 : nat; i2 : nat;
  next1 : nat; next2 : nat;
  wildName : string;
  wildStart : nat;
  partialStart : nat; partialEnd : nat;
  oldMatches : nat          (* a reference, like m.values *)
}.

Definition set_i (a b : nat) (s : loopState) : loopState :=
  LoopState a b (next1 s) (next2 s) (wildName s) (wildStart s)
            (partialStart s) (partialEnd s) (oldMatches s).
Definition set_next (a b : nat) (s : loopState) : loopState :=
  LoopState (i1 s) (i2 s) a b (wildName s) (wildStart s)
            (partialStart s) (partialEnd s) (oldMatches s).
Definition set_wild (w : string) (start : nat) (s : loopState) : loopState :=
  LoopState (i1 s) (i2 s) (next1 s) (next2 s) w start
            (partialStart s) (partialEnd s) (oldMatches s).
Definition set_partialStart (a : nat) (s : loopState) : loopState :=
  LoopState (i1 s) (i2 s) (next1 s) (next2 s) (wildName s) (wildStart s)
            a (partialEnd s) (oldMatches s).
Definition set_partialEnd (a : nat) (s : loopState) : loopState :=
  LoopState (i1 s) (i2 s) (next1 s) (next2 s) (wildName s) (wildStart s)
            (partialStart s) a (oldMatches s).
Definition set_oldMatches (r : nat) (s : loopState) : loopState :=
  LoopState (i1 s) (i2 s) (next1 s) (next2 s) (wildName s) (wildStart s)
            (partialStart s) (partialEnd s) r.

(* how one pass through the body of the for loop ends *)
Inductive loopCtl :=
  | Continue (s : loopState)
  | Break (s : loopState)
  | ReturnNil.

Section Open.
Context `{Collaborators}.
Variable info : Z -> varInfo.                      (* m.info(id) *)
Variable rec : option Node -> option Node -> M bool. (* m.node *)
Variable fuel : nat.

Section Nodes.
Variables ns1 ns2 : nodeList.
Variable partial : bool.

(* oldMatches = a fresh map with the entries of m.values *)
Definition backupMatches (s : loopState) : M loopState :=
  let* b := getBindings in
  let* r := newMap b in
  ret (set_oldMatches r s).

Definition wouldMatch (s : loopState) : M bool :=
  if bool_decide (wildName s = "") || bool_decide (wildName s = "_")
  then ret true
  else
    let* list_ := slice ns2 (wildStart s) (i2 s) in
    (* check that it matches any nodes found elsewhere *)
    let* prev := lookupValue (wildName s) in
    let* bad :=
      match prev with
      | Some p =>
          let* b := rec (Some p) (Some (listNode list_)) in ret (negb b)
      | None => ret false
      end in
    if bad then ret false
    else storeValue (wildName s) (listNode list_) ;; ret true.

(* the first statement of the loop body, if i1 < ns1len { ... }: [inl] is
   one of its two continue statements, [inr] is falling out of it *)
Definition tryPattern (s : loopState) : M (loopState + loopState) :=
  if negb (bool_decide (i1 s < len ns1)%nat) then ret (inr s)
  else
  let* n1 := at_ ns1 (i1 s) in
  let id := fromWildNode n1 in
  let info := info id in
  if any info then
    (* keep track of where this wildcard started *)
    let s := if bool_decide (name info ≠ wildName s)
             then set_wild (name info) (i2 s) s else s in
    (* try to match zero or more at i2, restarting at i2+1 if it fails *)
    let s := set_next (i1 s) (i2 s + 1) s in
    let* s := backupMatches s in
    ret (inl (set_i (i1 s + 1) (i2 s) s))
  else
    let* s :=
      if partial && bool_decide (i1 s = 0%nat) then
        (* simulates a $*_ at the beginning *)
        let s := set_next (next1 s) (i2 s + 1) s in
        let s := set_partialStart (i2 s) s in
        backupMatches s
      else ret s in
    let* ok :=
      ret (bool_decide (i2 s < len ns2)%nat)
      &&& wouldMatch s
      &&& (let* n2 := at_ ns2 (i2 s) in rec (Some n1) (Some n2)) in
    if ok then
      (* ordinary match *)
      let s := set_wild "" (wildStart s) s in
      ret (inl (set_i (i1 s + 1) (i2 s + 1) s))
    else ret (inr s).

(* the condition of the restart: a checkpoint exists and differs from
   the current position *)
Definition canRestart (s : loopState) : bool :=
  bool_decide (0 < next2 s)%nat
  && bool_decide (next2 s ≤ len ns2)%nat
  && (bool_decide (i1 s ≠ next1 s) || bool_decide (i2 s ≠ next2 s)).

(* in partial mode, the pattern is used up and no wildcard is in effect *)
Definition atPartialEnd (s : loopState) : bool :=
  partial && bool_decide (i1 s = len ns1) && bool_decide (wildName s = "").

(* the rest of the loop body, reached when the pattern element did not
   match or the pattern is used up *)
Definition mismatch (s : loopState) : M loopCtl :=
  if atPartialEnd s
  then ret (Break (set_partialEnd (i2 s) s))  (* let "b; c" match "b; c; d" *)
  else
    (* mismatch, try to restart *)
    if canRestart s
    then setValues (oldMatches s) ;;
         ret (Continue (set_i (next1 s) (next2 s) s))
    else ret ReturnNil.

(* one pass through the body of the for loop *)
Definition loopBody (s : loopState) : M loopCtl :=
  let* r := tryPattern s in
  match r with
  | inl s => ret (Continue s)
  | inr s => mismatch s
  end.

(* the for loop: [None] is the return nil inside it, [Some s] is leaving
   it at the condition or by break *)
Fixpoint loop (k : nat) (s : loopState) : M (option loopState) :=
  match k with
  | O => fun _ => NoFuel
  | S k =>
      if bool_decide (i1 s < len ns1)%nat || bool_decide (i2 s < len ns2)%nat
      then
        let* c := loopBody s in
        match c with
        | Continue s => loop k s
        | Break s => ret (Some s)
        | ReturnNil => ret None
        end
      else ret (Some s)
  end.

Definition nodes : M (option Node) :=
  if bool_decide (len ns1 = 0%nat) then
    if bool_decide (len ns2 = 0%nat) then ret (Some (listNode ns2))
    else ret None
  else
    let* s := backupMatches (LoopState 0 0 0 0 "" 0 0 (len ns2) 0) in
    let* r := loop fuel s in
    match r with
    | None => ret None
    | Some s =>
        let* w := wouldMatch s in
        if negb w then ret None
        else
          let* l := slice ns2 (partialStart s) (partialEnd s) in
          ret (Some (listNode l))
    end.

End Nodes.

Definition notNil (c : M (option Node)) : M bool :=
  let* r := c in ret (bool_decide (r ≠ None)).

Definition exprs (exprs1 exprs2 : list Node) : M bool :=
  notNil (nodes (NodeList ExprL exprs1) (NodeList ExprL exprs2) false).

Definition idents (ids1 ids2 : list Node) : M bool :=
  notNil (nodes (NodeList IdentL ids1) (NodeList IdentL ids2) false).

Definition stmts (stmts1 stmts2 : list Node) : M bool :=
  notNil (nodes (NodeList StmtL stmts1) (NodeList StmtL stmts2) false).

Definition specs (specs1 specs2 : list Node) : M bool :=
  notNil (nodes (NodeList SpecL specs1) (NodeList SpecL specs2) false).

(* for i, a := range l1 { if !m.node(a, l2[i]) { return false } };
   return true *)
Fixpoint pairwise (l1 l2 : list Node) : M bool :=
  match l1 with
  | [] => ret true
  | a :: l1 =>
      match l2 with
      | [] => panic IndexOutOfRange
      | b :: l2 =>
          let* r := rec (Some a) (Some b) in
          if r then pairwise l1 l2 else ret false
      end
  end.

Definition fields (fields1 fields2 : option (list Node)) : M bool :=
  match fields1, fields2 with
  | Some l1, Some l2 =>
      if bool_decide (length l1 ≠ length l2) then ret false
      else pairwise l1 l2
  | None, None => ret true
  | _, _ => ret false
  end.

Definition isClause (stmt : Node) : bool :=
  match stmt with
  | CaseClause _ _ | CommClause _ _ => true
  | _ => false
  end.

(* the second loop of matcher.cases: the wildcard identifiers of the
   clauses of stmts1, or [None] where the Go code returns false *)
Fixpoint caseIdents (stmts1 left_ : list Node) : M (option (list Node)) :=
  match stmts1 with
  | [] => ret (Some left_)
  | stmt :: stmts1 =>
      let* eb :=
        match stmt with
        | CaseClause [e] [b] => ret (Some (e, b))
        | CaseClause _ _ => ret None
        | CommClause None _ => ret None
        | CommClause (Some c) [b] =>
            match c with
            | ExprStmt X => ret (Some (X, b))
            | _ => panic TypeAssertion
            end
        | CommClause (Some _) _ => ret None
        | _ => ret None
        end in
      match eb with
      | Some (e, ExprStmt (Ident bodyName)) =>
          if bool_decide (bodyName ≠ "gogrep_body") then ret None
          else
            match e with
            | Ident idName =>
                if negb (isWildName idName) then ret None
                else caseIdents stmts1 (left_ ++ [e])
            | _ => ret None
            end
      | _ => ret None
      end
  end.

Definition cases (stmts1 stmts2 : list Node) : M bool :=
  if negb (forallb isClause stmts2) then ret false
  else
    let* left_ := caseIdents stmts1 [] in
    match left_ with
    | None => ret false
    | Some left_ =>
        notNil (nodes (NodeList IdentL left_) (NodeList StmtL stmts2) false)
    end.

End Open.

Section NodeBody.
Context `{Collaborators}.
Variable info : Z -> varInfo.
Variable rec : option Node -> option Node -> M bool.
Variable fuel : nat.

Local Abbreviation exprs := (exprs info rec fuel).
Local Abbreviation idents := (idents info rec fuel).
Local Abbreviation stmts := (stmts info rec fuel).
Local Abbreviation specs := (specs info rec fuel).
Local Abbreviation cases := (cases info rec fuel).
Local Abbreviation fields := (fields rec).

(* the first switch of matcher.node: scope-introducing candidates *)
Definition opensScope (node : option Node) : bool :=
  match node with
  | Some (File _ _ _) | Some (FuncType _ _) | Some (BlockStmt _)
  | Some (IfStmt _ _ _ _) | Some (SwitchStmt _ _ _)
  | Some (TypeSwitchStmt _ _ _) | Some (CaseClause _ _)
  | Some (CommClause _ _) | Some (ForStmt _ _ _ _)
  | Some (RangeStmt _ _ _ _ _) => true
  | _ => false
  end.

Definition reseatScope (node : option Node) : M unit :=
  match node with
  | Some n => if opensScope node then setScope (Info_Scopes n) else ret tt
  | None => ret tt
  end.

(* the loop over info.types of the wildcard case *)
Fixpoint typeChecks (t : Ty) (tcs : list typeCheck) : M bool :=
  match tcs with
  | [] => ret true
  | tc :: tcs =>
      let* sc := getScope in
      match resolveType sc (expr tc) with
      | Fatal f => panic f
      | Resolved want =>
          if bool_decide (op tc = "type") && negb (Identical t want)
          then ret false
          else if bool_decide (op tc = "asgn") && negb (AssignableTo t want)
          then ret false
          else if bool_decide (op tc = "conv") && negb (ConvertibleTo t want)
          then ret false
          else typeChecks t tcs
      end
  end.

(* y, yok := node.( *ast.Ident): the name of y when yok *)
Definition asIdent (node : option Node) : option string :=
  match node with Some (Ident yName) => Some yName | _ => None end.

(* the loop over info.nameRxs of the wildcard case: false when the Go
   code returns false from inside it *)
Definition nameRxsOk (y : option string) (rxs : list Regexp) : bool :=
  forallb (fun rx => match y with
                     | Some yName => MatchString rx yName
                     | None => false
                     end) rxs.

(* case *ast.Ident of matcher.node *)
Definition identCase (xName : string) (node : option Node) : M bool :=
  let y := asIdent node in
  if negb (isWildName xName) then
    (* not a wildcard *)
    ret (match y with Some yName => bool_decide (xName = yName)
                    | None => false end)
  else
    match node with
    | None => ret false
    | Some n =>
        let id := fromWildName xName in
        let info := info id in
        if any info then ret false
        else if negb (nameRxsOk y (nameRxs info)) then ret false
        else
          let* typed :=
            if needExpr info then
              if negb (isExpr n) then ret false   (* only exprs have types *)
              else
                match Info_TypeOf n with
                | None => ret false               (* an expr, but no type? *)
                | Some t =>
                    if comp info && negb (Comparable t) then ret false
                    else typeChecks t (types info)
                end
            else ret true in
          if negb typed then ret false
          else if bool_decide (name info = "_") then
            (* values are discarded, matches anything *)
            ret true
          else
            let* prev := lookupValue (name info) in
            match prev with
            | None =>
                (* first occurrence, record value *)
                storeValue (name info) n ;; ret true
            | Some p =>
                (* multiple uses must match *)
                rec (Some p) node
            end
    end.

(* the loop of the aggressive branch of case *ast.ValueSpec *)
Fixpoint valueSpecAny (xNames yNames xValues yValues : list Node)
    (indices : list nat) : M bool :=
  match indices with
  | [] => ret false
  | i :: indices =>
      let idx (l : list Node) : M Node :=
        match l !! i with Some n => ret n | None => panic IndexOutOfRange end in
      let* found :=
        (let* a := idx xNames in let* b := idx yNames in
         rec (Some a) (Some b))
        &&& (if bool_decide (xValues = []) then ret true
             else let* a := idx xValues in let* b := idx yValues in
                  rec (Some a) (Some b)) in
      if found then ret true
      else valueSpecAny xNames yNames xValues yValues indices
  end.

(* the cond/tag position is a bare multi-wildcard: for $*x { ... } *)
Definition headerWild (init : bool) (cond : option Node) : option Node :=
  match cond with
  | Some (Ident idName) =>
      if init then None
      else if negb (isWildName idName) then None
      else if negb (any (info (fromWildName idName))) then None
      else Some (Ident idName)
  | _ => None
  end.

Definition isSome {A} (o : option A) : bool :=
  match o with Some _ => true | None => false end.

(* the type switch of matcher.node on a pattern that is not nil *)
Definition node_switch (aggressive : bool) (x : Node) (node : option Node)
  : M bool :=
  match x with
  | File xName xDecls xImports =>
      match node with
      | Some (File yName yDecls yImports) =>
          let* nameOk := rec (Some xName) (Some yName) in
          if negb nameOk
             || bool_decide (length xDecls ≠ length yDecls)
             || bool_decide (length xImports ≠ length yImports)
          then ret false
          else pairwise rec xDecls yDecls &&& pairwise rec xImports yImports
      | _ => ret false
      end

  | Ident xName => identCase xName node

  (* lists (ys are generated by us while walking) *)
  | exprList xs =>
      match node with
      | Some (exprList ys) => exprs xs ys
      | _ => ret false
      end
  | stmtList xs =>
      match node with
      | Some (stmtList ys) => stmts xs ys
      | _ => ret false
      end

  (* lits *)
  | BasicLit xKind xValue =>
      ret (match node with
           | Some (BasicLit yKind yValue) =>
               bool_decide (xKind = yKind) && bool_decide (xValue = yValue)
           | _ => false
           end)
  | CompositeLit xType xElts =>
      match node with
      | Some (CompositeLit yType yElts) =>
          rec xType yType &&& exprs xElts yElts
      | _ => ret false
      end
  | FuncLit xType xBody =>
      match node with
      | Some (FuncLit yType yBody) =>
          rec (Some xType) (Some yType) &&& rec (Some xBody) (Some yBody)
      | _ => ret false
      end

  (* types *)
  | ArrayType xLen xElt =>
      match node with
      | Some (ArrayType yLen yElt) =>
          rec xLen yLen &&& rec (Some xElt) (Some yElt)
      | _ => ret false
      end
  | MapType xKey xValue =>
      match node with
      | Some (MapType yKey yValue) =>
          rec (Some xKey) (Some yKey) &&& rec (Some xValue) (Some yValue)
      | _ => ret false
      end
  | StructType xFields =>
      match node with
      | Some (StructType yFields) => fields xFields yFields
      | _ => ret false
      end
  | Field xNames xType _ =>
      (* TODO: tags? *)
      match node with
      | Some (Field yNames yType _) =>
          idents xNames yNames &&& rec xType yType
      | _ => ret false
      end
  | FuncType xParams xResults =>
      match node with
      | Some (FuncType yParams yResults) =>
          fields xParams yParams &&& fields xResults yResults
      | _ => ret false
      end
  | InterfaceType xMethods =>
      match node with
      | Some (InterfaceType yMethods) => fields xMethods yMethods
      | _ => ret false
      end
  | ChanType xDir xValue =>
      match node with
      | Some (ChanType yDir yValue) =>
          ret (bool_decide (xDir = yDir)) &&& rec (Some xValue) (Some yValue)
      | _ => ret false
      end

  (* other exprs *)
  | Ellipsis xElt =>
      match node with
      | Some (Ellipsis yElt) => rec xElt yElt
      | _ => ret false
      end
  | ParenExpr xX =>
      match node with
      | Some (ParenExpr yX) => rec (Some xX) (Some yX)
      | _ => ret false
      end
  | UnaryExpr xOp xX =>
      match node with
      | Some (UnaryExpr yOp yX) =>
          ret (bool_decide (xOp = yOp)) &&& rec (Some xX) (Some yX)
      | _ => ret false
      end
  | BinaryExpr xX xOp xY =>
      match node with
      | Some (BinaryExpr yX yOp yY) =>
          ret (bool_decide (xOp = yOp)) &&& rec (Some xX) (Some yX)
          &&& rec (Some xY) (Some yY)
      | _ => ret false
      end
  | CallExpr xFun xArgs xEllipsis =>
      match node with
      | Some (CallExpr yFun yArgs yEllipsis) =>
          rec (Some xFun) (Some yFun) &&& exprs xArgs yArgs
          &&& ret (bothValid xEllipsis yEllipsis)
      | _ => ret false
      end
  | KeyValueExpr xKey xValue =>
      match node with
      | Some (KeyValueExpr yKey yValue) =>
          rec (Some xKey) (Some yKey) &&& rec (Some xValue) (Some yValue)
      | _ => ret false
      end
  | StarExpr xX =>
      match node with
      | Some (StarExpr yX) => rec (Some xX) (Some yX)
      | _ => ret false
      end
  | SelectorExpr xX xSel =>
      match node with
      | Some (SelectorExpr yX ySel) =>
          rec (Some xX) (Some yX) &&& rec (Some xSel) (Some ySel)
      | _ => ret false
      end
  | IndexExpr xX xIndex =>
      match node with
      | Some (IndexExpr yX yIndex) =>
          rec (Some xX) (Some yX) &&& rec (Some xIndex) (Some yIndex)
      | _ => ret false
      end
  | SliceExpr xX xLow xHigh xMax =>
      match node with
      | Some (SliceExpr yX yLow yHigh yMax) =>
          rec (Some xX) (Some yX) &&& rec xLow yLow
          &&& rec xHigh yHigh &&& rec xMax yMax
      | _ => ret false
      end
  | TypeAssertExpr xX xType =>
      match node with
      | Some (TypeAssertExpr yX yType) =>
          rec (Some xX) (Some yX) &&& rec xType yType
      | _ => ret false
      end

  (* decls *)
  | GenDecl xTok xSpecs =>
      let* single :=
        ret aggressive
        &&& match xSpecs with
            | [spec] => rec (Some spec) node
            | _ => ret false
            end in
      if single then ret true
      else
        match node with
        | Some (GenDecl yTok ySpecs) =>
            ret (bool_decide (xTok = yTok)) &&& specs xSpecs ySpecs
        | _ => ret false
        end
  | FuncDecl xRecv xName xType xBody =>
      match node with
      | Some (FuncDecl yRecv yName yType yBody) =>
          fields xRecv yRecv &&& rec (Some xName) (Some yName)
          &&& rec (Some xType) (Some yType)
          &&& (* Body is a *ast.BlockStmt: a nil pointer is not a nil
                 ast.Node, and case *ast.BlockStmt reads its List *)
              match xBody, yBody with
              | Some xb, Some yb => rec (Some xb) (Some yb)
              | _, _ => panic NilDereference
              end
      | _ => ret false
      end

  (* specs *)
  | ValueSpec xNames xType xValues =>
      match node with
      | Some (ValueSpec yNames yType yValues) =>
          let* typeOk := rec xType yType in
          if negb typeOk then ret false
          else
            let* found :=
              if aggressive && bool_decide (length xNames = 1%nat)
              then valueSpecAny xNames yNames xValues yValues
                     (seq 0 (length yNames))
              else ret false in
            if found then ret true
            else idents xNames yNames &&& exprs xValues yValues
      | _ => ret false
      end

  (* stmt bridge nodes *)
  | ExprStmt xX =>
      match xX with
      | Ident idName =>
          if isWildName idName then
            (* prefer matching $x as a statement, as it's the parent *)
            rec (Some xX) node
          else
            match node with
            | Some (ExprStmt yX) => rec (Some xX) (Some yX)
            | _ => ret false
            end
      | _ =>
          match node with
          | Some (ExprStmt yX) => rec (Some xX) (Some yX)
          | _ => ret false
          end
      end
  | DeclStmt xDecl =>
      match node with
      | Some (DeclStmt yDecl) => rec (Some xDecl) (Some yDecl)
      | _ => ret false
      end

  (* stmts *)
  | EmptyStmt =>
      ret (match node with Some EmptyStmt => true | _ => false end)
  | LabeledStmt xLabel xStmt =>
      match node with
      | Some (LabeledStmt yLabel yStmt) =>
          rec (Some xLabel) (Some yLabel) &&& rec (Some xStmt) (Some yStmt)
      | _ => ret false
      end
  | SendStmt xChan xValue =>
      match node with
      | Some (SendStmt yChan yValue) =>
          rec (Some xChan) (Some yChan) &&& rec (Some xValue) (Some yValue)
      | _ => ret false
      end
  | IncDecStmt xX xTok =>
      match node with
      | Some (IncDecStmt yX yTok) =>
          ret (bool_decide (xTok = yTok)) &&& rec (Some xX) (Some yX)
      | _ => ret false
      end
  | AssignStmt xLhs xTok xRhs =>
      match node with
      | Some (AssignStmt yLhs yTok yRhs) =>
          ret (bool_decide (xTok = yTok)) &&& exprs xLhs yLhs
          &&& exprs xRhs yRhs
      | _ => ret false
      end
  | GoStmt xCall =>
      match node with
      | Some (GoStmt yCall) => rec (Some xCall) (Some yCall)
      | _ => ret false
      end
  | DeferStmt xCall =>
      match node with
      | Some (DeferStmt yCall) => rec (Some xCall) (Some yCall)
      | _ => ret false
      end
  | ReturnStmt xResults =>
      match node with
      | Some (ReturnStmt yResults) => exprs xResults yResults
      | _ => ret false
      end
  | BranchStmt xTok xLabel =>
      match node with
      | Some (BranchStmt yTok yLabel) =>
          ret (bool_decide (xTok = yTok))
          &&& rec (maybeNilIdent xLabel) (maybeNilIdent yLabel)
      | _ => ret false
      end
  | BlockStmt xList =>
      let* asList := ret aggressive &&& rec (Some (stmtList xList)) node in
      if asList then ret true
      else
        match node with
        | Some (BlockStmt yList) => cases xList yList ||| stmts xList yList
        | _ => ret false
        end
  | IfStmt xInit xCond xBody xElse =>
      match node with
      | Some (IfStmt yInit yCond yBody yElse) =>
          match headerWild (isSome xInit) (Some xCond) with
          | Some ident =>
              (* for $*x { ... } on the left *)
              let left_ := stmtList [ExprStmt ident] in
              rec (Some left_) (Some (initExprList yInit (Some yCond) None))
              &&& rec (Some xBody) (Some yBody)
          | None =>
              rec xInit yInit &&& rec (Some xCond) (Some yCond)
              &&& rec (Some xBody) (Some yBody) &&& rec xElse yElse
          end
      | _ => ret false
      end
  | CaseClause xList xBody =>
      match node with
      | Some (CaseClause yList yBody) => exprs xList yList &&& stmts xBody yBody
      | _ => ret false
      end
  | SwitchStmt xInit xTag xBody =>
      match node with
      | Some (SwitchStmt yInit yTag yBody) =>
          match headerWild (isSome xInit) xTag with
          | Some ident =>
              (* for $*x { ... } on the left *)
              let left_ := stmtList [ExprStmt ident] in
              rec (Some left_) (Some (initExprList yInit yTag None))
              &&& rec (Some xBody) (Some yBody)
          | None =>
              rec xInit yInit &&& rec xTag yTag
              &&& rec (Some xBody) (Some yBody)
          end
      | _ => ret false
      end
  | TypeSwitchStmt xInit xAssign xBody =>
      match node with
      | Some (TypeSwitchStmt yInit yAssign yBody) =>
          rec xInit yInit &&& rec (Some xAssign) (Some yAssign)
          &&& rec (Some xBody) (Some yBody)
      | _ => ret false
      end
  | CommClause xComm xBody =>
      match node with
      | Some (CommClause yComm yBody) => rec xComm yComm &&& stmts xBody yBody
      | _ => ret false
      end
  | SelectStmt xBody =>
      match node with
      | Some (SelectStmt yBody) => rec (Some xBody) (Some yBody)
      | _ => ret false
      end
  | ForStmt xInit xCond xPost xBody =>
      match node with
      | Some (ForStmt yInit yCond yPost yBody) =>
          match headerWild (isSome xInit || isSome xPost) xCond with
          | Some ident =>
              (* for $*x { ... } on the left *)
              let left_ := stmtList [ExprStmt ident] in
              rec (Some left_) (Some (initExprList yInit yCond yPost))
              &&& rec (Some xBody) (Some yBody)
          | None =>
              rec xInit yInit &&& rec xCond yCond &&& rec xPost yPost
              &&& rec (Some xBody) (Some yBody)
          end
      | _ => ret false
      end
  | RangeStmt xKey xValue _ xX xBody =>
      match node with
      | Some (RangeStmt yKey yValue _ yX yBody) =>
          rec xKey yKey &&& rec xValue yValue &&& rec (Some xX) (Some yX)
          &&& rec (Some xBody) (Some yBody)
      | _ => ret false
      end
  | identList _ | specList _ | BadExpr | TypeSpec _ _ | ImportSpec _ _ =>
      panic (UnexpectedNode x)
  end.

Definition node_body (expr node : option Node) : M bool :=
  reseatScope node ;;
  let* aggressive := getAggressive in
  let nilCase : option bool :=
    if negb aggressive then
      if negb (isSome expr) || negb (isSome node)
      then Some (negb (isSome expr) && negb (isSome node))
      else None
    else
      if negb (isSome expr) && negb (isSome node) then Some true else None in
  match nilCase with
  | Some b => ret b
  | None =>
  let '(expr, node) :=
    if aggressive && negb (isSome node) then (node, expr) else (expr, node) in
  match expr with
  | None => (* only in aggressive mode *)
      ret (match node with
           | Some (Ident yName) => bool_decide (yName = "_")
           | _ => false
           end)
  | Some x => node_switch aggressive x node
  end
  end.

End NodeBody.

Section Engine.
Context `{Collaborators}.
Variable info : Z -> varInfo.

(** [matcher.node], with [fuel] bounding the depth of its calls and the
    number of passes through the loop of [matcher.nodes]. *)
Fixpoint node (fuel : nat) (expr node_ : option Node) : M bool :=
  match fuel with
  | O => fun _ => NoFuel
  | S fuel => node_body info (node fuel) fuel expr node_
  end.

(** [matcher.nodes] *)
Definition matcher_nodes (fuel : nat) (ns1 ns2 : nodeList) (partial : bool)
  : M (option Node) :=
  nodes info (node fuel) fuel ns1 ns2 partial.

End Engine.

(** ** Walking, collecting and filtering *)

(* exprCmd: one stage of the pipeline *)
Record exprCmd := ExprCmd {
  cmd_name : string;   (* "x", "g" or "v" *)
  cmd_node : Node      (* the pattern *)
}.

Section Stages.
Context `{Collaborators}.
Variable info : Z -> varInfo.
Variable fuel : nat.

Definition topNode (exprNode node_ : Node) : M (option Node) :=
  match exprNode, node_ with
  | stmtList sts1, stmtList sts2 =>
      matcher_nodes info fuel (NodeList StmtL sts1) (NodeList StmtL sts2) true
  | _, _ =>
      let* ok := node info fuel (Some exprNode) (Some node_) in
      if ok then ret (Some node_) else ret None
  end.

(* for _, x := range l { acc = f(acc, x) } *)
Fixpoint forEach {A B} (f : A -> B -> M A) (l : list B) (acc : A) : M A :=
  match l with
  | [] => ret acc
  | x :: l => let* acc := f acc x in forEach f l acc
  end.

Section Walk.
(* The callbacks of match.go are closures over local variables of the
   stage; [A] is the type of those variables and [fn] gets and returns
   them. *)
Context {A : Type}.
Variable fn : A -> Node -> option Node -> M A.

Definition visit (exprNode : Node) (acc : A) (node_ : option Node) : M A :=
  let* acc := fn acc exprNode node_ in
  forEach (fun acc list_ => fn acc exprNode (Some (listNode list_)))
          (nodeLists node_) acc.

(* ast.Inspect(node, visit) *)
Definition inspect (exprNode : Node) (acc : A) (node_ : Node) : M A :=
  let* acc := forEach (visit exprNode) (fst (Inspect node_)) acc in
  match snd (Inspect node_) with
  | Some unknown => panic (UnexpectedNode unknown)
  | None => ret acc
  end.

Definition walkWithLists (exprNode node_ : Node) (acc : A) : M A :=
  match asNodeList node_ with
  | Some list_ =>
      let* acc :=
        if isExpr exprNode then
          (* so that "$*a" will match "a, b" *)
          let* acc := fn acc (exprList [exprNode]) (Some node_) in
          (* so that "$*a" will match "a; b" *)
          fn acc (stmtList [ExprStmt exprNode]) (Some node_)
        else ret acc in
      let* acc := fn acc exprNode (Some node_) in
      forEach (inspect exprNode) (elems list_) acc
  | None => inspect exprNode acc node_
  end.

End Walk.

(* m.values = map[string]ast.Node{} *)
Definition resetValues : M unit :=
  let* r := newMap ∅ in setValues r.

(* the local variables matches and seen of cmdRange *)
Definition rangeAcc : Type := list Node * gmap (Pos * Pos) bool.

(* the closure match of cmdRange *)
Definition rangeMatch (acc : rangeAcc) (exprNode : Node)
    (node_ : option Node) : M rangeAcc :=
  match node_ with
  | None => ret acc
  | Some n =>
      resetValues ;;
      let* found := topNode exprNode n in
      match found with
      | None => ret acc
      | Some found =>
          let* p := node_Pos found in
          let* e := node_End found in
          let posRange := (p, e) in
          if negb (default false (snd acc !! posRange))
          then ret (fst acc ++ [found], <[posRange := true]> (snd acc))
          else ret acc
      end
  end.

Definition cmdRange (cmd : exprCmd) (nodes_ : list Node) : M (list Node) :=
  let* acc :=
    forEach (fun acc n => walkWithLists rangeMatch (cmd_node cmd) n acc)
            nodes_ ([], ∅) in
  ret (fst acc).

(* the closure match of cmdFilter; the accumulator is the variable any *)
Definition filterMatch (any_ : bool) (exprNode : Node)
    (node_ : option Node) : M bool :=
  match node_ with
  | None => ret any_
  | Some n =>
      resetValues ;;
      let* found := topNode exprNode n in
      if isSome found then ret true else ret any_
  end.

Definition cmdFilter (wantAny : bool) (cmd : exprCmd) (nodes_ : list Node)
  : M (list Node) :=
  forEach (fun matches_ n =>
             let* any_ := walkWithLists filterMatch (cmd_node cmd) n false in
             if bool_decide (any_ = wantAny) then ret (matches_ ++ [n])
             else ret matches_)
          nodes_ [].

Fixpoint matches (cmds : list exprCmd) (nodes_ : list Node)
  : M (list Node) :=
  match cmds with
  | [] => ret nodes_
  | cmd :: cmds =>
      let* out :=
        if bool_decide (cmd_name cmd = "x") then cmdRange cmd nodes_
        else if bool_decide (cmd_name cmd = "g") then cmdFilter true cmd nodes_
        else if bool_decide (cmd_name cmd = "v") then cmdFilter false cmd nodes_
        else panic NilDereference in
      matches cmds out
  end.

End Stages.

(** ** A concrete instance for the examples

    The pattern parser writes the wildcard number [n] as the identifier
    [gogrep_n]; [vars] is the table of the compiled wildcards. *)

Module Fixture.

Definition wildPrefix : string := "gogrep_".

Definition digit (a : Ascii.ascii) : option Z :=
  let n := Z.of_nat (Ascii.nat_of_ascii a) in
  if bool_decide (48 <= n <= 57)%Z then Some (n - 48)%Z else None.

Fixpoint atoi (acc : Z) (s : string) : option Z :=
  match s with
  | EmptyString => Some acc
  | String a s =>
      match digit a with
      | Some d => atoi (10 * acc + d)%Z s
      | None => None
      end
  end.

Definition isWild (s : string) : bool := String.prefix wildPrefix s.

Definition fromWild (s : string) : Z :=
  if negb (isWild s) then (-1)%Z
  else
    let rest := String.substring (String.length wildPrefix)
                  (String.length s - String.length wildPrefix) s in
    match rest with
    | EmptyString => (-1)%Z
    | _ => match atoi 0 rest with Some n => n | None => (-1)%Z end
    end.

(* the children of the expression and statement kinds used below, in
   the order of ast.Walk *)
Definition children (n : Node) : list Node :=
  match n with
  | BinaryExpr X _ Y => [X; Y]
  | CallExpr Fun Args _ => Fun :: Args
  | ParenExpr X | ExprStmt X => [X]
  | BlockStmt List_ => List_
  | ReturnStmt Results => Results
  | AssignStmt Lhs _ Rhs => Lhs ++ Rhs
  | _ => []
  end.

Fixpoint preorder (depth : nat) (n : Node) : list (option Node) :=
  match depth with
  | O => [Some n; None]
  | S depth =>
      Some n :: concat (map (preorder depth) (children n)) ++ [None]
  end.

(* source positions of the examples: an identifier or literal whose text
   is a number n sits at offsets 10n .. 10n+1 *)
Definition textPos (s : string) : Z :=
  match atoi 0 s with Some n => (10 * n)%Z | None => 0%Z end.

Fixpoint startOf (depth : nat) (n : Node) : Z :=
  match n with
  | Ident s | BasicLit _ s => textPos s
  | _ =>
      match depth, children n with
      | S depth, c :: _ => startOf depth c
      | _, _ => 0%Z
      end
  end.

Fixpoint endOf (depth : nat) (n : Node) : Z :=
  match n with
  | Ident s | BasicLit _ s => (textPos s + 1)%Z
  | _ =>
      match depth, last (children n) with
      | S depth, Some c => endOf depth c
      | _, _ => 0%Z
      end
  end.

#[export] Instance collaborators : Collaborators := {|
  Scope := unit;
  Ty := string;
  Object := string;
  Regexp := string;
  MatchString rx s := String.prefix rx s;
  Info_Scopes _ := Some tt;
  Info_TypeOf _ := Some "int";
  Comparable _ := true;
  Identical a b := bool_decide (a = b);
  AssignableTo a b := bool_decide (a = b);
  ConvertibleTo a b := bool_decide (a = b);
  LookupParent sc s := if isSome sc then Some s else None;
  Object_Type o := o;
  PkgName_Scope _ := None;
  NewSlice t := String.append "[]" t;
  NewArray t _ := String.append "[n]" t;
  NewPointer t := String.append "*" t;
  ParseInt s := match atoi 0 s with Some n => n | None => 0%Z end;
  ast_Pos := startOf 8;
  ast_End := endOf 8;
  Inspect n := (preorder 8 n, None);
  isWildName := isWild;
  fromWildName := fromWild
|}.

(* m.info(id) over the table m.vars *)
Definition infoOf (vars : list varInfo) (id : Z) : varInfo :=
  if bool_decide (id < 0)%Z then varInfo0
  else default varInfo0 (vars !! Z.to_nat id).

Definition single (n : string) : varInfo := VarInfo _ n false [] [] false false.
Definition multi (n : string) : varInfo := VarInfo _ n true [] [] false false.

(* a matcher with one empty capture map *)
Definition matcher0 (aggr : bool) : matcher := Matcher [∅] 0 None aggr.

Definition lit (v : string) : Node := BasicLit token_INT v.

End Fixture.


(** ** Vocabulary of the statements *)

Section Vocabulary.
Context `{Collaborators}.

(* m.values points into the store *)
Definition wf (m : matcher) : Prop := (values m < length (store m))%nat.

(* the capture environment: the map m.values points to *)
Definition bindingsOf (m : matcher) : gmap string Node :=
  deref (store m) (values m).

(* a named wildcard without constraints: $name *)
Definition plainVar (n : string) : varInfo :=
  VarInfo _ n false [] [] false false.

(* x is an identifier with a wildcard name *)
Definition isWildIdent (x : Node) : bool :=
  match x with Ident s => isWildName s | _ => false end.

Definition isExprStmt (n : Node) : bool :=
  match n with ExprStmt _ => true | _ => false end.

End Vocabulary.


Section VocabularyTypes.
Context `{Collaborators}.

(* the shapes resolveType has a case for *)
Definition supportedTypeExpr (e : Node) : bool :=
  match e with
  | Ident _ | ArrayType _ _ | StarExpr _ | SelectorExpr _ _ => true
  | _ => false
  end.

(* a literal integer, the only array length resolveType accepts *)
Definition isIntLit (e : Node) : bool :=
  match e with
  | BasicLit Kind _ => bool_decide (Kind = token_INT)
  | _ => false
  end.

(* the matcher after the first switch of matcher.node *)
Definition reseated (node_ : option Node) (m : matcher) : matcher :=
  Matcher (store m) (values m)
          (match node_ with
           | Some n => if opensScope node_ then Info_Scopes n else scope m
           | None => scope m
           end)
          (aggressive m).

(* the checks of the wildcard case that come before the type
   constraints are resolved *)
Definition reachesTypeChecks (vi : varInfo) (cand : Node) (t : Ty) : Prop :=
  any vi = false
  /\ nameRxsOk (asIdent (Some cand)) (nameRxs vi) = true
  /\ needExpr vi = true
  /\ isExpr cand = true
  /\ Info_TypeOf cand = Some t
  /\ (comp vi = true -> Comparable t = true).

(* the constraint tc resolves in scope sc and the type t satisfies it *)
Definition passes (sc : option Scope) (t : Ty) (tc : typeCheck) : bool :=
  match resolveType sc (expr tc) with
  | Fatal _ => false
  | Resolved want =>
      negb (bool_decide (op tc = "type") && negb (Identical t want))
      && negb (bool_decide (op tc = "asgn") && negb (AssignableTo t want))
      && negb (bool_decide (op tc = "conv") && negb (ConvertibleTo t want))
  end.

End VocabularyTypes.


Section VocabularyStages.
Context `{Collaborators}.
Variable info : Z -> varInfo.
Variable fuel : nat.

(* the boolean "matched anywhere inside" of one candidate: the value of
   the variable any after the walk of cmdFilter *)
Definition anyInside (cmd : exprCmd) (n : Node) : M bool :=
  walkWithLists (filterMatch info fuel) (cmd_node cmd) n false.

(* those booleans for a list of candidates, computed in order *)
Fixpoint anyFlags (cmd : exprCmd) (ns : list Node) : M (list bool) :=
  match ns with
  | [] => ret []
  | n :: ns =>
      let* b := anyInside cmd n in
      let* bs := anyFlags cmd ns in
      ret (b :: bs)
  end.

(* the candidates whose boolean equals want, in the order of the input
   and as often as they occur in it *)
Fixpoint select (want : bool) (ns : list Node) (bs : list bool)
  : list Node :=
  match ns, bs with
  | n :: ns, b :: bs =>
      if bool_decide (b = want) then n :: select want ns bs
      else select want ns bs
  | _, _ => []
  end.

End VocabularyStages.


Section VocabularyRange.
Context `{Collaborators}.
Variable info : Z -> varInfo.
Variable fuel : nat.

(* the closure match of cmdRange without its map seen: every successful
   attempt is recorded, with the source span of what it found *)
Definition discoverMatch (acc : list (Node * (Pos * Pos))) (exprNode : Node)
    (node_ : option Node) : M (list (Node * (Pos * Pos))) :=
  match node_ with
  | None => ret acc
  | Some n =>
      resetValues ;;
      let* found := topNode info fuel exprNode n in
      match found with
      | None => ret acc
      | Some found =>
          let* p := node_Pos found in
          let* e := node_End found in
          ret (acc ++ [(found, (p, e))])
      end
  end.

(* the successful attempts of a Range stage in discovery order *)
Definition discoveries (cmd : exprCmd) (nodes_ : list Node)
  : M (list (Node * (Pos * Pos))) :=
  forEach (fun acc n => walkWithLists discoverMatch (cmd_node cmd) n acc)
          nodes_ [].

(* the entries whose span occurs neither in seen nor earlier in the list *)
Fixpoint firstBySpan (seen : list (Pos * Pos)) (l : list (Node * (Pos * Pos)))
  : list (Node * (Pos * Pos)) :=
  match l with
  | [] => []
  | (n, p) :: l =>
      if bool_decide (p ∈ seen) then firstBySpan seen l
      else (n, p) :: firstBySpan (p :: seen) l
  end.

End VocabularyRange.

(* two runs that end alike, with related results and the same matcher *)
Definition sim `{Collaborators} {A B} (R : A -> B -> Prop)
    (o1 : outcome matcher A) (o2 : outcome matcher B) : Prop :=
  match o1, o2 with
  | Ret a m1, Ret b m2 => R a b /\ m1 = m2
  | Panic f1, Panic f2 => f1 = f2
  | NoFuel, NoFuel => True
  | _, _ => False
  end.


Section VocabularyRangeInv.
Context `{Collaborators}.

(* what the variables matches and seen of cmdRange hold after the
   attempts recorded in ds *)
Definition rangeInv (acc : rangeAcc) (ds : list (Node * (Pos * Pos))) : Prop :=
  fst acc = (firstBySpan [] ds).*1
  /\ forall p, default false (snd acc !! p) = true <-> p ∈ ds.*2.

End VocabularyRangeInv.


Section VocabularyFrame.
Context `{Collaborators}.

(* m' is a later state of m: the store grew, m.values is the map it was or
   one allocated since, and no other map that m had has changed *)
Definition extends (m m' : matcher) : Prop :=
  wf m'
  /\ (length (store m) <= length (store m'))%nat
  /\ (values m' = values m \/ (length (store m) <= values m')%nat)
  /\ aggressive m' = aggressive m
  /\ forall r, (r < length (store m))%nat -> r <> values m ->
       store m' !! r = store m !! r.

(* a computation that only leads to later states *)
Definition framed {A} (c : M A) : Prop :=
  forall m a m', wf m -> c m = Ret a m' -> extends m m'.

(* the map oldMatches points to *)
Definition snapshotOf (s : loopState) (m : matcher) : gmap string Node :=
  deref (store m) (oldMatches s).

End VocabularyFrame.


Section VocabularyLoop.
Context `{Collaborators}.
Variable info : Z -> varInfo.

(* the invariant of the loop of matcher.nodes relative to the state m0 in
   which matcher.nodes was called: oldMatches was allocated since *)
Definition loopFrame (m0 : matcher) (s : loopState) (m : matcher) : Prop :=
  extends m0 m
  /\ (length (store m0) <= oldMatches s < length (store m))%nat.

(* the result of tryPattern without its tag *)
Definition afterTry (r : loopState + loopState) : loopState :=
  match r with inl s | inr s => s end.

Section Checkpoint.
Variable rec : option Node -> option Node -> M bool.
Variables ns1 ns2 : nodeList.
Variable partial : bool.

(* a pass through the loop body from s calls backupMatches, and does so
   before it reads or writes m.values: the pattern element is a
   multi-wildcard, or it is the first one in partial mode *)
Definition backsUp (s : loopState) : bool :=
  match elems ns1 !! i1 s with
  | Some n1 =>
      any (info (fromWildNode n1)) || (partial && bool_decide (i1 s = 0%nat))
  | None => false
  end.

(* the invariant of the loop about its checkpoint: oldMatches is a map of
   the store; m.values is that very map only where the next pass replaces
   oldMatches first; the pattern cursor is not before the checkpoint; and
   a checkpoint, when there is one, is a position where a pass takes a
   snapshot *)
Definition checkpointInv (s : loopState) (m : matcher) : Prop :=
  wf m
  /\ (oldMatches s < length (store m))%nat
  /\ (values m = oldMatches s -> backsUp s = true)
  /\ (next1 s <= i1 s)%nat
  /\ ((0 < next2 s)%nat -> backsUp (set_i (next1 s) (next2 s) s) = true).

(* the bindings a restart at the end of a pass from s, m brings back *)
Definition checkpointBindings (s : loopState) (m : matcher)
  : gmap string Node :=
  if backsUp s then bindingsOf m else snapshotOf s m.

(* states of the loop joined by passes that end in continue *)
Inductive reaches : loopState -> matcher -> loopState -> matcher -> Prop :=
  | reaches_here s m : reaches s m s m
  | reaches_pass s m s1 m1 s2 m2 :
      loopBody info rec ns1 ns2 partial s m = Ret (Continue s1) m1 ->
      reaches s1 m1 s2 m2 ->
      reaches s m s2 m2.

End Checkpoint.
End VocabularyLoop.


Section VocabularyIdentity.
Context `{Collaborators}.

(* A node without what matcher.node never compares: the place of the
   variadic marker of a call becomes 1 where there is one, the tag of a
   struct field is dropped and the token of a range statement (:= or =)
   becomes ILLEGAL.  Two nodes with the same image agree in every field the
   matcher compares; they can differ in the places, in struct tags and in
   the tokens of range statements, so the same image is less than the same
   syntax. *)
Fixpoint erase (n : Node) : Node :=
  let eraseO := option_map erase in
  let eraseL := List.map erase in
  let eraseF := option_map (List.map erase) in
  match n with
  | File Name Decls Imports => File (erase Name) (eraseL Decls) (eraseL Imports)
  | Ident Name => Ident Name
  | exprList l => exprList (eraseL l)
  | identList l => identList (eraseL l)
  | stmtList l => stmtList (eraseL l)
  | specList l => specList (eraseL l)
  | BasicLit Kind Value => BasicLit Kind Value
  | CompositeLit Type_ Elts => CompositeLit (eraseO Type_) (eraseL Elts)
  | FuncLit Type_ Body => FuncLit (erase Type_) (erase Body)
  | ArrayType Len Elt => ArrayType (eraseO Len) (erase Elt)
  | MapType Key Value => MapType (erase Key) (erase Value)
  | StructType Fields => StructType (eraseF Fields)
  | Field Names Type_ _ => Field (eraseL Names) (eraseO Type_) None
  | FuncType Params Results => FuncType (eraseF Params) (eraseF Results)
  | InterfaceType Methods => InterfaceType (eraseF Methods)
  | ChanType Dir Value => ChanType Dir (erase Value)
  | Ellipsis Elt => Ellipsis (eraseO Elt)
  | ParenExpr X => ParenExpr (erase X)
  | UnaryExpr Op X => UnaryExpr Op (erase X)
  | BinaryExpr X Op Y => BinaryExpr (erase X) Op (erase Y)
  | CallExpr Fun Args Ellipsis_ =>
      CallExpr (erase Fun) (eraseL Args)
               (if IsValid Ellipsis_ then 1%Z else NoPos)
  | KeyValueExpr Key Value => KeyValueExpr (erase Key) (erase Value)
  | StarExpr X => StarExpr (erase X)
  | SelectorExpr X Sel => SelectorExpr (erase X) (erase Sel)
  | IndexExpr X Index => IndexExpr (erase X) (erase Index)
  | SliceExpr X Low High Max =>
      SliceExpr (erase X) (eraseO Low) (eraseO High) (eraseO Max)
  | TypeAssertExpr X Type_ => TypeAssertExpr (erase X) (eraseO Type_)
  | BadExpr => BadExpr
  | GenDecl Tok Specs => GenDecl Tok (eraseL Specs)
  | FuncDecl Recv Name Type_ Body =>
      FuncDecl (eraseF Recv) (erase Name) (erase Type_) (eraseO Body)
  | ValueSpec Names Type_ Values =>
      ValueSpec (eraseL Names) (eraseO Type_) (eraseL Values)
  | TypeSpec Name Type_ => TypeSpec (erase Name) (erase Type_)
  | ImportSpec Name Path => ImportSpec (eraseO Name) (erase Path)
  | ExprStmt X => ExprStmt (erase X)
  | DeclStmt Decl => DeclStmt (erase Decl)
  | EmptyStmt => EmptyStmt
  | LabeledStmt Label Stmt => LabeledStmt (erase Label) (erase Stmt)
  | SendStmt Chan Value => SendStmt (erase Chan) (erase Value)
  | IncDecStmt X Tok => IncDecStmt (erase X) Tok
  | AssignStmt Lhs Tok Rhs => AssignStmt (eraseL Lhs) Tok (eraseL Rhs)
  | GoStmt Call => GoStmt (erase Call)
  | DeferStmt Call => DeferStmt (erase Call)
  | ReturnStmt Results => ReturnStmt (eraseL Results)
  | BranchStmt Tok Label => BranchStmt Tok (eraseO Label)
  | BlockStmt List_ => BlockStmt (eraseL List_)
  | IfStmt Init Cond Body Else =>
      IfStmt (eraseO Init) (erase Cond) (erase Body) (eraseO Else)
  | CaseClause List_ Body => CaseClause (eraseL List_) (eraseL Body)
  | SwitchStmt Init Tag Body =>
      SwitchStmt (eraseO Init) (eraseO Tag) (erase Body)
  | TypeSwitchStmt Init Assign Body =>
      TypeSwitchStmt (eraseO Init) (erase Assign) (erase Body)
  | CommClause Comm Body => CommClause (eraseO Comm) (eraseL Body)
  | SelectStmt Body => SelectStmt (erase Body)
  | ForStmt Init Cond Post Body =>
      ForStmt (eraseO Init) (eraseO Cond) (eraseO Post) (erase Body)
  | RangeStmt Key Value _ X Body =>
      RangeStmt (eraseO Key) (eraseO Value) token_ILLEGAL (erase X)
                (erase Body)
  end.

(* no identifier of the node has a wildcard name (the tag of a field is a
   literal and has none) *)
Fixpoint plain (n : Node) : bool :=
  let plainO (o : option Node) :=
    match o with Some x => plain x | None => true end in
  let plainL := forallb plain in
  let plainF (o : option (list Node)) :=
    match o with Some l => forallb plain l | None => true end in
  match n with
  | File Name Decls Imports => plain Name && plainL Decls && plainL Imports
  | Ident Name => negb (isWildName Name)
  | exprList l | identList l | stmtList l | specList l => plainL l
  | BasicLit _ _ | BadExpr | EmptyStmt => true
  | CompositeLit Type_ Elts => plainO Type_ && plainL Elts
  | FuncLit Type_ Body => plain Type_ && plain Body
  | ArrayType Len Elt => plainO Len && plain Elt
  | MapType Key Value => plain Key && plain Value
  | StructType Fields => plainF Fields
  | Field Names Type_ _ => plainL Names && plainO Type_
  | FuncType Params Results => plainF Params && plainF Results
  | InterfaceType Methods => plainF Methods
  | ChanType _ Value => plain Value
  | Ellipsis Elt => plainO Elt
  | ParenExpr X | UnaryExpr _ X | StarExpr X | ExprStmt X | IncDecStmt X _ =>
      plain X
  | BinaryExpr X _ Y => plain X && plain Y
  | CallExpr Fun Args _ => plain Fun && plainL Args
  | KeyValueExpr Key Value => plain Key && plain Value
  | SelectorExpr X Sel => plain X && plain Sel
  | IndexExpr X Index => plain X && plain Index
  | SliceExpr X Low High Max =>
      plain X && plainO Low && plainO High && plainO Max
  | TypeAssertExpr X Type_ => plain X && plainO Type_
  | GenDecl _ Specs => plainL Specs
  | FuncDecl Recv Name Type_ Body =>
      plainF Recv && plain Name && plain Type_ && plainO Body
  | ValueSpec Names Type_ Values =>
      plainL Names && plainO Type_ && plainL Values
  | TypeSpec Name Type_ => plain Name && plain Type_
  | ImportSpec Name Path => plainO Name && plain Path
  | DeclStmt Decl => plain Decl
  | LabeledStmt Label Stmt => plain Label && plain Stmt
  | SendStmt Chan Value => plain Chan && plain Value
  | AssignStmt Lhs _ Rhs => plainL Lhs && plainL Rhs
  | GoStmt Call | DeferStmt Call => plain Call
  | ReturnStmt Results => plainL Results
  | BranchStmt _ Label => plainO Label
  | BlockStmt List_ => plainL List_
  | IfStmt Init Cond Body Else =>
      plainO Init && plain Cond && plain Body && plainO Else
  | CaseClause List_ Body => plainL List_ && plainL Body
  | SwitchStmt Init Tag Body => plainO Init && plainO Tag && plain Body
  | TypeSwitchStmt Init Assign Body =>
      plainO Init && plain Assign && plain Body
  | CommClause Comm Body => plainO Comm && plainL Body
  | SelectStmt Body => plain Body
  | ForStmt Init Cond Post Body =>
      plainO Init && plainO Cond && plainO Post && plain Body
  | RangeStmt Key Value _ X Body =>
      plainO Key && plainO Value && plain X && plain Body
  end.

Definition plainO (o : option Node) : bool :=
  match o with Some x => plain x | None => true end.

(* a matcher in strict mode whose m.values is a map of the store *)
Definition strict (m : matcher) : Prop := wf m /\ aggressive m = false.

End VocabularyIdentity.


Section VocabularyIdentify.
Context `{Collaborators}.

(* the recursive call is well behaved on patterns without wildcards *)
Definition identifies (rec : option Node -> option Node -> M bool) : Prop :=
  forall xo yo m m', strict m -> plainO xo = true ->
    rec xo yo m = Ret true m' -> option_map erase xo = option_map erase yo.

(* without wildcards and outside partial mode the cursors advance together *)
Definition lockstep (ns1 ns2 : nodeList) (s : loopState) (m : matcher)
  : Prop :=
  i2 s = i1 s /\ next2 s = 0%nat /\ wildName s = "" /\ strict m
  /\ (i1 s <= len ns1)%nat /\ (i1 s <= len ns2)%nat
  /\ List.map erase (take (i1 s) (elems ns1))
     = List.map erase (take (i1 s) (elems ns2)).

End VocabularyIdentify.


(** ** Sample patterns and candidates *)

Module Samples.
Import Fixture.

(* the wildcards $*a, $x, $*b and $last, written gogrep_0 .. gogrep_3 *)
Definition vars : list varInfo :=
  [multi "a"; single "x"; multi "b"; single "last"].
Definition info : Z -> varInfo := infoOf vars.

Definition wild (id : nat) : Node :=
  Ident (String.append wildPrefix
           (String (Ascii.ascii_of_nat (48 + id)) EmptyString)).
Definition stmt (s : string) : Node := ExprStmt (Ident s).
(* var names = values *)
Definition varDecl (names values : list string) : Node :=
  DeclStmt (GenDecl token_VAR
              [ValueSpec (map Ident names) None (map lit values)]).

Definition exprsOf (l : list Node) : nodeList := NodeList ExprL l.
Definition stmtsOf (l : list Node) : nodeList := NodeList StmtL l.

(* what is observed of an outcome: the result and the captures *)
Definition view {A} (o : outcome matcher A)
  : option (A * list (string * Node)) :=
  match o with
  | Ret r m => Some (r, map_to_list (bindingsOf m))
  | _ => None
  end.

(* the outcome is a result [r] with capture environment [b] *)
Definition yields {A} (o : outcome matcher A) (r : A)
    (b : list (string * Node)) : Prop :=
  view o = Some (r, b).

(* var a = 1 and var a, b = 1, 2 *)
Definition decl1 : Node := varDecl ["a"] ["1"].
Definition decl2 : Node := varDecl ["a"; "b"] ["1"; "2"].

(* for k = range m {} and for k := range m {} *)
Definition rangeAssign : Node :=
  RangeStmt (Some (Ident "k")) None token_ASSIGN (Ident "m") (BlockStmt []).
Definition rangeDefine : Node :=
  RangeStmt (Some (Ident "k")) None token_DEFINE (Ident "m") (BlockStmt []).

(* struct{A int `t`}{} and struct{A int}{} *)
Definition structLit (tag : option Node) : Node :=
  CompositeLit
    (Some (StructType (Some [Field [Ident "A"] (Some (Ident "int")) tag])))
    [].
Definition tagged : Node := structLit (Some (BasicLit token_STRING "`t`")).
Definition untagged : Node := structLit None.

(* $x with the type constraint [n]int, an array length that is no literal *)
Definition badArray : Node := ArrayType (Some (Ident "n")) (Ident "int").
Definition typedVars : list varInfo :=
  [VarInfo _ "x" false [] [TypeCheck _ "type" badArray] false true].

End Samples.

(** ** Vocabulary of the further properties *)

(* the names matcher.matches has a stage for *)
Definition knownCmd (c : exprCmd) : bool :=
  bool_decide (cmd_name c = "x") || bool_decide (cmd_name c = "g")
  || bool_decide (cmd_name c = "v").

(* the two filter stages *)
Definition filterCmd (c : exprCmd) : bool :=
  bool_decide (cmd_name c = "g") || bool_decide (cmd_name c = "v").

(* the node types of the model that the type switch of matcher.node has
   no case for *)
Definition unsupported (x : Node) : bool :=
  match x with
  | identList _ | specList _ | BadExpr | TypeSpec _ _ | ImportSpec _ _ => true
  | _ => false
  end.

(* the blank identifier *)
Definition isBlank (n : Node) : bool :=
  match n with Ident s => bool_decide (s = "_") | _ => false end.

(* the loop is at its checkpoint: a restart has just put the cursors there *)
Definition atCheckpoint (s : loopState) : bool :=
  bool_decide (0 < next2 s)%nat && bool_decide (i1 s = next1 s)
  && bool_decide (i2 s = next2 s).

(* a number that every pass of the loop that ends in continue makes smaller *)
Definition cursorRank (ns1 ns2 : nodeList) (s : loopState) : nat :=
  ((len ns1 + 1) * (len ns2 + 2) - (next1 s * (len ns2 + 2) + next2 s))
  * (len ns1 + 2)
  + (if atCheckpoint s then 0 else len ns1 - i1 s + 1).

(* more passes than the loop of matcher.nodes makes on these lists *)
Definition passBound (ns1 ns2 : nodeList) : nat :=
  (len ns1 + 1) * (len ns2 + 2) * (len ns1 + 2) + len ns1 + 1.

Section VocabularyCursors.
Context `{Collaborators}.
Variable info : Z -> varInfo.
Variables ns1 ns2 : nodeList.
Variable partial : bool.

(* what holds of the cursors at the head of the loop *)
Definition cursorInv (s : loopState) : Prop :=
  (next1 s <= i1 s <= len ns1)%nat
  /\ (i2 s <= len ns2)%nat
  /\ (next2 s <= len ns2 + 1)%nat
  /\ (i1 s = next1 s -> next2 s <= i2 s)%nat
  /\ ((0 < next2 s)%nat ->
      backsUp info ns1 partial (set_i (next1 s) (next2 s) s) = true).

End VocabularyCursors.

Section VocabularyAccepts.
Context `{Collaborators}.

(* the recursive call does not reject a candidate that has the image of
   its pattern *)
Definition accepts (rec : option Node -> option Node -> M bool) : Prop :=
  forall xo yo m b m', strict m -> plainO xo = true ->
    option_map erase xo = option_map erase yo ->
    rec xo yo m = Ret b m' -> b = true.

(* a computation that, from a strict state, returns true if it returns,
   in a strict state *)
Definition holds (c : M bool) : Prop :=
  forall m b m', strict m -> c m = Ret b m' -> b = true /\ strict m'.

End VocabularyAccepts.

(* when the first run returns, the second returns a related result in the
   same matcher state *)
Definition refines `{Collaborators} {A B} (R : A -> B -> Prop)
    (o1 : outcome matcher A) (o2 : outcome matcher B) : Prop :=
  match o1 with
  | Ret a m1 =>
      match o2 with
      | Ret b m2 => R a b /\ m1 = m2
      | _ => False
      end
  | _ => True
  end.

Section VocabularyFound.
Context `{Collaborators}.

(* the variables of cmdRange against the variable any of cmdFilter after
   the same attempts: something was collected exactly when any is set *)
Definition foundInv (acc : rangeAcc) (any_ : bool) : Prop :=
  (any_ = true <-> fst acc <> [])
  /\ (forall p, default false (snd acc !! p) = true -> fst acc <> []).

End VocabularyFound.

(* an outcome that, if it is a panic, is the panic of a call of rec *)
Definition faultsFrom `{Collaborators} {A}
    (rec : option Node -> option Node -> M bool) (o : outcome matcher A)
  : Prop :=
  forall f, o = Panic f -> exists e n m0, rec e n m0 = Panic f.

(* what holds of the window and range cursors at the head of the loop *)
Definition boundsInv (ns2 : nodeList) (s : loopState) : Prop :=
  (i2 s <= len ns2)%nat
  /\ (wildStart s <= i2 s)%nat /\ (partialStart s <= i2 s)%nat
  /\ ((0 < next2 s)%nat ->
      (wildStart s <= next2 s)%nat /\ (partialStart s <= next2 s)%nat)
  /\ partialEnd s = len ns2.

Section VocabularySearch.
Context `{Collaborators}.

(* the candidate list has, from index j on, elements with the images of
   the elements of the pattern list: a run that agrees with the pattern in
   everything matcher.node compares, and that can differ from it in places,
   tags of struct fields and tokens of range statements *)
Definition occursAt (ns1 ns2 : nodeList) (j : nat) : Prop :=
  List.map erase (take (len ns1) (drop j (elems ns2)))
  = List.map erase (elems ns1).

(* the index of the candidate list at which the pass from s tries the
   pattern in partial mode *)
Definition tried (s : loopState) : nat :=
  if bool_decide (i1 s = 0%nat) then i2 s else partialStart s.

(* what holds at the head of the loop in partial mode when no element of
   the pattern is a wildcard: the pattern is nowhere before the start that
   is tried, and its first i1 elements are at that start *)
Definition searchInv (ns1 ns2 : nodeList) (s : loopState) : Prop :=
  wildName s = "" /\ next1 s = 0%nat /\ partialEnd s = len ns2
  /\ (i1 s <= len ns1)%nat /\ (i2 s <= len ns2)%nat
  /\ (forall j, (j < tried s)%nat -> ~ occursAt ns1 ns2 j)
  /\ ((0 < i1 s)%nat ->
      i2 s = (partialStart s + i1 s)%nat
      /\ next2 s = (partialStart s + 1)%nat
      /\ List.map erase (take (i1 s) (elems ns1))
         = List.map erase (take (i1 s) (drop (partialStart s) (elems ns2)))).

(* the state in which the loop is left when the pattern was found *)
Definition searchEnd (ns1 ns2 : nodeList) (s : loopState) : Prop :=
  wildName s = ""
  /\ partialEnd s = (partialStart s + len ns1)%nat
  /\ (partialEnd s <= len ns2)%nat
  /\ occursAt ns1 ns2 (partialStart s)
  /\ forall j, (j < partialStart s)%nat -> ~ occursAt ns1 ns2 j.

End VocabularySearch.


(** * Properties *)

(** ** Running the monad *)

Section Run.
Context `{Collaborators}.

Lemma bind_ret_l {A B} (a : A) (k : A -> M B) m : bind (ret a) k m = k a m.
Proof. reflexivity. Qed.

Lemma bind_ret {A B} (c : M A) (k : A -> M B) m a m' :
  c m = Ret a m' -> bind c k m = k a m'.
Proof. unfold bind. intros ->. reflexivity. Qed.

Lemma bind_panic {A B} (c : M A) (k : A -> M B) m f :
  c m = Panic f -> bind c k m = Panic f.
Proof. unfold bind. intros ->. reflexivity. Qed.

Lemma bind_nofuel {A B} (c : M A) (k : A -> M B) m :
  c m = NoFuel -> bind c k m = NoFuel.
Proof. unfold bind. intros ->. reflexivity. Qed.

Lemma bind_inv {A B} (c : M A) (k : A -> M B) m b m' :
  bind c k m = Ret b m' -> exists a m1, c m = Ret a m1 /\ k a m1 = Ret b m'.
Proof.
  unfold bind. destruct (c m) as [a m1| |]; try discriminate. eauto.
Qed.

Lemma andM_true (a b : M bool) m m' :
  andM a b m = Ret true m' ->
  exists m1, a m = Ret true m1 /\ b m1 = Ret true m'.
Proof.
  intros Hb. apply bind_inv in Hb as (x & m1 & Ha & Hk).
  destruct x; [eauto|discriminate].
Qed.

Lemma andM_panic_r (a b : M bool) m m1 f :
  a m = Ret true m1 -> b m1 = Panic f -> andM a b m = Panic f.
Proof. intros Ha Hb. unfold andM. rewrite (bind_ret _ _ _ _ _ Ha). exact Hb. Qed.

Lemma node_unfold info fuel e n :
  node info (S fuel) e n = node_body info (node info fuel) fuel e n.
Proof. reflexivity. Qed.

End Run.

Section RunNode.
Context `{Collaborators}.
Variable info : Z -> varInfo.

Lemma reseatScope_run node_ m :
  exists sc,
    reseatScope node_ m = Ret tt (Matcher (store m) (values m) sc (aggressive m)).
Proof.
  unfold reseatScope. destruct node_ as [n|]; [|destruct m; eexists; reflexivity].
  destruct (opensScope (Some n));
    [eexists; reflexivity|destruct m; eexists; reflexivity].
Qed.

(* on two nodes that are not nil, matcher.node is its type switch *)
Lemma node_some fuel x n m :
  node info (S fuel) (Some x) (Some n) m
  = (reseatScope (Some n) ;;
     node_switch info (node info fuel) fuel (aggressive m) x (Some n)) m.
Proof.
  rewrite node_unfold. unfold node_body, bind, getAggressive.
  destruct (reseatScope_run (Some n) m) as [sc ->]. simpl.
  destruct (aggressive m); reflexivity.
Qed.

End RunNode.

Section RunState.
Context `{Collaborators}.

Lemma bind_lookupValue {B} k (f : option Node -> M B) m :
  bind (lookupValue k) f m = f (bindingsOf m !! k) m.
Proof. reflexivity. Qed.

Lemma storeValue_bindings k n m :
  wf m ->
  exists m', storeValue k n m = Ret tt m'
    /\ bindingsOf m' = <[k:=n]> (bindingsOf m)
    /\ values m' = values m /\ length (store m') = length (store m).
Proof.
  intros Hwf. eexists. split; [reflexivity|]. unfold bindingsOf, deref. simpl.
  split; [|split; [reflexivity|apply length_alter]].
  rewrite list_lookup_alter. case_decide; [|done].
  destruct (store m !! values m) eqn:E; [reflexivity|].
  apply lookup_ge_None in E. unfold wf in Hwf. lia.
Qed.

End RunState.

(** ** The empty pattern list, call expressions, expression statements *)

Section Direct.
Context `{Collaborators}.
Variable info : Z -> varInfo.

(** C1 (as amended): an empty pattern list matches an empty candidate
    list, and the result is that candidate list; against a candidate list
    that is not empty the sequence matcher returns nil, in partial mode as
    well as outside it.  Nothing else happens: the matcher state is the
    one it started from. *)
Theorem nodes_empty_pattern rec fuel k ns2 partial m :
  nodes info rec fuel (NodeList k []) ns2 partial m
  = Ret (if bool_decide (len ns2 = 0%nat) then Some (listNode ns2) else None) m.
Proof.
  unfold nodes. simpl. case_bool_decide; reflexivity.
Qed.

Lemma callExpr_step fuel f args e f' args' e' m :
  node info (S fuel) (Some (CallExpr f args e)) (Some (CallExpr f' args' e')) m
  = (node info fuel (Some f) (Some f')
     &&& exprs info (node info fuel) fuel args args'
     &&& ret (bothValid e e')) m.
Proof. rewrite node_some. reflexivity. Qed.

(** C10: a call pattern matches a candidate call only if the function
    matches, the argument lists match and both calls have, or both lack,
    the variadic marker; a pattern call without it never matches a call
    with it. *)
Theorem callExpr_ellipsis fuel f args e f' args' e' m :
  node info (S fuel) (Some (CallExpr f args e)) (Some (CallExpr f' args' e')) m
  = (node info fuel (Some f) (Some f')
     &&& exprs info (node info fuel) fuel args args'
     &&& ret (bothValid e e')) m
  /\ (forall k m', node info k (Some (CallExpr f args e))
                     (Some (CallExpr f' args' e')) m = Ret true m' ->
        IsValid e = IsValid e')
  /\ (IsValid e = false -> IsValid e' = true ->
      forall k m', node info k (Some (CallExpr f args e))
                     (Some (CallExpr f' args' e')) m <> Ret true m').
Proof.
  assert (V : forall k m', node info k (Some (CallExpr f args e))
                (Some (CallExpr f' args' e')) m = Ret true m' ->
              IsValid e = IsValid e').
  { intros [|k] m'; [discriminate|]. rewrite callExpr_step. intros Hm.
    apply andM_true in Hm as (m1 & _ & Hv).
    unfold ret, bothValid in Hv. injection Hv as Hv _.
    apply bool_decide_eq_true in Hv. exact Hv. }
  split; [apply callExpr_step|]. split; [exact V|].
  intros H1 H2 k m' Hm. apply V in Hm. congruence.
Qed.

Lemma exprStmt_wild_step fuel w cand m :
  isWildName w = true ->
  node info (S fuel) (Some (ExprStmt (Ident w))) (Some cand) m
  = (reseatScope (Some cand) ;; node info fuel (Some (Ident w)) (Some cand)) m.
Proof.
  intros Hw. rewrite node_some. unfold bind.
  destruct (reseatScope_run (Some cand) m) as [sc ->]. simpl.
  rewrite Hw. reflexivity.
Qed.

Lemma exprStmt_plain_step fuel x cand m :
  isWildIdent x = false ->
  node info (S fuel) (Some (ExprStmt x)) (Some cand) m
  = (reseatScope (Some cand) ;;
     match cand with
     | ExprStmt y => node info fuel (Some x) (Some y)
     | _ => ret false
     end) m.
Proof.
  intros Hx. rewrite node_some. unfold bind.
  destruct (reseatScope_run (Some cand) m) as [sc ->]. simpl.
  destruct x; simpl in Hx; try rewrite Hx; destruct cand; reflexivity.
Qed.

(* a first occurrence of an unconstrained named wildcard records the
   candidate *)
Lemma wildcard_first fuel w n cand m :
  isWildName w = true -> info (fromWildName w) = plainVar n -> n <> "_" ->
  wf m -> bindingsOf m !! n = None ->
  exists m', node info (S fuel) (Some (Ident w)) (Some cand) m = Ret true m'
             /\ bindingsOf m' = <[n:=cand]> (bindingsOf m).
Proof.
  intros Hw Hinfo Hn Hwf Hnone.
  rewrite node_some. unfold bind at 1.
  destruct (reseatScope_run (Some cand) m) as [sc ->].
  simpl. unfold identCase. rewrite Hw, Hinfo. simpl.
  rewrite bool_decide_eq_false_2 by exact Hn.
  rewrite bind_ret_l. simpl. rewrite bind_lookupValue. unfold bindingsOf in *. cbn [store values]. rewrite Hnone.
  destruct (storeValue_bindings n cand (Matcher (store m) (values m) sc (aggressive m)))
    as (m' & Hs & Hb & _); [exact Hwf|].
  unfold bind. rewrite Hs. eexists; split; [reflexivity|exact Hb].
Qed.

(** C9: an expression statement whose expression is a wildcard
    identifier is matched as that wildcard against the whole candidate, so
    an unconstrained $x in statement position matches and captures a
    candidate of any kind; any other expression-statement pattern matches
    only an expression statement, expression against expression. *)
Theorem exprStmt_wildcard fuel cand m :
  (forall w, isWildName w = true ->
     node info (S fuel) (Some (ExprStmt (Ident w))) (Some cand) m
     = (reseatScope (Some cand) ;; node info fuel (Some (Ident w)) (Some cand)) m)
  /\ (forall w n, isWildName w = true -> info (fromWildName w) = plainVar n ->
        n <> "_" -> wf m -> bindingsOf m !! n = None ->
        exists m', node info (S (S fuel)) (Some (ExprStmt (Ident w))) (Some cand) m
                   = Ret true m'
                   /\ bindingsOf m' = <[n:=cand]> (bindingsOf m))
  /\ (forall x, isWildIdent x = false ->
        node info (S fuel) (Some (ExprStmt x)) (Some cand) m
        = (reseatScope (Some cand) ;;
           match cand with
           | ExprStmt y => node info fuel (Some x) (Some y)
           | _ => ret false
           end) m)
  /\ (forall x, isWildIdent x = false -> isExprStmt cand = false ->
        forall b m', node info (S fuel) (Some (ExprStmt x)) (Some cand) m = Ret b m'
                     -> b = false).
Proof.
  split; [intros; by apply exprStmt_wild_step|].
  split; [|split; [intros; by apply exprStmt_plain_step|]].
  - intros w n Hw Hinfo Hn Hwf Hnone.
    rewrite (exprStmt_wild_step _ w) by exact Hw. unfold bind at 1.
    destruct (reseatScope_run (Some cand) m) as [sc ->].
    destruct (wildcard_first fuel w n cand
                (Matcher (store m) (values m) sc (aggressive m)))
      as (m' & E & Hb); try assumption.
    exists m'. split; [exact E|exact Hb].
  - intros x Hx Hc b m' Hr. rewrite exprStmt_plain_step in Hr by exact Hx.
    apply bind_inv in Hr as (? & m1 & _ & Hr).
    destruct cand; simpl in Hc; try discriminate; unfold ret in Hr; congruence.
Qed.
End Direct.

(** ** Type constraint resolution *)

Section Faults.
Context `{Collaborators}.
Variable info : Z -> varInfo.

Lemma reseatScope_reseated node_ m :
  reseatScope node_ m = Ret tt (reseated node_ m).
Proof.
  unfold reseatScope, reseated. destruct node_ as [n|]; [|destruct m; reflexivity].
  destruct (opensScope (Some n)); [reflexivity|destruct m; reflexivity].
Qed.

Lemma resetValues_run m :
  resetValues m
  = Ret tt (Matcher (store m ++ [∅]) (length (store m)) (scope m) (aggressive m)).
Proof. reflexivity. Qed.

Lemma typeChecks_fatal t pre tc rest m f :
  forallb (passes (scope m) t) pre = true ->
  resolveType (scope m) (expr tc) = Fatal f ->
  typeChecks t (pre ++ tc :: rest) m = Panic f.
Proof.
  induction pre as [|p pre IH]; intros Hpre Hf; simpl.
  - unfold bind, getScope. rewrite Hf. reflexivity.
  - simpl in Hpre. apply andb_true_iff in Hpre as [Hp Hpre].
    unfold passes in Hp. unfold bind, getScope.
    destruct (resolveType (scope m) (expr p)); [|discriminate].
    apply andb_true_iff in Hp as [Hp H3]. apply andb_true_iff in Hp as [H1 H2].
    apply negb_true_iff in H1, H2, H3. rewrite H1, H2, H3.
    apply IH; assumption.
Qed.

Lemma wildcard_fatal fuel w cand t pre tc rest m f :
  isWildName w = true ->
  reachesTypeChecks (info (fromWildName w)) cand t ->
  types (info (fromWildName w)) = pre ++ tc :: rest ->
  forallb (passes (scope (reseated (Some cand) m)) t) pre = true ->
  resolveType (scope (reseated (Some cand) m)) (expr tc) = Fatal f ->
  node info (S fuel) (Some (Ident w)) (Some cand) m = Panic f.
Proof.
  intros Hw (Hany & Hrx & Hneed & Hexpr & Hty & Hcomp) Htypes Hpre Hf.
  rewrite node_some. unfold bind at 1. rewrite reseatScope_reseated.
  cbn [node_switch]. unfold identCase. rewrite Hw. cbn [negb]. cbv zeta.
  rewrite Hany, Hrx, Hneed. cbn [negb]. rewrite Hexpr, Hty. cbn [negb].
  assert (Hc : comp (info (fromWildName w)) && negb (Comparable t) = false).
  { destruct (comp (info (fromWildName w))); [|reflexivity].
    rewrite Hcomp by reflexivity. reflexivity. }
  rewrite Hc, Htypes.
  apply bind_panic. apply typeChecks_fatal; assumption.
Qed.

Lemma topNode_panic fuel p c m f :
  node info fuel (Some p) (Some c) m = Panic f ->
  (forall l1 l2, p = stmtList l1 -> c = stmtList l2 -> False) ->
  topNode info fuel p c m = Panic f.
Proof.
  intros Hn Hl. unfold topNode.
  destruct p; try (apply bind_panic; exact Hn).
  destruct c; try (apply bind_panic; exact Hn).
  exfalso. eapply Hl; reflexivity.
Qed.

(** C8: resolving a type constraint whose array length is not a literal
    integer, or whose shape has no case, is a panic: [resolveType] yields
    a fault, the fault of a component is the fault of the whole, and a
    wildcard whose constraint faults makes the node matcher, the top-level
    attempt and both kinds of stage end in that panic.  None of them
    returns false for it. *)
Theorem resolveType_faults_are_fatal :
  (* an array length that is not a literal integer *)
  (forall sc len elt, isIntLit len = false ->
     exists f, resolveType sc (ArrayType (Some len) elt) = Fatal f)
  /\ (forall sc len elt t, isIntLit len = false ->
        resolveType sc elt = Resolved t ->
        resolveType sc (ArrayType (Some len) elt)
        = Fatal (ArrayLenTODO (ArrayType (Some len) elt)))
  (* a shape without a case *)
  /\ (forall sc e, supportedTypeExpr e = false ->
        resolveType sc e = Fatal (ResolveTypeTODO (Some e)))
  (* a fault below a pointer or an array type is the fault of the whole *)
  /\ (forall sc x f, resolveType sc x = Fatal f ->
        resolveType sc (StarExpr x) = Fatal f
        /\ forall len, resolveType sc (ArrayType len x) = Fatal f)
  (* the node matcher panics with the fault, it does not return false,
     and so do the top-level attempt and the stages *)
  /\ (forall fuel w cand t pre tc rest m f,
        isWildName w = true ->
        reachesTypeChecks (info (fromWildName w)) cand t ->
        types (info (fromWildName w)) = pre ++ tc :: rest ->
        forallb (passes (scope (reseated (Some cand) m)) t) pre = true ->
        resolveType (scope (reseated (Some cand) m)) (expr tc) = Fatal f ->
        node info (S fuel) (Some (Ident w)) (Some cand) m = Panic f
        /\ topNode info (S fuel) (Ident w) cand m = Panic f
        /\ (forall acc, rangeMatch info (S fuel) acc (Ident w) (Some cand) m
                        = Panic f)
        /\ (forall a, filterMatch info (S fuel) a (Ident w) (Some cand) m
                      = Panic f)).
Proof.
  assert (A : forall sc len elt t, isIntLit len = false ->
        resolveType sc elt = Resolved t ->
        resolveType sc (ArrayType (Some len) elt)
        = Fatal (ArrayLenTODO (ArrayType (Some len) elt))).
  { intros sc len elt t Hl Ht. simpl. rewrite Ht.
    destruct len; try reflexivity. simpl in Hl.
    apply bool_decide_eq_false in Hl.
    rewrite bool_decide_eq_true_2 by exact Hl. reflexivity. }
  split; [|split; [exact A|split; [|split]]].
  - intros sc len elt Hl.
    destruct (resolveType sc elt) as [t|f] eqn:E.
    + eexists. apply (A sc len elt t Hl E).
    + exists f. simpl. rewrite E. reflexivity.
  - intros sc e He. destruct e; try discriminate; reflexivity.
  - intros sc x f Hf. split; [|intros len]; simpl; rewrite Hf; reflexivity.
  - intros fuel w cand t pre tc rest m f Hw Hr Ht Hpre Hf.
    assert (T : forall m0, scope m0 = scope m ->
                topNode info (S fuel) (Ident w) cand m0 = Panic f).
    { intros m0 Hs. apply topNode_panic; [|discriminate].
      eapply wildcard_fatal; try eassumption;
        unfold reseated in *; cbn [scope] in *; rewrite Hs; assumption. }
    split; [eapply wildcard_fatal; eassumption|].
    split; [apply T; reflexivity|]. split.
    + intros acc. unfold rangeMatch.
      rewrite (bind_ret _ _ _ _ _ (resetValues_run m)).
      apply bind_panic. apply T. reflexivity.
    + intros a. unfold filterMatch.
      rewrite (bind_ret _ _ _ _ _ (resetValues_run m)).
      apply bind_panic. apply T. reflexivity.
Qed.
End Faults.

(** ** The filter stages *)

Section Filter.
Context `{Collaborators}.
Variable info : Z -> varInfo.
Variable fuel : nat.

Lemma select_complement ns bs :
  length bs = length ns ->
  select true ns bs ++ select false ns bs ≡ₚ ns.
Proof.
  revert bs. induction ns as [|n ns IH]; intros [|b bs] Hl; try discriminate.
  - reflexivity.
  - simpl in *. injection Hl as Hl. specialize (IH bs Hl).
    destruct b; simpl.
    + by rewrite IH.
    + rewrite <- Permutation_middle. by rewrite IH.
Qed.

Lemma select_sublist want ns bs : select want ns bs `sublist_of` ns.
Proof.
  revert bs. induction ns as [|n ns IH]; intros [|b bs]; simpl;
    try apply sublist_nil_l.
  case_bool_decide; [apply sublist_skip|apply sublist_cons]; apply IH.
Qed.

(* the loop of cmdFilter from any value of the variable matches *)
Lemma cmdFilter_loop want cmd ns acc m :
  forEach (fun matches_ n =>
             let* any_ := walkWithLists (filterMatch info fuel) (cmd_node cmd)
                            n false in
             if bool_decide (any_ = want) then ret (matches_ ++ [n])
             else ret matches_) ns acc m
  = (let* bs := anyFlags info fuel cmd ns in ret (acc ++ select want ns bs)) m.
Proof.
  revert acc m. induction ns as [|n ns IH]; intros acc m.
  - simpl. rewrite bind_ret_l, app_nil_r. reflexivity.
  - cbn [forEach anyFlags]. unfold anyInside, bind, ret in *.
    destruct (walkWithLists _ _ _ _ m) as [b m1| |]; try reflexivity.
    case_bool_decide as Hb; rewrite IH;
      (destruct (anyFlags info fuel cmd ns m1) as [bs m2| |]; try reflexivity);
      simpl.
    + rewrite bool_decide_eq_true_2 by exact Hb. by rewrite <- app_assoc.
    + rewrite bool_decide_eq_false_2 by exact Hb. reflexivity.
Qed.

Lemma anyFlags_length cmd ns m bs m' :
  anyFlags info fuel cmd ns m = Ret bs m' -> length bs = length ns.
Proof.
  revert m bs m'. induction ns as [|n ns IH]; intros m bs m' Hr.
  - injection Hr as <- _. reflexivity.
  - simpl in Hr. apply bind_inv in Hr as (b & m1 & _ & Hr).
    apply bind_inv in Hr as (bs' & m2 & Hbs & Hr).
    injection Hr as <- _. simpl. f_equal. eauto.
Qed.

End Filter.

(** ** The range stage *)

Section Sim.
Context `{Collaborators}.

Lemma sim_bind {A B A' B'} (R : A -> B -> Prop) (R' : A' -> B' -> Prop)
    (c1 : M A) (c2 : M B) k1 k2 m :
  sim R (c1 m) (c2 m) ->
  (forall a b m', R a b -> sim R' (k1 a m') (k2 b m')) ->
  sim R' (bind c1 k1 m) (bind c2 k2 m).
Proof.
  unfold bind, sim at 1. intros Hc Hk.
  destruct (c1 m), (c2 m); try contradiction; try exact Hc.
  destruct Hc as [Hr <-]. by apply Hk.
Qed.

Lemma sim_same {A B C} (R : A -> B -> Prop) (c : M C) k1 k2 m :
  (forall x m', sim R (k1 x m') (k2 x m')) ->
  sim R (bind c k1 m) (bind c k2 m).
Proof.
  unfold bind. intros Hk. destruct (c m); simpl; auto.
Qed.

Lemma sim_ret {A B} (R : A -> B -> Prop) a b m : R a b -> sim R (ret a m) (ret b m).
Proof. by split. Qed.

Lemma forEach_sim {A B X} (R : A -> B -> Prop) (f1 : A -> X -> M A)
    (f2 : B -> X -> M B) l :
  (forall a b x m, R a b -> sim R (f1 a x m) (f2 b x m)) ->
  forall a b m, R a b -> sim R (forEach f1 l a m) (forEach f2 l b m).
Proof.
  intros Hf. induction l as [|x l IH]; intros a b m Hr; simpl.
  - by apply sim_ret.
  - eapply sim_bind; [by apply Hf|]. intros. by apply IH.
Qed.

Section Walk.
Context {A B : Type} (R : A -> B -> Prop).
Variable fn1 : A -> Node -> option Node -> M A.
Variable fn2 : B -> Node -> option Node -> M B.
Hypothesis fn_sim :
  forall a b e n m, R a b -> sim R (fn1 a e n m) (fn2 b e n m).

Lemma visit_sim e a b n m :
  R a b -> sim R (visit fn1 e a n m) (visit fn2 e b n m).
Proof.
  intros Hr. unfold visit. eapply sim_bind; [by apply fn_sim|].
  intros a' b' m' Hr'. apply forEach_sim; [|exact Hr'].
  intros. by apply fn_sim.
Qed.

Lemma inspect_sim e a b n m :
  R a b -> sim R (inspect fn1 e a n m) (inspect fn2 e b n m).
Proof.
  intros Hr. unfold inspect. eapply sim_bind.
  - apply forEach_sim; [|exact Hr]. intros. by apply visit_sim.
  - intros a' b' m' Hr'. destruct (snd (Inspect n)); [reflexivity|by apply sim_ret].
Qed.

Lemma walkWithLists_sim e n a b m :
  R a b -> sim R (walkWithLists fn1 e n a m) (walkWithLists fn2 e n b m).
Proof.
  intros Hr. unfold walkWithLists.
  destruct (asNodeList n) as [l|]; [|by apply inspect_sim].
  eapply sim_bind.
  { destruct (isExpr e); [|by apply sim_ret].
    eapply sim_bind; [by apply fn_sim|]. intros. by apply fn_sim. }
  intros a1 b1 m1 Hr1. eapply sim_bind; [by apply fn_sim|].
  intros a2 b2 m2 Hr2. apply forEach_sim; [|exact Hr2].
  intros. by apply inspect_sim.
Qed.
End Walk.
End Sim.

Section Range.
Context `{Collaborators}.
Variable info : Z -> varInfo.
Variable fuel : nat.

Lemma firstBySpan_snoc seen l n p :
  firstBySpan seen (l ++ [(n, p)])
  = firstBySpan seen l
    ++ (if bool_decide (p ∈ seen ++ l.*2) then [] else [(n, p)]).
Proof.
  revert seen. induction l as [|[n0 p0] l IH]; intros seen; simpl.
  - rewrite app_nil_r. by case_bool_decide.
  - case_bool_decide as Hs.
    + rewrite IH. f_equal.
      rewrite (bool_decide_ext (p ∈ seen ++ l.*2) (p ∈ seen ++ p0 :: l.*2));
        [reflexivity|set_solver].
    + simpl. rewrite IH. do 2 f_equal.
      rewrite (bool_decide_ext (p ∈ (p0 :: seen) ++ l.*2)
                 (p ∈ seen ++ p0 :: l.*2)); [reflexivity|set_solver].
Qed.

Lemma firstBySpan_elem seen l n p :
  (n, p) ∈ firstBySpan seen l
  <-> exists i, l !! i = Some (n, p) /\ (p ∉ seen) /\ (p ∉ (take i l).*2).
Proof.
  revert seen. induction l as [|[n0 p0] l IH]; intros seen; simpl.
  - split; [by intros ?%elem_of_nil|by intros (i & ? & _)].
  - case_bool_decide as Hs.
    + rewrite IH. split.
      * intros (i & Hi & H1 & H2). exists (S i). simpl.
        split_and!; [done|done|]. set_solver.
      * intros ([|i] & Hi & H1 & H2); simpl in *.
        { injection Hi as -> ->. contradiction. }
        exists i. set_solver.
    + rewrite elem_of_cons, IH. split.
      * intros [E|(i & Hi & H1 & H2)].
        { injection E as -> ->. exists 0%nat. simpl. set_solver. }
        exists (S i). simpl. set_solver.
      * intros ([|i] & Hi & H1 & H2); simpl in *.
        { left. congruence. }
        right. exists i. set_solver.
Qed.

Lemma firstBySpan_NoDup seen l :
  NoDup (firstBySpan seen l).*2
  /\ forall p, p ∈ (firstBySpan seen l).*2 -> p ∉ seen.
Proof.
  revert seen. induction l as [|[n0 p0] l IH]; intros seen; simpl.
  - split; [constructor|set_solver].
  - case_bool_decide as Hs; [apply IH|].
    destruct (IH (p0 :: seen)) as [Hn Hd]. simpl. split.
    + constructor; [|exact Hn]. intros Hin. apply Hd in Hin. set_solver.
    + intros p [->|Hp]%elem_of_cons; [exact Hs|]. apply Hd in Hp. set_solver.
Qed.

Lemma firstBySpan_sublist seen l : firstBySpan seen l `sublist_of` l.
Proof.
  revert seen. induction l as [|[n0 p0] l IH]; intros seen; simpl.
  - constructor.
  - case_bool_decide; [apply sublist_cons|apply sublist_skip]; apply IH.
Qed.

Lemma firstBySpan_spans seen l p :
  p ∈ l.*2 -> p ∉ seen -> p ∈ (firstBySpan seen l).*2.
Proof.
  revert seen. induction l as [|[n0 p0] l IH]; intros seen; simpl.
  - by intros ?%elem_of_nil.
  - intros Hin Hs. case_bool_decide as Hs0.
    + apply IH; [|exact Hs]. set_solver.
    + simpl. destruct (decide (p = p0)) as [->|Hne]; [set_solver|].
      apply elem_of_cons. right. apply IH; set_solver.
Qed.

Lemma rangeMatch_sim acc ds e n m :
  rangeInv acc ds ->
  sim rangeInv (rangeMatch info fuel acc e n m) (discoverMatch info fuel ds e n m).
Proof.
  intros Hr. unfold rangeMatch, discoverMatch.
  destruct n as [n|]; [|by apply sim_ret].
  apply sim_same. intros _ m1. apply sim_same. intros [found|] m2;
    [|by apply sim_ret].
  apply sim_same. intros p m3. apply sim_same. intros e' m4.
  destruct Hr as [Hm Hs].
  destruct (default false (acc.2 !! (p, e'))) eqn:Hseen; simpl.
  - apply sim_ret. split.
    + rewrite firstBySpan_snoc, bool_decide_eq_true_2, app_nil_r; [exact Hm|].
      simpl. by apply Hs.
    + intros q. rewrite fmap_app, elem_of_app, <- Hs. simpl.
      split; [tauto|]. intros [?|Hq]; [done|].
      apply list_elem_of_singleton in Hq as ->. exact Hseen.
  - apply sim_ret. split.
    + simpl. rewrite firstBySpan_snoc, bool_decide_eq_false_2.
      * rewrite fmap_app, Hm. reflexivity.
      * simpl. rewrite <- Hs. congruence.
    + intros q. simpl. rewrite fmap_app, elem_of_app, <- Hs. simpl.
      rewrite list_elem_of_singleton.
      destruct (decide (q = (p, e'))) as [->|Hne].
      * rewrite lookup_insert_eq. simpl. tauto.
      * rewrite lookup_insert_ne by congruence. tauto.
Qed.

End Range.

(** ** Later states: what a call of the matcher leaves alone *)

Section Frame.
Context `{Collaborators}.

Lemma extends_refl m : wf m -> extends m m.
Proof. intros Hwf. unfold extends. split_and!; auto. Qed.

Lemma extends_trans m1 m2 m3 : extends m1 m2 -> extends m2 m3 -> extends m1 m3.
Proof.
  intros (W2 & L2 & V2 & A2 & S2) (W3 & L3 & V3 & A3 & S3).
  unfold extends, wf in *. split; [exact W3|]. split; [lia|].
  split; [|split; [congruence|]].
  - destruct V3 as [E|?]; [rewrite E; exact V2|right; lia].
  - intros r Hr Hne. rewrite S3; [by apply S2|lia|].
    destruct V2 as [E|?]; [rewrite E; exact Hne|lia].
Qed.

Lemma extends_keep m m' r :
  extends m m' -> (r < length (store m))%nat -> r <> values m ->
  deref (store m') r = deref (store m) r /\ r <> values m'
  /\ (r < length (store m'))%nat.
Proof.
  intros (W & L & V & A & S) Hr Hne. unfold deref. rewrite S by assumption.
  split_and!; [reflexivity| |lia]. destruct V as [E|?]; [rewrite E; exact Hne|lia].
Qed.

Lemma framed_ret {A} (a : A) : framed (ret a).
Proof. intros m a' m' Hwf [= _ <-]. by apply extends_refl. Qed.

Lemma framed_panic {A} f : framed (@panic _ A f).
Proof. intros m a' m' Hwf [=]. Qed.

Lemma framed_nofuel {A} : framed (fun _ => NoFuel : outcome matcher A).
Proof. intros m a' m' Hwf [=]. Qed.

Lemma framed_bind {A B} (c : M A) (k : A -> M B) :
  framed c -> (forall a, framed (k a)) -> framed (bind c k).
Proof.
  intros Hc Hk m b m' Hwf Hr. apply bind_inv in Hr as (a & m1 & H1 & H2).
  pose proof (Hc _ _ _ Hwf H1) as E1.
  eapply extends_trans; [exact E1|]. eapply Hk; [|exact H2]. apply E1.
Qed.

Lemma framed_andM a b : framed a -> framed b -> framed (andM a b).
Proof.
  intros Ha Hb. apply framed_bind; [exact Ha|].
  intros [|]; [exact Hb|apply framed_ret].
Qed.

Lemma framed_orM a b : framed a -> framed b -> framed (orM a b).
Proof.
  intros Ha Hb. apply framed_bind; [exact Ha|].
  intros [|]; [apply framed_ret|exact Hb].
Qed.

Lemma framed_if {A} (b : bool) (c1 c2 : M A) :
  framed c1 -> framed c2 -> framed (if b then c1 else c2).
Proof. by destruct b. Qed.

Lemma framed_lookupValue k : framed (lookupValue k).
Proof. intros m a m' Hwf [= _ <-]. by apply extends_refl. Qed.

Lemma framed_getScope : framed getScope.
Proof. intros m a m' Hwf [= _ <-]. by apply extends_refl. Qed.

Lemma framed_getAggressive : framed getAggressive.
Proof. intros m a m' Hwf [= _ <-]. by apply extends_refl. Qed.

Lemma framed_getBindings : framed getBindings.
Proof. intros m a m' Hwf [= _ <-]. by apply extends_refl. Qed.

Lemma framed_setScope sc : framed (setScope sc).
Proof.
  intros m a m' Hwf [= _ <-]. unfold extends, wf in *. simpl. split_and!; auto.
Qed.

Lemma framed_storeValue k n : framed (storeValue k n).
Proof.
  intros m a m' Hwf [= _ <-]. unfold extends, wf in *. simpl.
  rewrite length_alter. split_and!; auto.
  intros r Hr Hne. by rewrite list_lookup_alter_ne.
Qed.

Lemma framed_newMap b : framed (newMap b).
Proof.
  intros m a m' Hwf [= _ <-]. unfold extends, wf in *. simpl.
  rewrite length_app. simpl. split_and!; auto; try lia.
  intros r Hr Hne. by rewrite lookup_app_l.
Qed.

Lemma framed_reseatScope n : framed (reseatScope n).
Proof.
  unfold reseatScope. destruct n; [|apply framed_ret].
  apply framed_if; [apply framed_setScope|apply framed_ret].
Qed.

Lemma framed_at l i : framed (at_ l i).
Proof. unfold at_. destruct (_ !! _); [apply framed_ret|apply framed_panic]. Qed.

Lemma framed_slice l i j : framed (slice l i j).
Proof. unfold slice. apply framed_if; [apply framed_ret|apply framed_panic]. Qed.

Lemma framed_resetValues_then {A} (c : M A) :
  framed c -> framed (resetValues ;; c).
Proof.
  intros Hc m a m' Hwf Hr.
  rewrite (bind_ret _ _ _ _ _ (resetValues_run m)) in Hr.
  set (m1 := Matcher (store m ++ [∅]) (length (store m)) (scope m) (aggressive m)) in *.
  assert (E1 : extends m m1).
  { unfold extends, wf, m1. simpl. rewrite length_app. simpl.
    split_and!; auto; try lia. intros r Hr' _. by rewrite lookup_app_l. }
  eapply extends_trans; [exact E1|]. eapply Hc; [apply E1|exact Hr].
Qed.

Section NodesFrame.
Variable info : Z -> varInfo.
Variable rec : option Node -> option Node -> M bool.
Variable fuel : nat.
Hypothesis rec_framed : forall e n, framed (rec e n).
Variables ns1 ns2 : nodeList.
Variable partial : bool.

Local Abbreviation wouldMatch' := (wouldMatch rec ns2).
Local Abbreviation tryPattern' := (tryPattern info rec ns1 ns2 partial).
Local Abbreviation mismatch' := (mismatch ns1 ns2 partial).
Local Abbreviation loopBody' := (loopBody info rec ns1 ns2 partial).
Local Abbreviation loop' := (loop info rec ns1 ns2 partial).

Lemma framed_wouldMatch s : framed (wouldMatch' s).
Proof.
  unfold wouldMatch. apply framed_if; [apply framed_ret|].
  apply framed_bind; [apply framed_slice|]. intros l.
  apply framed_bind; [apply framed_lookupValue|]. intros prev.
  apply framed_bind.
  { destruct prev; [|apply framed_ret].
    apply framed_bind; [apply rec_framed|]. intros; apply framed_ret. }
  intros bad. apply framed_if; [apply framed_ret|].
  apply framed_bind; [apply framed_storeValue|]. intros; apply framed_ret.
Qed.

Lemma loopFrame_framed {A} m0 s m (c : M A) a m' :
  framed c -> loopFrame m0 s m -> c m = Ret a m' -> loopFrame m0 s m'.
Proof.
  intros Hc [He Ho] Hr. assert (E : extends m m') by (eapply Hc; [apply He|exact Hr]).
  split; [by eapply extends_trans|]. destruct E as (_ & L & _). lia.
Qed.

Lemma loopFrame_fields m0 s s' m :
  oldMatches s' = oldMatches s -> loopFrame m0 s m -> loopFrame m0 s' m.
Proof. unfold loopFrame. by intros ->. Qed.

Lemma backupMatches_run s m :
  backupMatches s m
  = Ret (set_oldMatches (length (store m)) s)
        (Matcher (store m ++ [bindingsOf m]) (values m) (scope m) (aggressive m)).
Proof. reflexivity. Qed.

Lemma backupMatches_frame m0 s m s' m' :
  extends m0 m -> backupMatches s m = Ret s' m' -> loopFrame m0 s' m'.
Proof.
  intros He Hr. rewrite backupMatches_run in Hr. injection Hr as <- <-.
  assert (E : extends m (Matcher (store m ++ [bindingsOf m]) (values m) (scope m) (aggressive m))).
  { eapply (framed_newMap (bindingsOf m)); [apply He|reflexivity]. }
  split; [by eapply extends_trans|]. simpl. rewrite length_app. simpl.
  destruct He as (_ & L & _). lia.
Qed.

Lemma tryPattern_frame m0 s m r m' :
  loopFrame m0 s m -> tryPattern' s m = Ret r m' ->
  loopFrame m0 (match r with inl s' | inr s' => s' end) m'.
Proof.
  intros Hl Hr. unfold tryPattern in Hr.
  destruct (negb _); [injection Hr as <- <-; exact Hl|].
  apply bind_inv in Hr as (n1 & m1 & Hat & Hr).
  pose proof (loopFrame_framed _ _ _ _ _ _ (framed_at _ _) Hl Hat) as Hl1.
  destruct (any (info (fromWildNode n1))).
  - apply bind_inv in Hr as (s1 & m2 & Hb & Hr). injection Hr as <- <-.
    eapply loopFrame_fields; [|eapply backupMatches_frame; [apply Hl1|exact Hb]].
    reflexivity.
  - apply bind_inv in Hr as (s1 & m2 & Hb & Hr).
    assert (Hl2 : loopFrame m0 s1 m2).
    { destruct (partial && bool_decide (i1 s = 0%nat)).
      - eapply backupMatches_frame; [apply Hl1|exact Hb].
      - injection Hb as <- <-. exact Hl1. }
    apply bind_inv in Hr as (ok & m3 & Hok & Hr).
    assert (Hl3 : loopFrame m0 s1 m3).
    { eapply loopFrame_framed; [|exact Hl2|exact Hok].
      apply framed_andM; [apply framed_andM; [apply framed_ret|apply framed_wouldMatch]|].
      apply framed_bind; [apply framed_at|]. intros; apply rec_framed. }
    destruct ok; injection Hr as <- <-; [|exact Hl3].
    eapply loopFrame_fields; [|exact Hl3]. reflexivity.
Qed.

Lemma mismatch_frame m0 s m c m' :
  loopFrame m0 s m -> mismatch' s m = Ret c m' ->
  match c with
  | Continue s' | Break s' => loopFrame m0 s' m'
  | ReturnNil => extends m0 m'
  end.
Proof.
  intros Hl Hr. unfold mismatch in Hr.
  destruct (atPartialEnd ns1 partial s).
  { injection Hr as <- <-. eapply loopFrame_fields; [|exact Hl]. reflexivity. }
  destruct (canRestart ns2 s).
  - injection Hr as <- <-. destruct Hl as [(W & L & V & A & S) Ho].
    split; [|simpl; exact Ho].
    unfold extends, wf. simpl. split_and!; auto; try lia.
  - injection Hr as <- <-. apply Hl.
Qed.

Lemma loopBody_frame m0 s m c m' :
  loopFrame m0 s m -> loopBody' s m = Ret c m' ->
  match c with
  | Continue s' | Break s' => loopFrame m0 s' m'
  | ReturnNil => extends m0 m'
  end.
Proof.
  intros Hl Hr. unfold loopBody in Hr.
  apply bind_inv in Hr as (r & m1 & Ht & Hr).
  assert (Hl1 : loopFrame m0 (match r with inl s' | inr s' => s' end) m1)
    by (eapply tryPattern_frame; eassumption).
  destruct r as [s1|s1]; [injection Hr as <- <-; exact Hl1|].
  eapply mismatch_frame; eassumption.
Qed.

Lemma loop_frame k m0 s m r m' :
  loopFrame m0 s m -> loop' k s m = Ret r m' ->
  match r with
  | Some s' => loopFrame m0 s' m'
  | None => extends m0 m'
  end.
Proof.
  revert s m. induction k as [|k IH]; intros s m Hl Hr; [discriminate|].
  simpl in Hr. destruct (_ || _); [|injection Hr as <- <-; exact Hl].
  apply bind_inv in Hr as (c & m1 & Hb & Hr).
  pose proof (loopBody_frame _ _ _ _ _ Hl Hb) as Hc.
  destruct c as [s1|s1|]; [eapply IH; eassumption| |];
    injection Hr as <- <-; exact Hc.
Qed.

Lemma framed_nodes : framed (nodes info rec fuel ns1 ns2 partial).
Proof.
  intros m r m' Hwf Hr. unfold nodes in Hr.
  destruct (bool_decide (len ns1 = 0%nat)).
  { destruct (bool_decide (len ns2 = 0%nat)); injection Hr as _ <-;
      by apply extends_refl. }
  apply bind_inv in Hr as (s & m1 & Hb & Hr).
  pose proof (backupMatches_frame m _ _ _ _ (extends_refl _ Hwf) Hb) as Hl.
  apply bind_inv in Hr as (o & m2 & Hloop & Hr).
  pose proof (loop_frame _ _ _ _ _ _ Hl Hloop) as Ho.
  destruct o as [s'|]; [|injection Hr as _ <-; exact Ho].
  eapply (loopFrame_framed m s' m2); [|exact Ho|exact Hr].
  apply framed_bind; [apply framed_wouldMatch|]. intros w.
  apply framed_if; [apply framed_ret|].
  apply framed_bind; [apply framed_slice|]. intros; apply framed_ret.
Qed.

End NodesFrame.
Section NodeFrame.
Variable info : Z -> varInfo.

Section Body.
Variable rec : option Node -> option Node -> M bool.
Variable fuel : nat.
Hypothesis rec_framed : forall e n, framed (rec e n).

Ltac framed_step :=
  match goal with
  | |- framed (ret _) => apply framed_ret
  | |- framed (panic _) => apply framed_panic
  | |- framed (rec _ _) => apply rec_framed
  | |- framed (lookupValue _) => apply framed_lookupValue
  | |- framed (storeValue _ _) => apply framed_storeValue
  | |- framed getScope => apply framed_getScope
  | |- framed getAggressive => apply framed_getAggressive
  | |- framed (reseatScope _) => apply framed_reseatScope
  | |- framed (nodes _ _ _ _ _ _) => apply framed_nodes; exact rec_framed
  | |- framed (andM _ _) => apply framed_andM
  | |- framed (orM _ _) => apply framed_orM
  | |- framed (bind _ _) => apply framed_bind
  | |- framed (if _ then _ else _) => apply framed_if
  | |- framed (match ?x with _ => _ end) => destruct x
  | |- forall _, _ => intro
  end.

Lemma framed_notNil c : framed c -> framed (notNil c).
Proof. intros Hc. unfold notNil. repeat framed_step. exact Hc. Qed.

Lemma framed_exprs l1 l2 : framed (exprs info rec fuel l1 l2).
Proof. apply framed_notNil, framed_nodes, rec_framed. Qed.
Lemma framed_idents l1 l2 : framed (idents info rec fuel l1 l2).
Proof. apply framed_notNil, framed_nodes, rec_framed. Qed.
Lemma framed_stmts l1 l2 : framed (stmts info rec fuel l1 l2).
Proof. apply framed_notNil, framed_nodes, rec_framed. Qed.
Lemma framed_specs l1 l2 : framed (specs info rec fuel l1 l2).
Proof. apply framed_notNil, framed_nodes, rec_framed. Qed.

Lemma framed_pairwise l1 l2 : framed (pairwise rec l1 l2).
Proof.
  revert l2. induction l1 as [|a l1 IH]; intros l2; simpl; [apply framed_ret|].
  destruct l2; [apply framed_panic|]. repeat framed_step. apply IH.
Qed.

Lemma framed_fields f1 f2 : framed (fields rec f1 f2).
Proof.
  unfold fields. destruct f1, f2; repeat framed_step. apply framed_pairwise.
Qed.

Lemma framed_caseIdents l acc : framed (caseIdents l acc).
Proof.
  revert acc. induction l as [|st l IH]; intros acc; simpl; [apply framed_ret|].
  apply framed_bind; [repeat framed_step|].
  intros [[e b]|]; [|apply framed_ret].
  destruct b; try apply framed_ret. destruct b; try apply framed_ret.
  apply framed_if; [apply framed_ret|].
  destruct e; try apply framed_ret.
  apply framed_if; [apply framed_ret|apply IH].
Qed.

Lemma framed_cases l1 l2 : framed (cases info rec fuel l1 l2).
Proof.
  unfold cases. apply framed_if; [apply framed_ret|].
  apply framed_bind; [apply framed_caseIdents|].
  intros [l|]; [|apply framed_ret].
  apply framed_notNil, framed_nodes, rec_framed.
Qed.

Lemma framed_typeChecks t tcs : framed (typeChecks t tcs).
Proof.
  induction tcs as [|tc tcs IH]; simpl; [apply framed_ret|].
  apply framed_bind; [apply framed_getScope|]. intros sc.
  destruct (resolveType sc (expr tc)); [|apply framed_panic].
  repeat (apply framed_if; [apply framed_ret|]). exact IH.
Qed.

Lemma framed_identCase x n : framed (identCase info rec x n).
Proof.
  unfold identCase. apply framed_if; [apply framed_ret|].
  destruct n; [|apply framed_ret].
  apply framed_if; [apply framed_ret|].
  apply framed_if; [apply framed_ret|].
  apply framed_bind.
  { apply framed_if; [|apply framed_ret].
    apply framed_if; [apply framed_ret|].
    destruct (Info_TypeOf _); [|apply framed_ret].
    apply framed_if; [apply framed_ret|apply framed_typeChecks]. }
  intros typed. repeat framed_step.
Qed.

Lemma framed_valueSpecAny xn yn xv yv is_ :
  framed (valueSpecAny rec xn yn xv yv is_).
Proof.
  induction is_ as [|i is_ IH]; simpl; [apply framed_ret|].
  apply framed_bind; [|intros [|]; [apply framed_ret|exact IH]].
  repeat framed_step.
Qed.

Ltac framed_case :=
  lazymatch goal with
  | |- framed (exprs _ _ _ _ _) => apply framed_exprs
  | |- framed (idents _ _ _ _ _) => apply framed_idents
  | |- framed (stmts _ _ _ _ _) => apply framed_stmts
  | |- framed (specs _ _ _ _ _) => apply framed_specs
  | |- framed (cases _ _ _ _ _) => apply framed_cases
  | |- framed (fields _ _ _) => apply framed_fields
  | |- framed (pairwise _ _ _) => apply framed_pairwise
  | |- framed (valueSpecAny _ _ _ _ _ _) => apply framed_valueSpecAny
  | |- framed (identCase _ _ _ _) => apply framed_identCase
  | |- _ => framed_step
  end.

Lemma framed_node_switch aggr x n :
  framed (node_switch info rec fuel aggr x n).
Proof.
  destruct x; cbn [node_switch]; repeat framed_case.
Qed.

Lemma framed_node_body e n : framed (node_body info rec fuel e n).
Proof.
  unfold node_body. apply framed_bind; [apply framed_reseatScope|]. intros _.
  apply framed_bind; [apply framed_getAggressive|]. intros aggr.
  cbv zeta. destruct (if negb aggr then _ else _); [apply framed_ret|].
  destruct (if aggr && _ then _ else _) as [e' n'].
  destruct e'; [apply framed_node_switch|apply framed_ret].
Qed.

End Body.

Lemma framed_node fuel e n : framed (node info fuel e n).
Proof.
  revert e n. induction fuel as [|fuel IH]; intros e n.
  - apply framed_nofuel.
  - apply framed_node_body. exact IH.
Qed.

End NodeFrame.
End Frame.

(** ** Checkpoints of the sequence matcher *)

Section Checkpoints.
Context `{Collaborators}.
Variable info : Z -> varInfo.
Variable fuel : nat.
Variables ns1 ns2 : nodeList.
Variable partial : bool.

Local Abbreviation rec := (node info fuel).
Local Abbreviation tryPattern' := (tryPattern info rec ns1 ns2 partial).
Local Abbreviation mismatch' := (mismatch ns1 ns2 partial).
Local Abbreviation loopBody' := (loopBody info rec ns1 ns2 partial).
Local Abbreviation loop' := (loop info rec ns1 ns2 partial).
Local Abbreviation backsUp' := (backsUp info ns1 partial).
Local Abbreviation checkpointInv' := (checkpointInv info ns1 partial).
Local Abbreviation checkpointBindings' := (checkpointBindings info ns1 partial).
Local Abbreviation reaches' := (reaches info rec ns1 ns2 partial).

Lemma framed_keeps {A} (c : M A) m a m' r :
  framed c -> c m = Ret a m' -> wf m ->
  (r < length (store m))%nat -> r <> values m ->
  wf m' /\ deref (store m') r = deref (store m) r /\ r <> values m'
  /\ (r < length (store m'))%nat.
Proof.
  intros Hc Hr Hwf Hlt Hne. pose proof (Hc _ _ _ Hwf Hr) as E.
  split; [apply E|]. by apply extends_keep.
Qed.

Lemma deref_new (st : list (gmap string Node)) b :
  deref (st ++ [b]) (length st) = b.
Proof.
  unfold deref. rewrite lookup_app_r by lia.
  by replace (length st - length st)%nat with 0%nat by lia.
Qed.

Lemma at_run l i n m m' :
  at_ l i m = Ret n m' -> elems l !! i = Some n /\ m' = m.
Proof.
  unfold at_. destruct (elems l !! i); [|discriminate].
  intros [= -> ->]. done.
Qed.

Lemma backsUp_i1 s s' : i1 s = i1 s' -> backsUp' s = backsUp' s'.
Proof. unfold backsUp. by intros ->. Qed.

(* what the first statement of the loop body does to the checkpoint *)
Lemma tryPattern_checkpoint s m r m1 :
  checkpointInv' s m -> tryPattern' s m = Ret r m1 ->
  let s1 := afterTry r in
  wf m1
  /\ (oldMatches s1 < length (store m1))%nat
  /\ values m1 <> oldMatches s1
  /\ snapshotOf s1 m1 = checkpointBindings' s m
  /\ (if backsUp' s
      then next1 s1 = i1 s /\ next2 s1 = (i2 s + 1)%nat
           /\ oldMatches s1 = length (store m)
      else next1 s1 = next1 s /\ next2 s1 = next2 s
           /\ oldMatches s1 = oldMatches s)
  /\ match r with
     | inl _ => i1 s1 = (i1 s + 1)%nat
     | inr _ => i1 s1 = i1 s /\ i2 s1 = i2 s
     end.
Proof.
  intros (Hwf & Hold & Hal & Hn1 & Hn2) Hr. unfold tryPattern in Hr.
  unfold checkpointBindings.
  case_bool_decide as Hi; simpl in Hr.
  2:{ injection Hr as <- <-. simpl.
      assert (Hb : backsUp' s = false).
      { unfold backsUp. rewrite lookup_ge_None_2; [done|].
        unfold len in Hi. lia. }
      rewrite Hb. split_and!; auto. intros E. apply Hal in E. congruence. }
  apply bind_inv in Hr as (n1 & m0 & Hat & Hr).
  apply at_run in Hat as [Hn1' ->].
  assert (Hb : backsUp' s
               = any (info (fromWildNode n1))
                 || (partial && bool_decide (i1 s = 0%nat))).
  { unfold backsUp. by rewrite Hn1'. }
  assert (Hfresh : values m <> length (store m)) by (unfold wf in Hwf; lia).
  destruct (any (info (fromWildNode n1))) eqn:Hany.
  - rewrite Hb. simpl. unfold bind in Hr. rewrite backupMatches_run in Hr.
    injection Hr as <- <-. simpl. unfold snapshotOf, wf in *. simpl.
    rewrite length_app, deref_new. simpl.
    destruct (bool_decide (name _ ≠ wildName s)); simpl;
      split_and!; try done; try lia.
  - apply bind_inv in Hr as (s2 & m2 & Hbk & Hr).
    apply bind_inv in Hr as (ok & m3 & Hok & Hr).
    assert (Hframed : framed
              (ret (bool_decide (i2 s2 < len ns2)%nat)
               &&& wouldMatch rec ns2 s2
               &&& (let* n2 := at_ ns2 (i2 s2) in rec (Some n1) (Some n2)))).
    { apply framed_andM; [apply framed_andM;
        [apply framed_ret|apply framed_wouldMatch; apply framed_node]|].
      apply framed_bind; [apply framed_at|]. intros; apply framed_node. }
    assert (Hs1 : afterTry r = (if ok then set_i (i1 s2 + 1) (i2 s2 + 1)
                                              (set_wild "" (wildStart s2) s2)
                                else s2) /\ m1 = m3
                  /\ match r with
                     | inl _ => ok = true
                     | inr _ => ok = false
                     end).
    { destruct ok; injection Hr as <- <-; done. }
    destruct Hs1 as (Hs1 & -> & Hok').
    assert (Hfields : oldMatches (afterTry r) = oldMatches s2
                      /\ next1 (afterTry r) = next1 s2
                      /\ next2 (afterTry r) = next2 s2
                      /\ match r with
                         | inl _ => i1 (afterTry r) = (i1 s2 + 1)%nat
                         | inr _ => i1 (afterTry r) = i1 s2
                                    /\ i2 (afterTry r) = i2 s2
                         end).
    { rewrite Hs1. destruct r; subst ok; done. }
    destruct Hfields as (Fo & Fn1 & Fn2 & Fi).
    unfold snapshotOf. simpl. rewrite Fo, Fn1, Fn2, Hb. simpl.
    destruct (partial && bool_decide (i1 s = 0%nat)) eqn:Hp.
    + rewrite backupMatches_run in Hbk. injection Hbk as <- <-.
      simpl in *.
      edestruct (framed_keeps _ _ _ _ (length (store m)) Hframed Hok)
        as (W3 & D3 & V3 & L3).
      { unfold wf in *. simpl. rewrite length_app. simpl. lia. }
      { simpl. rewrite length_app. simpl. lia. }
      { simpl. lia. }
      rewrite D3. simpl. rewrite deref_new.
      apply andb_true_iff in Hp as [_ Hp%bool_decide_eq_true].
      split_and!; auto; try lia.
    + injection Hbk as <- <-.
      assert (Hne : oldMatches s <> values m).
      { intros E. symmetry in E. apply Hal in E. rewrite Hb in E.
        simpl in E. congruence. }
      edestruct (framed_keeps _ _ _ _ (oldMatches s) Hframed Hok)
        as (W3 & D3 & V3 & L3); auto.
      split_and!; auto.
Qed.

Lemma mismatch_run s m :
  mismatch' s m
  = if atPartialEnd ns1 partial s then Ret (Break (set_partialEnd (i2 s) s)) m
    else if canRestart ns2 s
         then Ret (Continue (set_i (next1 s) (next2 s) s))
                  (Matcher (store m) (oldMatches s) (scope m) (aggressive m))
         else Ret ReturnNil m.
Proof.
  unfold mismatch. destruct (atPartialEnd _ _ _); [reflexivity|].
  destruct (canRestart _ _); reflexivity.
Qed.

Lemma initial_checkpoint s0 m s m1 :
  wf m -> next1 s0 = 0%nat -> next2 s0 = 0%nat ->
  backupMatches s0 m = Ret s m1 -> checkpointInv' s m1.
Proof.
  intros Hwf H1 H2 Hb. rewrite backupMatches_run in Hb. injection Hb as <- <-.
  unfold checkpointInv, wf in *. simpl. rewrite length_app. simpl.
  split_and!; try lia.
Qed.

(* one pass that ends in continue *)
Lemma loopBody_checkpoint s m s' m' :
  checkpointInv' s m -> loopBody' s m = Ret (Continue s') m' ->
  checkpointInv' s' m'
  /\ snapshotOf s' m' = checkpointBindings' s m
  /\ oldMatches s' = (if backsUp' s then length (store m) else oldMatches s).
Proof.
  intros Hinv Hr. unfold loopBody in Hr.
  apply bind_inv in Hr as (r & m1 & Ht & Hr).
  pose proof (tryPattern_checkpoint _ _ _ _ Hinv Ht) as
    (W1 & O1 & V1 & S1 & N1 & I1).
  destruct Hinv as (Hwf & Hold & Hal & Hn1 & Hn2).
  assert (Hck : (0 < next2 (afterTry r))%nat ->
                backsUp' (set_i (next1 (afterTry r)) (next2 (afterTry r))
                               (afterTry r)) = true).
  { intros Hpos. destruct (backsUp' s) eqn:Hb.
    - destruct N1 as (-> & _ & _). rewrite <- Hb. by apply backsUp_i1.
    - destruct N1 as (E1 & E2 & _). rewrite E2 in Hpos.
      rewrite <- (Hn2 Hpos). apply backsUp_i1. simpl. exact E1. }
  assert (Hle : (next1 (afterTry r) <= i1 (afterTry r))%nat).
  { destruct (backsUp' s); destruct N1 as (-> & _ & _); destruct r; simpl in *;
      lia. }
  assert (Hom : oldMatches (afterTry r)
                = if backsUp' s then length (store m) else oldMatches s).
  { destruct (backsUp' s); apply N1. }
  destruct r as [s1|s1]; simpl in *.
  - injection Hr as <- <-. split; [|by split].
    unfold checkpointInv. split_and!; auto.
  - rewrite mismatch_run in Hr. destruct (atPartialEnd _ _ _); [discriminate|].
    destruct (canRestart ns2 s1) eqn:Hc; [|discriminate].
    injection Hr as <- <-. split; [|by split].
    unfold checkpointInv, wf. simpl. split_and!; auto.
    + intros _. apply Hck. unfold canRestart in Hc.
      apply andb_true_iff in Hc as [Hc _]. apply andb_true_iff in Hc as [Hc _].
      by apply bool_decide_eq_true in Hc.
Qed.

Lemma reaches_checkpoint s m s' m' :
  reaches' s m s' m' -> checkpointInv' s m ->
  checkpointInv' s' m'
  /\ (oldMatches s <= oldMatches s')%nat
  /\ (oldMatches s' = oldMatches s -> snapshotOf s' m' = snapshotOf s m).
Proof.
  induction 1 as [s m|s m s1 m1 s2 m2 Hpass _ IH]; intros Hinv; [by split_and!|].
  pose proof (loopBody_checkpoint _ _ _ _ Hinv Hpass) as (Hinv1 & Hs1 & Ho1).
  destruct (IH Hinv1) as (Hinv2 & Hle & Hsn).
  assert (Hold : (oldMatches s < length (store m))%nat) by apply Hinv.
  unfold checkpointBindings in Hs1.
  destruct (backsUp' s).
  - split; [exact Hinv2|]. split; [lia|]. intros E. lia.
  - split; [exact Hinv2|]. split; [lia|]. intros E.
    rewrite Hsn by congruence. exact Hs1.
Qed.

(** C7: [backupMatches] copies the capture map into a map of its own;
    the loop of [matcher.nodes] starts with, and every pass keeps, the
    invariant [checkpointInv].  Under it, what a pass tries (the wildcard
    window it records, the calls of [matcher.node]) never writes to the
    snapshot, which holds the bindings of the start of the pass that took
    it for as long as [oldMatches] is not assigned again; a restart moves
    the cursors to the checkpoint, one candidate past where it was set,
    and makes the bindings equal to that snapshot; and a mismatch without
    a checkpoint makes the loop, and with it [matcher.nodes], return
    nil. *)
Theorem backtrack_restores_snapshot :
  (* a snapshot is a full copy, in a map that is not m.values *)
  (forall s m, wf m ->
     exists s1 m1, backupMatches s m = Ret s1 m1
       /\ oldMatches s1 = length (store m)
       /\ snapshotOf s1 m1 = bindingsOf m
       /\ bindingsOf m1 = bindingsOf m
       /\ values m1 <> oldMatches s1)
  (* the loop is entered with the invariant *)
  /\ (forall m s m1, wf m ->
        backupMatches (LoopState 0 0 0 0 "" 0 0 (len ns2) 0) m = Ret s m1 ->
        checkpointInv' s m1)
  /\ (forall s m, checkpointInv' s m ->
        (* the attempt of a pass leaves the snapshot as it was, or as the
           pass took it before anything else *)
        (forall r m1, tryPattern' s m = Ret r m1 ->
           snapshotOf (afterTry r) m1 = checkpointBindings' s m
           /\ values m1 <> oldMatches (afterTry r))
        (* a restart: back to the checkpoint, bindings as in the snapshot *)
        /\ (forall s1 m1 s' m',
              tryPattern' s m = Ret (inr s1) m1 ->
              mismatch' s1 m1 = Ret (Continue s') m' ->
              canRestart ns2 s1 = true
              /\ i1 s' = next1 s1 /\ i2 s' = next2 s1
              /\ bindingsOf m' = checkpointBindings' s m
              /\ (backsUp' s = true ->
                  i1 s' = i1 s /\ i2 s' = (i2 s + 1)%nat))
        (* over any number of passes, the invariant holds and a snapshot
           that was not replaced has not changed *)
        /\ (forall s' m', reaches' s m s' m' ->
              checkpointInv' s' m'
              /\ (oldMatches s' = oldMatches s ->
                  snapshotOf s' m' = snapshotOf s m))
        (* no checkpoint: the whole match fails *)
        /\ (forall s1 m1,
              tryPattern' s m = Ret (inr s1) m1 ->
              atPartialEnd ns1 partial s1 = false ->
              next2 s1 = 0%nat ->
              loopBody' s m = Ret ReturnNil m1
              /\ forall k, bool_decide (i1 s < len ns1)%nat
                           || bool_decide (i2 s < len ns2)%nat = true ->
                           loop' (S k) s m = Ret None m1))
  /\ (forall m0 s m m', len ns1 <> 0%nat ->
        backupMatches (LoopState 0 0 0 0 "" 0 0 (len ns2) 0) m0 = Ret s m ->
        loop' fuel s m = Ret None m' ->
        matcher_nodes info fuel ns1 ns2 partial m0 = Ret None m').
Proof.
  split_and!.
  - intros s m Hwf. eexists _, _. split; [apply backupMatches_run|].
    unfold snapshotOf, bindingsOf, wf in *. simpl.
    rewrite deref_new. split_and!; auto; [|lia].
    unfold deref. by rewrite lookup_app_l.
  - intros m s m1 Hwf Hb. eapply initial_checkpoint; [exact Hwf| | |exact Hb];
      reflexivity.
  - intros s m Hinv. split_and!.
    + intros r m1 Ht.
      pose proof (tryPattern_checkpoint _ _ _ _ Hinv Ht) as
        (W1 & O1 & V1 & S1 & N1 & I1). by split.
    + intros s1 m1 s' m' Ht Hm.
      pose proof (tryPattern_checkpoint _ _ _ _ Hinv Ht) as
        (W1 & O1 & V1 & S1 & N1 & I1 & I2). simpl in *.
      rewrite mismatch_run in Hm.
      destruct (atPartialEnd _ _ _); [discriminate|].
      destruct (canRestart ns2 s1); [|discriminate].
      injection Hm as <- <-. simpl. split_and!; auto.
      intros Hb. rewrite Hb in N1. destruct N1 as (-> & -> & _). done.
    + intros s' m' Hreach.
      destruct (reaches_checkpoint _ _ _ _ Hreach Hinv) as (? & _ & ?). done.
    + intros s1 m1 Ht Hpe Hn2.
      assert (Hnil : loopBody' s m = Ret ReturnNil m1).
      { unfold loopBody. rewrite (bind_ret _ _ _ _ _ Ht).
        rewrite mismatch_run, Hpe. unfold canRestart. rewrite Hn2.
        reflexivity. }
      split; [exact Hnil|]. intros k Hc. simpl. rewrite Hc.
      by rewrite (bind_ret _ _ _ _ _ Hnil).
  - intros m0 s m m' Hlen Hb Hl. unfold matcher_nodes, nodes.
    rewrite bool_decide_eq_false_2 by exact Hlen.
    rewrite (bind_ret _ _ _ _ _ Hb). by rewrite (bind_ret _ _ _ _ _ Hl).
Qed.

End Checkpoints.

(** ** Patterns without wildcards match their own image only *)

Section Identity.
Context `{Collaborators}.
Variable info : Z -> varInfo.
(* what the pattern parser guarantees: only a wildcard name stands for a
   wildcard, and m.info(-1) is the zero varInfo *)
Hypothesis info_none : any (info (-1)%Z) = false.
Hypothesis info_plain :
  forall s, isWildName s = false -> any (info (fromWildName s)) = false.

Lemma bind_ret_l' {B} (k : bool -> M B) m :
  bind getAggressive k m = k (aggressive m) m.
Proof. reflexivity. Qed.

Lemma strict_framed {A} (c : M A) m a m' :
  framed c -> strict m -> c m = Ret a m' -> strict m'.
Proof.
  intros Hc [Hwf Ha] Hr. destruct (Hc _ _ _ Hwf Hr) as (W & _ & _ & A' & _).
  split; [exact W|congruence].
Qed.

Lemma fromWildNode_plain n :
  plain n = true -> any (info (fromWildNode n)) = false.
Proof.
  induction n; simpl; intros Hp; try exact info_none.
  - apply info_plain. by apply negb_true_iff.
  - auto.
Qed.

Section Sequence.
Variable rec : option Node -> option Node -> M bool.
Variable fuel : nat.
Hypothesis rec_framed : forall e n, framed (rec e n).
Hypothesis rec_identifies : identifies rec.

Section Lockstep.
Variables ns1 ns2 : nodeList.

Local Abbreviation loop' := (loop info rec ns1 ns2 false).

Local Abbreviation lockstep' := (lockstep ns1 ns2).

Lemma wouldMatch_none s m :
  wildName s = "" -> wouldMatch rec ns2 s m = Ret true m.
Proof. unfold wouldMatch. intros ->. reflexivity. Qed.

Lemma loop_lockstep k s m s' m' :
  forallb plain (elems ns1) = true ->
  lockstep' s m -> loop' k s m = Ret (Some s') m' ->
  List.map erase (elems ns1) = List.map erase (elems ns2).
Proof.
  intros Hplain. revert s m. induction k as [|k IH]; intros s m Hl Hr;
    [discriminate|].
  destruct Hl as (E2 & N2 & W & Hs & L1 & L2 & Hpre).
  simpl in Hr. destruct (_ || _) eqn:Hcond.
  2:{ apply orb_false_iff in Hcond as [C1 C2].
      apply bool_decide_eq_false in C1, C2. unfold len in *.
      rewrite !take_ge in Hpre by lia. exact Hpre. }
  apply bind_inv in Hr as (c & m1 & Hb & Hr).
  unfold loopBody in Hb. apply bind_inv in Hb as (r & m2 & Ht & Hb).
  assert (Hnil : forall m0, mismatch ns1 ns2 false s m0 = Ret ReturnNil m0).
  { intros m0. unfold mismatch, atPartialEnd, canRestart. simpl.
    rewrite N2. reflexivity. }
  unfold tryPattern in Ht. case_bool_decide as Hi; simpl in Ht.
  2:{ injection Ht as <- <-. rewrite Hnil in Hb. injection Hb as <- <-.
      discriminate. }
  apply bind_inv in Ht as (n1 & m3 & Hat & Ht).
  unfold at_ in Hat. destruct (elems ns1 !! i1 s) as [n1'|] eqn:Hn1;
    [|discriminate]. injection Hat as -> ->.
  assert (Hp1 : plain n1 = true).
  { rewrite forallb_forall in Hplain. apply Hplain.
    apply list_elem_of_In. by eapply list_elem_of_lookup_2. }
  rewrite (fromWildNode_plain _ Hp1) in Ht. simpl in Ht.
  rewrite bind_ret_l in Ht.
  apply bind_inv in Ht as (ok & m4 & Hok & Ht).
  destruct ok.
  2:{ injection Ht as <- <-. rewrite Hnil in Hb. injection Hb as <- <-.
      discriminate. }
  injection Ht as <- <-. injection Hb as <- <-.
  apply andM_true in Hok as (m5 & Hok & Hrec).
  apply andM_true in Hok as (m6 & Hlt & Hw).
  injection Hlt as Hlt <-. apply bool_decide_eq_true in Hlt.
  rewrite wouldMatch_none in Hw by exact W. injection Hw as <-.
  apply bind_inv in Hrec as (n2 & m7 & Hat2 & Hrec).
  unfold at_ in Hat2. destruct (elems ns2 !! i2 s) as [n2'|] eqn:Hn2;
    [|discriminate]. injection Hat2 as -> ->.
  pose proof (rec_identifies (Some n1) (Some n2) _ _ Hs Hp1 Hrec) as He. simpl in He.
  injection He as He.
  eapply IH; [|exact Hr]. unfold lockstep. simpl.
  rewrite E2 in *. unfold len in *.
  split_and!; auto; try lia.
  - eapply strict_framed; [apply rec_framed|exact Hs|exact Hrec].
  - replace (i1 s + 1)%nat with (S (i1 s)) by lia.
    rewrite (take_S_r _ _ _ Hn1), (take_S_r _ _ _ Hn2).
    rewrite !map_app. simpl. by rewrite Hpre, He.
Qed.

End Lockstep.

Lemma nodes_identical k1 k2 l1 l2 m r m' :
  strict m -> forallb plain l1 = true ->
  nodes info rec fuel (NodeList k1 l1) (NodeList k2 l2) false m
  = Ret (Some r) m' ->
  List.map erase l1 = List.map erase l2.
Proof.
  intros Hs Hp Hr. unfold nodes in Hr. unfold len in Hr. simpl in Hr.
  case_bool_decide as E1.
  { case_bool_decide as E2; [|discriminate].
    destruct l1, l2; try discriminate. reflexivity. }
  apply bind_inv in Hr as (s & m1 & Hb & Hr).
  apply bind_inv in Hr as ([s'|] & m2 & Hl & Hr); [|discriminate].
  rewrite backupMatches_run in Hb. injection Hb as <- <-.
  eapply (loop_lockstep (NodeList k1 l1) (NodeList k2 l2)) in Hl;
    [exact Hl|exact Hp|].
  unfold lockstep. simpl. split_and!; auto; try lia.
  eapply strict_framed; [apply (framed_newMap (bindingsOf m))|exact Hs|].
  reflexivity.
Qed.

Lemma notNil_true c m m' :
  notNil c m = Ret true m' -> exists r, c m = Ret (Some r) m'.
Proof.
  unfold notNil. intros Hr. apply bind_inv in Hr as ([r|] & m1 & Hc & Hr).
  - injection Hr as <-. eauto.
  - discriminate.
Qed.

Lemma exprs_identical l1 l2 m m' :
  strict m -> forallb plain l1 = true ->
  exprs info rec fuel l1 l2 m = Ret true m' ->
  List.map erase l1 = List.map erase l2.
Proof.
  intros Hs Hp [r Hr]%notNil_true. eapply nodes_identical; eassumption.
Qed.

Lemma idents_identical l1 l2 m m' :
  strict m -> forallb plain l1 = true ->
  idents info rec fuel l1 l2 m = Ret true m' ->
  List.map erase l1 = List.map erase l2.
Proof.
  intros Hs Hp [r Hr]%notNil_true. eapply nodes_identical; eassumption.
Qed.

Lemma stmts_identical l1 l2 m m' :
  strict m -> forallb plain l1 = true ->
  stmts info rec fuel l1 l2 m = Ret true m' ->
  List.map erase l1 = List.map erase l2.
Proof.
  intros Hs Hp [r Hr]%notNil_true. eapply nodes_identical; eassumption.
Qed.

Lemma specs_identical l1 l2 m m' :
  strict m -> forallb plain l1 = true ->
  specs info rec fuel l1 l2 m = Ret true m' ->
  List.map erase l1 = List.map erase l2.
Proof.
  intros Hs Hp [r Hr]%notNil_true. eapply nodes_identical; eassumption.
Qed.

Lemma pairwise_identical l1 l2 m m' :
  strict m -> forallb plain l1 = true -> length l1 = length l2 ->
  pairwise rec l1 l2 m = Ret true m' ->
  List.map erase l1 = List.map erase l2.
Proof.
  revert l2 m. induction l1 as [|a l1 IH]; intros [|b l2] m Hs Hp Hl Hr;
    try discriminate; [reflexivity|].
  simpl in *. apply andb_true_iff in Hp as [Hpa Hp].
  apply bind_inv in Hr as ([|] & m1 & Ha & Hr); [|discriminate].
  pose proof (rec_identifies (Some a) (Some b) _ _ Hs Hpa Ha) as He.
  injection He as ->. f_equal. eapply IH; [|exact Hp|lia|exact Hr].
  eapply strict_framed; [apply rec_framed|exact Hs|exact Ha].
Qed.

Lemma fields_identical f1 f2 m m' :
  strict m -> match f1 with Some l => forallb plain l | None => true end = true ->
  fields rec f1 f2 m = Ret true m' ->
  option_map (List.map erase) f1 = option_map (List.map erase) f2.
Proof.
  intros Hs Hp Hr. unfold fields in Hr.
  destruct f1 as [l1|], f2 as [l2|]; try discriminate; [|reflexivity].
  case_bool_decide as Hl; [discriminate|]. simpl. f_equal.
  eapply pairwise_identical; try eassumption.
Qed.

Lemma caseIdents_plain l acc m r m' :
  forallb plain l = true -> caseIdents l acc m = Ret (Some r) m' -> l = [].
Proof.
  destruct l as [|st l]; [done|]. simpl. intros Hp Hr. exfalso.
  apply andb_true_iff in Hp as [Hst _].
  apply bind_inv in Hr as ([[e b]|] & m1 & Hc & Hr); [|discriminate].
  assert (He : plain e = true).
  { destruct st; try discriminate.
    - destruct List_ as [|e' [|]]; try discriminate.
      destruct Body as [|b' [|]]; try discriminate.
      injection Hc as <- <- <-. simpl in Hst.
      apply andb_true_iff in Hst as [Hst _].
      by apply andb_true_iff in Hst as [Hst _].
    - destruct Comm as [c|]; [|discriminate].
      destruct Body as [|b' [|]]; try discriminate.
      destruct c; try discriminate. injection Hc as <- <- <-.
      simpl in Hst. by apply andb_true_iff in Hst as [Hst _]. }
  destruct b; try discriminate. destruct b; try discriminate.
  case_bool_decide; [discriminate|].
  destruct e; try discriminate. simpl in He. rewrite He in Hr. discriminate.
Qed.

Lemma cases_identical l1 l2 m m' :
  strict m -> forallb plain l1 = true ->
  cases info rec fuel l1 l2 m = Ret true m' ->
  List.map erase l1 = List.map erase l2.
Proof.
  intros Hs Hp Hr. unfold cases in Hr.
  destruct (negb _); [discriminate|].
  apply bind_inv in Hr as ([l|] & m1 & Hc & Hr); [|discriminate].
  pose proof (caseIdents_plain _ _ _ _ _ Hp Hc) as ->.
  simpl in Hc. injection Hc as <- <-.
  apply notNil_true in Hr as [r Hr].
  unfold nodes in Hr. simpl in Hr. case_bool_decide as E; [|discriminate].
  unfold len in E. simpl in E. by destruct l2.
Qed.

Lemma orM_true (a b : M bool) m m' :
  orM a b m = Ret true m' ->
  a m = Ret true m' \/ exists m1, a m = Ret false m1 /\ b m1 = Ret true m'.
Proof.
  intros Hr. apply bind_inv in Hr as ([|] & m1 & Ha & Hr).
  - injection Hr as <-. by left.
  - right. eauto.
Qed.

Lemma andM_ret_l b (c : M bool) m :
  (ret b &&& c) m = if b then c m else Ret false m.
Proof. destruct b; reflexivity. Qed.

Lemma headerWild_plain init cond :
  plainO cond = true -> headerWild info init cond = None.
Proof.
  destruct cond as [[]|]; try reflexivity. simpl. intros Hp.
  unfold headerWild. rewrite Hp. by destruct init.
Qed.

(* strictness of the state after a call, read off the call *)
Ltac strict_after H :=
  lazymatch type of H with
  | ?c ?m = Ret _ ?m1 =>
      lazymatch goal with
      | _ : strict m1 |- _ => fail
      | Hs : strict m |- _ =>
          let Hs1 := fresh "Hs" in
          assert (Hs1 : strict m1);
          [ eapply strict_framed; [|exact Hs|exact H];
            first [ apply rec_framed | apply framed_ret
                  | apply framed_exprs; exact rec_framed
                  | apply framed_idents; exact rec_framed
                  | apply framed_stmts; exact rec_framed
                  | apply framed_specs; exact rec_framed
                  | apply framed_cases; exact rec_framed
                  | apply framed_fields; exact rec_framed
                  | apply framed_pairwise; exact rec_framed ]
          | ]
      end
  end.

Ltac split_plain :=
  repeat match goal with
         | H : _ && _ = true |- _ => apply andb_true_iff in H as [? ?]
         end.

Ltac chain :=
  repeat match goal with
         | H : andM _ _ _ = Ret true _ |- _ =>
             apply andM_true in H as (? & ? & ?)
         end;
  repeat match goal with
         | H : ret _ _ = Ret true _ |- _ =>
             injection H as H <-; try apply bool_decide_eq_true in H
         | H : _ ?m = Ret _ ?m1, Hs : strict ?m |- _ =>
             strict_after H
         end.

Ltac learn :=
  repeat match goal with
         | H : rec ?xo ?yo ?m = Ret true _, Hs : strict ?m |- _ =>
             let He := fresh "He" in
             assert (He : option_map erase xo = option_map erase yo)
               by (eapply rec_identifies; [exact Hs| |exact H]; assumption);
             clear H; simpl in He
         | H : exprs _ _ _ ?l1 ?l2 ?m = Ret true _, Hs : strict ?m |- _ =>
             let He := fresh "He" in
             assert (He : List.map erase l1 = List.map erase l2)
               by (eapply exprs_identical; [exact Hs| |exact H]; assumption);
             clear H
         | H : idents _ _ _ ?l1 ?l2 ?m = Ret true _, Hs : strict ?m |- _ =>
             let He := fresh "He" in
             assert (He : List.map erase l1 = List.map erase l2)
               by (eapply idents_identical; [exact Hs| |exact H]; assumption);
             clear H
         | H : stmts _ _ _ ?l1 ?l2 ?m = Ret true _, Hs : strict ?m |- _ =>
             let He := fresh "He" in
             assert (He : List.map erase l1 = List.map erase l2)
               by (eapply stmts_identical; [exact Hs| |exact H]; assumption);
             clear H
         | H : specs _ _ _ ?l1 ?l2 ?m = Ret true _, Hs : strict ?m |- _ =>
             let He := fresh "He" in
             assert (He : List.map erase l1 = List.map erase l2)
               by (eapply specs_identical; [exact Hs| |exact H]; assumption);
             clear H
         | H : fields _ ?f1 ?f2 ?m = Ret true _, Hs : strict ?m |- _ =>
             let He := fresh "He" in
             assert (He : option_map (List.map erase) f1
                          = option_map (List.map erase) f2)
               by (eapply fields_identical; [exact Hs| |exact H]; assumption);
             clear H
         end.

Lemma identCase_plain xName yo m m' :
  isWildName xName = false ->
  identCase info rec xName yo m = Ret true m' -> yo = Some (Ident xName).
Proof.
  unfold identCase. intros ->. simpl. unfold asIdent.
  destruct yo as [[]|]; try discriminate.
  intros [= Hn _]. apply bool_decide_eq_true in Hn. by subst.
Qed.

Local Abbreviation switch := (node_switch info rec fuel false).

Ltac start Hs Hp Hr :=
  intros Hs Hp Hr; cbn [node_switch] in Hr; cbn [plain] in Hp; split_plain.

Lemma File_identical n ds is_ yo m m' :
  strict m -> plain (File n ds is_) = true ->
  switch (File n ds is_) yo m = Ret true m' ->
  option_map erase (Some (File n ds is_)) = option_map erase yo.
Proof.
  start Hs Hp Hr. destruct yo as [[]|]; try discriminate Hr.
  apply bind_inv in Hr as (nameOk & m1 & Hn & Hr).
  destruct nameOk; [|discriminate]. simpl in Hr.
  case_bool_decide as L1; [discriminate|].
  case_bool_decide as L2; [discriminate|]. simpl in Hr.
  strict_after Hn. apply andM_true in Hr as (m2 & Hd & Hi).
  strict_after Hd.
  assert (Hd' : List.map erase ds = List.map erase Decls)
    by (eapply pairwise_identical; [| |exact L1|exact Hd]; assumption).
  assert (Hi' : List.map erase is_ = List.map erase Imports)
    by (eapply pairwise_identical; [| |exact L2|exact Hi]; assumption).
  learn. simpl. congruence.
Qed.

Lemma BasicLit_identical k v yo m m' :
  switch (BasicLit k v) yo m = Ret true m' ->
  option_map erase (Some (BasicLit k v)) = option_map erase yo.
Proof.
  cbn [node_switch]. intros Hr. destruct yo as [[]|]; try discriminate Hr.
  injection Hr as Hr _. apply andb_true_iff in Hr as [H1 H2].
  apply bool_decide_eq_true in H1, H2. by subst.
Qed.

Lemma CallExpr_identical f a e yo m m' :
  strict m -> plain (CallExpr f a e) = true ->
  switch (CallExpr f a e) yo m = Ret true m' ->
  option_map erase (Some (CallExpr f a e)) = option_map erase yo.
Proof.
  start Hs Hp Hr. destruct yo as [[]|]; try discriminate Hr.
  apply andM_true in Hr as (m1 & Hr & Hv).
  injection Hv as Hv _. unfold bothValid in Hv.
  apply bool_decide_eq_true in Hv.
  chain; learn. simpl. rewrite Hv. congruence.
Qed.

Lemma GenDecl_identical t sp yo m m' :
  strict m -> plain (GenDecl t sp) = true ->
  switch (GenDecl t sp) yo m = Ret true m' ->
  option_map erase (Some (GenDecl t sp)) = option_map erase yo.
Proof.
  start Hs Hp Hr. apply bind_inv in Hr as (single & m1 & Hsg & Hr).
  rewrite andM_ret_l in Hsg. injection Hsg as <- <-.
  destruct yo as [[]|]; try discriminate Hr.
  chain; learn. simpl. congruence.
Qed.

Lemma FuncDecl_identical r n t b yo m m' :
  strict m -> plain (FuncDecl r n t b) = true ->
  switch (FuncDecl r n t b) yo m = Ret true m' ->
  option_map erase (Some (FuncDecl r n t b)) = option_map erase yo.
Proof.
  start Hs Hp Hr. destruct yo as [[]|]; try discriminate Hr.
  apply andM_true in Hr as (m1 & Hr & Hb).
  destruct b as [xb|], Body as [yb|]; try discriminate Hb.
  chain; learn. simpl. congruence.
Qed.

Lemma ValueSpec_identical ns t vs yo m m' :
  strict m -> plain (ValueSpec ns t vs) = true ->
  switch (ValueSpec ns t vs) yo m = Ret true m' ->
  option_map erase (Some (ValueSpec ns t vs)) = option_map erase yo.
Proof.
  start Hs Hp Hr. destruct yo as [[]|]; try discriminate Hr.
  apply bind_inv in Hr as (typeOk & m1 & Ht & Hr).
  destruct typeOk; [|discriminate]. simpl in Hr. rewrite bind_ret_l in Hr.
  chain; learn. simpl. congruence.
Qed.

Lemma ExprStmt_identical x yo m m' :
  strict m -> plain (ExprStmt x) = true ->
  switch (ExprStmt x) yo m = Ret true m' ->
  option_map erase (Some (ExprStmt x)) = option_map erase yo.
Proof.
  start Hs Hp Hr.
  assert (E : switch (ExprStmt x) yo
              = match yo with
                | Some (ExprStmt y) => rec (Some x) (Some y)
                | _ => ret false
                end).
  { cbn [node_switch]. destruct x; try reflexivity.
    simpl in Hp. apply negb_true_iff in Hp. by rewrite Hp. }
  cbn [node_switch] in E. rewrite E in Hr.
  destruct yo as [[]|]; try discriminate Hr.
  chain; learn. simpl. congruence.
Qed.

Lemma BlockStmt_identical l yo m m' :
  strict m -> plain (BlockStmt l) = true ->
  switch (BlockStmt l) yo m = Ret true m' ->
  option_map erase (Some (BlockStmt l)) = option_map erase yo.
Proof.
  start Hs Hp Hr. apply bind_inv in Hr as (asList & m0 & Hsg & Hr).
  rewrite andM_ret_l in Hsg. injection Hsg as <- <-.
  destruct yo as [[]|]; try discriminate Hr.
  apply orM_true in Hr as [Hc|(m1 & Hc & Hr)].
  - pose proof (cases_identical _ _ _ _ Hs Hp Hc). simpl. congruence.
  - assert (Hs1 : strict m1).
    { eapply strict_framed; [apply framed_cases; exact rec_framed|exact Hs|exact Hc]. }
    pose proof (stmts_identical _ _ _ _ Hs1 Hp Hr). simpl. congruence.
Qed.

Lemma IfStmt_identical i c b e yo m m' :
  strict m -> plain (IfStmt i c b e) = true ->
  switch (IfStmt i c b e) yo m = Ret true m' ->
  option_map erase (Some (IfStmt i c b e)) = option_map erase yo.
Proof.
  start Hs Hp Hr. destruct yo as [[]|]; try discriminate Hr.
  rewrite (headerWild_plain _ (Some c)) in Hr by assumption.
  chain; learn. simpl. congruence.
Qed.

Lemma SwitchStmt_identical i t b yo m m' :
  strict m -> plain (SwitchStmt i t b) = true ->
  switch (SwitchStmt i t b) yo m = Ret true m' ->
  option_map erase (Some (SwitchStmt i t b)) = option_map erase yo.
Proof.
  start Hs Hp Hr. destruct yo as [[]|]; try discriminate Hr.
  rewrite (headerWild_plain _ t) in Hr by assumption.
  chain; learn. simpl. congruence.
Qed.

Lemma ForStmt_identical i c p b yo m m' :
  strict m -> plain (ForStmt i c p b) = true ->
  switch (ForStmt i c p b) yo m = Ret true m' ->
  option_map erase (Some (ForStmt i c p b)) = option_map erase yo.
Proof.
  start Hs Hp Hr. destruct yo as [[]|]; try discriminate Hr.
  rewrite (headerWild_plain _ c) in Hr by assumption.
  chain; learn. simpl. congruence.
Qed.

Lemma node_switch_identical x yo m m' :
  strict m -> plain x = true ->
  switch x yo m = Ret true m' ->
  option_map erase (Some x) = option_map erase yo.
Proof.
  intros Hs Hp Hr. destruct x.
  all: try solve
    [ eapply File_identical; eassumption
    | eapply BasicLit_identical; eassumption
    | eapply CallExpr_identical; eassumption
    | eapply GenDecl_identical; eassumption
    | eapply FuncDecl_identical; eassumption
    | eapply ValueSpec_identical; eassumption
    | eapply ExprStmt_identical; eassumption
    | eapply BlockStmt_identical; eassumption
    | eapply IfStmt_identical; eassumption
    | eapply SwitchStmt_identical; eassumption
    | eapply ForStmt_identical; eassumption ].
  all: cbn [node_switch] in Hr; cbn [plain] in Hp; split_plain;
    unfold maybeNilIdent in *.
  { apply negb_true_iff in Hp. by rewrite (identCase_plain _ _ _ _ Hp Hr). }
  all: destruct yo as [[]|]; try discriminate Hr.
  all: chain; learn; simpl; congruence.
Qed.

End Sequence.

(** In strict mode, a pattern without wildcards matches only a candidate
    that has its image: one that agrees with it in everything matcher.node
    compares. *)
Lemma node_identifies fuel : identifies (node info fuel).
Proof.
  induction fuel as [|fuel IH]; intros xo yo m m' Hs Hp Hr; [discriminate|].
  rewrite node_unfold in Hr. unfold node_body in Hr.
  apply bind_inv in Hr as ([] & m1 & Hre & Hr).
  assert (Hs1 : strict m1)
    by (eapply strict_framed; [apply framed_reseatScope|exact Hs|exact Hre]).
  rewrite bind_ret_l' in Hr.
  destruct Hs1 as [Hw Ha]. rewrite Ha in Hr. simpl in Hr.
  destruct xo as [x|], yo as [y|]; simpl in Hr; try discriminate;
    [|reflexivity].
  eapply node_switch_identical; [apply framed_node|exact IH| | |exact Hr];
    [by split|exact Hp].
Qed.

End Identity.

(** ** Repeated captures *)

Section Reuse.
Context `{Collaborators}.
Variable info : Z -> varInfo.
Hypothesis info_none : any (info (-1)%Z) = false.
Hypothesis info_plain :
  forall s, isWildName s = false -> any (info (fromWildName s)) = false.

Lemma ret_inv {A} (a b : A) m m' : ret a m = Ret b m' -> a = b /\ m' = m.
Proof. unfold ret. intros Hr. by injection Hr as -> ->. Qed.

Lemma typeChecks_state t tcs m b m' :
  typeChecks t tcs m = Ret b m' -> m' = m.
Proof.
  revert m b m'. induction tcs as [|tc tcs IH]; intros m b m' Hr.
  - by injection Hr as _ <-.
  - simpl in Hr. apply bind_inv in Hr as (sc & m1 & Hsc & Hr).
    injection Hsc as <- <-.
    destruct (resolveType (scope m) (expr tc)); [|discriminate].
    repeat (match type of Hr with
            | (if ?c then _ else _) _ = _ => destruct c
            end; [by apply ret_inv in Hr as [_ ->]|]).
    eauto.
Qed.

(* a later occurrence of a bound wildcard matches only what the matcher,
   run on the bound node as its pattern, accepts *)
Lemma wildcard_reuse fuel w prev cand m m' :
  isWildName w = true ->
  name (info (fromWildName w)) <> "_" ->
  bindingsOf m !! name (info (fromWildName w)) = Some prev ->
  node info (S fuel) (Some (Ident w)) (Some cand) m = Ret true m' ->
  node info fuel (Some prev) (Some cand) (reseated (Some cand) m) = Ret true m'.
Proof.
  intros Hw Hn Hb Hr. rewrite node_some in Hr.
  unfold bind at 1 in Hr. rewrite reseatScope_reseated in Hr.
  cbn [node_switch] in Hr. unfold identCase in Hr. rewrite Hw in Hr.
  cbn [negb] in Hr. cbv zeta in Hr.
  destruct (any (info (fromWildName w))); [discriminate|].
  destruct (nameRxsOk _ _); [|discriminate]. cbn [negb] in Hr.
  apply bind_inv in Hr as (typed & m1 & Ht & Hr).
  assert (m1 = reseated (Some cand) m) as ->.
  { destruct (needExpr _); [|by apply ret_inv in Ht as [_ ->]].
    destruct (negb (isExpr cand)); [by apply ret_inv in Ht as [_ ->]|].
    destruct (Info_TypeOf cand); [|by apply ret_inv in Ht as [_ ->]].
    destruct (_ && _); [by apply ret_inv in Ht as [_ ->]|].
    by apply typeChecks_state in Ht. }
  destruct typed; [|discriminate]. cbn [negb] in Hr.
  rewrite bool_decide_eq_false_2 in Hr by exact Hn.
  rewrite bind_lookupValue in Hr.
  change (bindingsOf (reseated (Some cand) m)) with (bindingsOf m) in Hr.
  rewrite Hb in Hr. exact Hr.
Qed.

Lemma strict_reseated n m : strict m -> strict (reseated n m).
Proof. intros [? ?]. by split. Qed.

(* a multi-wildcard window that is checked is checked against the list
   bound before *)
Lemma wouldMatch_reuse fuel ns2 s prev m m' :
  wildName s <> "" -> wildName s <> "_" ->
  bindingsOf m !! wildName s = Some prev ->
  wouldMatch (node info fuel) ns2 s m = Ret true m' ->
  exists window,
    slice ns2 (wildStart s) (i2 s) m = Ret window m
    /\ exists m1, node info fuel (Some prev) (Some (listNode window)) m
                  = Ret true m1.
Proof.
  intros H1 H2 Hb Hr. unfold wouldMatch in Hr.
  rewrite !bool_decide_eq_false_2 in Hr by assumption. simpl in Hr.
  apply bind_inv in Hr as (window & m1 & Hsl & Hr).
  assert (m1 = m) as ->.
  { unfold slice in Hsl. destruct (bool_decide _); [|discriminate].
    by injection Hsl as _ <-. }
  exists window. split; [exact Hsl|].
  rewrite bind_lookupValue, Hb in Hr.
  apply bind_inv in Hr as (bad & m2 & Hbad & Hr).
  apply bind_inv in Hbad as (b & m3 & Hn & Hbad).
  injection Hbad as <- <-. destruct b; [eauto|discriminate].
Qed.

(** C2 (as amended): a later occurrence of a named single-node wildcard
    matches a candidate only if the matcher, run with the node bound first
    as its pattern, accepts the candidate; a multi-wildcard window that
    the matcher checks (when the next ordinary element is tried or the
    loop is over) is accepted only if the matcher accepts it against the
    list bound first.  In strict mode, when the node bound first has no
    identifier with a wildcard name, the candidate or window then agrees
    with that node in everything matcher.node compares (the same image
    under [erase]); so $x op $x matches [a op' b] only if op is op' and b
    agrees with a in that way.  This is less than the same syntax: two
    range statements that differ in their token, and two struct fields
    that differ in their tag, have the same image. *)
Theorem repeated_capture_consistency :
  (* single-node captures *)
  (forall fuel w prev cand m m',
     isWildName w = true ->
     name (info (fromWildName w)) <> "_" ->
     bindingsOf m !! name (info (fromWildName w)) = Some prev ->
     node info (S fuel) (Some (Ident w)) (Some cand) m = Ret true m' ->
     node info fuel (Some prev) (Some cand) (reseated (Some cand) m)
     = Ret true m'
     /\ (strict m -> plain prev = true -> erase cand = erase prev))
  (* multi-wildcard windows, where the matcher checks them *)
  /\ (forall fuel ns2 s prev m m',
        wildName s <> "" -> wildName s <> "_" ->
        bindingsOf m !! wildName s = Some prev ->
        wouldMatch (node info fuel) ns2 s m = Ret true m' ->
        exists window,
          slice ns2 (wildStart s) (i2 s) m = Ret window m
          /\ (exists m1, node info fuel (Some prev) (Some (listNode window)) m
                         = Ret true m1)
          /\ (strict m -> plain prev = true ->
              erase (listNode window) = erase prev))
  (* $x op $x *)
  /\ (forall fuel w n op a op' b m m',
        isWildName w = true -> info (fromWildName w) = plainVar n ->
        n <> "_" -> bindingsOf m !! n = None ->
        strict m -> plain a = true ->
        node info (S (S fuel)) (Some (BinaryExpr (Ident w) op (Ident w)))
             (Some (BinaryExpr a op' b)) m = Ret true m' ->
        op = op' /\ erase b = erase a)
  (* what the same image leaves open *)
  /\ (forall k v tok tok' x b,
        erase (RangeStmt k v tok x b) = erase (RangeStmt k v tok' x b))
  /\ (forall ns t tag tag',
        erase (Field ns t tag) = erase (Field ns t tag')).
Proof.
  split_and!; [| | |reflexivity|reflexivity].
  - intros fuel w prev cand m m' Hw Hn Hb Hr.
    pose proof (wildcard_reuse _ _ _ _ _ _ Hw Hn Hb Hr) as Hp.
    split; [exact Hp|]. intros Hs Hpl.
    pose proof (node_identifies info info_none info_plain fuel
                  (Some prev) (Some cand) _ _
                  (strict_reseated _ _ Hs) Hpl Hp) as He.
    by injection He as ->.
  - intros fuel ns2 s prev m m' H1 H2 Hb Hr.
    destruct (wouldMatch_reuse _ _ _ _ _ _ H1 H2 Hb Hr)
      as (window & Hsl & m1 & Hn).
    exists window. split_and!; [exact Hsl|eauto|].
    intros Hs Hpl.
    pose proof (node_identifies info info_none info_plain fuel
                  (Some prev) (Some (listNode window)) _ _ Hs Hpl Hn) as He.
    by injection He as ->.
  - intros fuel w n op a op' b m m' Hw Hi Hn Hnone Hs Hpl Hr.
    rewrite node_some in Hr. unfold bind at 1 in Hr.
    rewrite reseatScope_reseated in Hr. cbn [node_switch] in Hr.
    apply andM_true in Hr as (m2 & Hr & Hy).
    apply andM_true in Hr as (m1 & Hop & Hx).
    injection Hop as Hop <-. apply bool_decide_eq_true in Hop.
    split; [exact Hop|].
    set (m0 := reseated (Some (BinaryExpr a op' b)) m) in *.
    assert (Hs0 : strict m0) by by apply strict_reseated.
    destruct (wildcard_first info fuel w n a m0 Hw Hi Hn (proj1 Hs0) Hnone)
      as (mx & Hx' & Hbx).
    rewrite Hx' in Hx. injection Hx as <-.
    assert (Hsx : strict mx)
      by (eapply strict_framed; [apply framed_node|exact Hs0|exact Hx']).
    assert (Hname : name (info (fromWildName w)) = n) by by rewrite Hi.
    assert (Hprev : bindingsOf mx !! name (info (fromWildName w)) = Some a).
    { rewrite Hname, Hbx. apply lookup_insert_eq. }
    pose proof (wildcard_reuse _ _ _ _ _ _ Hw ltac:(by rewrite Hname) Hprev Hy)
      as Hre.
    pose proof (node_identifies info info_none info_plain fuel
                  (Some a) (Some b) _ _ (strict_reseated _ _ Hsx) Hpl Hre)
      as He.
    by injection He as ->.
Qed.

End Reuse.

(** * Further properties of match.go *)

(** ** More about running the monad *)

Section RunMore.
Context `{Collaborators}.

Lemma bind_assoc {A B C} (c : M A) (k : A -> M B) (k' : B -> M C) m :
  bind (bind c k) k' m = bind c (fun a => bind (k a) k') m.
Proof. unfold bind. destruct (c m); reflexivity. Qed.

Lemma slice_inv l i j r m m' :
  slice l i j m = Ret r m' ->
  (i <= j <= len l)%nat
  /\ r = NodeList (lkind l) (take (j - i) (drop i (elems l))) /\ m' = m.
Proof.
  unfold slice. case_bool_decide as E; [|discriminate].
  intros [= <- <-]. split; [lia|by split].
Qed.

Lemma slice_all (l : nodeList) m : slice l 0 (len l) m = Ret l m.
Proof.
  unfold slice. rewrite bool_decide_eq_true_2 by lia.
  rewrite Nat.sub_0_r, drop_0. unfold len. rewrite firstn_all. by destruct l.
Qed.

Lemma deref_app_l (st : list (gmap string Node)) b r :
  (r < length st)%nat -> deref (st ++ [b]) r = deref st r.
Proof. intros Hr. unfold deref. by rewrite lookup_app_l. Qed.

Lemma bindingsOf_backup m :
  wf m ->
  bindingsOf (Matcher (store m ++ [bindingsOf m]) (values m) (scope m)
                      (aggressive m)) = bindingsOf m.
Proof. intros Hwf. unfold bindingsOf. simpl. by apply deref_app_l. Qed.

Lemma reseated_bindings n m : bindingsOf (reseated n m) = bindingsOf m.
Proof. reflexivity. Qed.

End RunMore.

(** ** What the sequence matcher returns *)

Section Shape.
Context `{Collaborators}.
Variable info : Z -> varInfo.
Variable rec : option Node -> option Node -> M bool.
Variables ns1 ns2 : nodeList.
Variable partial : bool.

Lemma tryPattern_partial_fields s m r m1 :
  partial = false ->
  tryPattern info rec ns1 ns2 partial s m = Ret r m1 ->
  partialStart (afterTry r) = partialStart s
  /\ partialEnd (afterTry r) = partialEnd s.
Proof.
  intros -> Hr. unfold tryPattern in Hr.
  destruct (negb _); [by injection Hr as <- <-|].
  apply bind_inv in Hr as (n1 & m2 & _ & Hr).
  destruct (any (info (fromWildNode n1))).
  - apply bind_inv in Hr as (s1 & m3 & Hb & Hr).
    injection Hb as <- <-. injection Hr as <- <-.
    by destruct (bool_decide _).
  - simpl in Hr. rewrite bind_ret_l in Hr.
    apply bind_inv in Hr as (ok & m3 & _ & Hr).
    destruct ok; by injection Hr as <- <-.
Qed.

Lemma loop_partial_fields k s m s' m' :
  partial = false ->
  loop info rec ns1 ns2 partial k s m = Ret (Some s') m' ->
  partialStart s' = partialStart s /\ partialEnd s' = partialEnd s.
Proof.
  intros Hp. revert s m. induction k as [|k IH]; intros s m Hr; [discriminate|].
  simpl in Hr. destruct (_ || _); [|by injection Hr as <- <-].
  apply bind_inv in Hr as (c & m1 & Hb & Hr).
  unfold loopBody in Hb. apply bind_inv in Hb as (r & m2 & Ht & Hb).
  pose proof (tryPattern_partial_fields _ _ _ _ Hp Ht) as [E1 E2].
  destruct r as [s1|s1]; simpl in E1, E2.
  - injection Hb as <- <-. apply IH in Hr. destruct Hr as [-> ->]. by split.
  - unfold mismatch, atPartialEnd in Hb. rewrite Hp in Hb. simpl in Hb.
    destruct (canRestart ns2 s1).
    + injection Hb as <- <-. apply IH in Hr. simpl in Hr.
      destruct Hr as [-> ->]. by split.
    + injection Hb as <- <-. discriminate.
Qed.

Lemma nodes_range fuel m r m' :
  nodes info rec fuel ns1 ns2 partial m = Ret (Some r) m' ->
  (exists i j, (i <= j <= len ns2)%nat
     /\ r = listNode (NodeList (lkind ns2) (take (j - i) (drop i (elems ns2)))))
  /\ (partial = false -> r = listNode ns2).
Proof.
  intros Hr. unfold nodes in Hr.
  destruct (bool_decide (len ns1 = 0%nat)).
  { case_bool_decide as E2; [|discriminate]. injection Hr as <- <-.
    split; [|done]. exists 0%nat, 0%nat. split; [lia|].
    unfold len in E2. destruct ns2 as [k [|]]; [reflexivity|discriminate]. }
  apply bind_inv in Hr as (s & m1 & Hb & Hr).
  apply bind_inv in Hr as (o & m2 & Hl & Hr).
  destruct o as [s'|]; [|discriminate].
  apply bind_inv in Hr as (w & m3 & Hw & Hr).
  destruct w; [|discriminate]. simpl in Hr.
  apply bind_inv in Hr as (l & m4 & Hs & Hr). injection Hr as <- <-.
  apply slice_inv in Hs as (Hij & -> & ->).
  split; [eauto|].
  intros Hp. injection Hb as <- <-.
  apply (loop_partial_fields _ _ _ _ _ Hp) in Hl. simpl in Hl.
  destruct Hl as [-> ->]. rewrite Nat.sub_0_r, drop_0.
  unfold len. rewrite firstn_all. by destruct ns2.
Qed.
End Shape.

Section TopShape.
Context `{Collaborators}.
Variable info : Z -> varInfo.

(** X1: a successful sequence match returns a contiguous sub-range of the
    candidate list, of the same list type, and outside partial mode it is
    the whole candidate list; so what topNode finds is the candidate
    itself or, for two statement lists, a contiguous sub-range of the
    candidate list. *)
Theorem sequence_result_shape :
  (forall rec fuel ns1 ns2 partial m r m',
     nodes info rec fuel ns1 ns2 partial m = Ret (Some r) m' ->
     (exists i j, (i <= j <= len ns2)%nat
        /\ r = listNode (NodeList (lkind ns2)
                           (take (j - i) (drop i (elems ns2)))))
     /\ (partial = false -> r = listNode ns2))
  /\ (forall fuel e n m r m',
        topNode info fuel e n m = Ret (Some r) m' ->
        r = n
        \/ exists sts i j,
             n = stmtList sts /\ (i <= j <= length sts)%nat
             /\ r = stmtList (take (j - i) (drop i sts))).
Proof.
  split; [intros; by eapply nodes_range|].
  intros fuel e n m r m' Hr. unfold topNode in Hr.
  assert (G : forall (c : M bool),
             (let* ok := c in if ok then ret (Some n) else ret None) m
             = Ret (Some r) m' -> r = n).
  { intros c Hc. apply bind_inv in Hc as ([] & m1 & _ & Hc);
      [by injection Hc as <- _|discriminate]. }
  destruct e; try (left; by eapply G).
  destruct n; try (left; by eapply G).
  right. apply nodes_range in Hr as [(i & j & Hij & ->) _].
  exists l0, i, j. done.
Qed.
End TopShape.

(** ** The pipeline *)

Section Pipeline.
Context `{Collaborators}.
Variable info : Z -> varInfo.
Variable fuel : nat.

Lemma cmdFilter_sublist want cmd ns m out m' :
  cmdFilter info fuel want cmd ns m = Ret out m' -> out `sublist_of` ns.
Proof.
  unfold cmdFilter. rewrite cmdFilter_loop. intros Hr.
  apply bind_inv in Hr as (bs & m1 & _ & Hr). injection Hr as <- _.
  apply select_sublist.
Qed.

(** X2: the pipeline runs its stages from left to right, so running
    cmds1 ++ cmds2 is running cmds1 and then cmds2 on its output; a
    pipeline of filter stages returns a sublist of its input; a pipeline
    of known stages maps no candidates to no candidates and leaves the
    matcher alone; and a stage whose name is none of x, g and v panics, as
    the function of the stage is nil. *)
Theorem matches_pipeline :
  (forall cmds1 cmds2 ns m,
     matches info fuel (cmds1 ++ cmds2) ns m
     = (let* out := matches info fuel cmds1 ns in matches info fuel cmds2 out) m)
  /\ (forall cmds ns m out m',
        forallb filterCmd cmds = true ->
        matches info fuel cmds ns m = Ret out m' -> out `sublist_of` ns)
  /\ (forall cmds m,
        forallb knownCmd cmds = true -> matches info fuel cmds [] m = Ret [] m)
  /\ (forall cmd cmds ns m,
        knownCmd cmd = false ->
        matches info fuel (cmd :: cmds) ns m = Panic NilDereference).
Proof.
  split_and!.
  - intros cmds1 cmds2. induction cmds1 as [|c cmds1 IH]; intros ns m.
    + reflexivity.
    + cbn [app matches]. rewrite bind_assoc.
      set (stage := if bool_decide (cmd_name c = "x") then _ else _).
      unfold bind at 1 2.
      destruct (stage m) as [out m1| |]; [apply IH|reflexivity..].
  - intros cmds. induction cmds as [|c cmds IH]; intros ns m out m' Hf Hr.
    + injection Hr as <- _. reflexivity.
    + cbn [forallb] in Hf. apply andb_true_iff in Hf as [Hc Hf].
      cbn [matches] in Hr. apply bind_inv in Hr as (mid & m1 & Hs & Hr).
      etrans; [eapply IH; eassumption|].
      unfold filterCmd in Hc.
      case_bool_decide as Ex.
      { rewrite Ex in Hc. discriminate Hc. }
      case_bool_decide; [by eapply cmdFilter_sublist|].
      case_bool_decide; [by eapply cmdFilter_sublist|discriminate].
  - intros cmds. induction cmds as [|c cmds IH]; intros m Hk; [reflexivity|].
    cbn [forallb] in Hk. apply andb_true_iff in Hk as [Hc Hk].
    cbn [matches]. unfold knownCmd in Hc.
    repeat case_bool_decide; try discriminate; apply IH; exact Hk.
  - intros cmd cmds ns m Hk. cbn [matches]. unfold knownCmd in Hk.
    repeat case_bool_decide; try discriminate. reflexivity.
Qed.
End Pipeline.

(** ** Patterns the matcher has no case for *)

Section Unsupported.
Context `{Collaborators}.
Variable info : Z -> varInfo.

Lemma unsupported_step fuel x y m :
  unsupported x = true ->
  node info (S fuel) (Some x) (Some y) m = Panic (UnexpectedNode x).
Proof.
  intros Hx. rewrite node_some. unfold bind. rewrite reseatScope_reseated.
  destruct x; try discriminate Hx; reflexivity.
Qed.

Lemma unsupported_fromWildNode x : unsupported x = true -> fromWildNode x = (-1)%Z.
Proof. destruct x; try discriminate; reflexivity. Qed.

(** X3: a pattern node of a type without a case in the type switch of
    matcher.node (a type or import spec, a bad expression, an identifier
    or spec list) panics with "unexpected node" on every candidate that is
    not nil; so a declaration pattern whose first spec is of such a type
    panics on every candidate declaration of its keyword that has a spec. *)
Theorem unsupported_pattern_panics :
  (forall fuel x y m,
     unsupported x = true ->
     node info (S fuel) (Some x) (Some y) m = Panic (UnexpectedNode x))
  /\ (forall fuel tok spec rest y ys m,
        unsupported spec = true -> any (info (-1)%Z) = false ->
        node info (S (S fuel)) (Some (GenDecl tok (spec :: rest)))
             (Some (GenDecl tok (y :: ys))) m
        = Panic (UnexpectedNode spec)).
Proof.
  split; [apply unsupported_step|].
  intros fuel tok spec rest y ys m Hs Hi.
  rewrite node_some. unfold bind at 1. rewrite reseatScope_reseated.
  cbn [node_switch].
  set (m1 := reseated _ m).
  assert (Hrest : (ret (bool_decide (tok = tok))
                   &&& specs info (node info (S fuel)) (S fuel) (spec :: rest)
                         (y :: ys)) m1 = Panic (UnexpectedNode spec)).
  { unfold andM at 1. rewrite bind_ret_l.
    rewrite bool_decide_eq_true_2 by reflexivity.
    unfold specs, notNil, nodes. cbn [len elems length bool_decide].
    rewrite bool_decide_eq_false_2 by (simpl; lia).
    apply bind_panic. unfold bind at 1. rewrite backupMatches_run.
    apply bind_panic. cbn [loop]. simpl "||".
    apply bind_panic. unfold loopBody. apply bind_panic.
    unfold tryPattern. simpl. unfold at_ at 1. simpl. rewrite bind_ret_l.
    rewrite (unsupported_fromWildNode _ Hs), Hi.
    rewrite bind_ret_l. apply bind_panic.
    unfold andM, wouldMatch. simpl. unfold bind, ret, at_. simpl.
    exact (unsupported_step fuel spec y _ Hs). }
  destruct (aggressive m) eqn:Ha.
  - unfold andM at 1. rewrite bind_assoc, bind_ret_l. cbn [andb].
    destruct rest as [|s2 rest].
    + apply bind_panic. by apply unsupported_step.
    + rewrite bind_ret_l. exact Hrest.
  - unfold andM at 1. rewrite bind_assoc, bind_ret_l.
    rewrite bind_ret_l. exact Hrest.
Qed.
End Unsupported.

(** ** Clauses of a select statement *)

Section CommClauses.
Context `{Collaborators}.
Variable info : Z -> varInfo.

Lemma cases_comm_panic rec fuel c b rest stmts2 m :
  isExprStmt c = false -> forallb isClause stmts2 = true ->
  cases info rec fuel (CommClause (Some c) [b] :: rest) stmts2 m
  = Panic TypeAssertion.
Proof.
  intros Hc Hs. unfold cases. rewrite Hs. simpl.
  destruct c; try discriminate Hc; reflexivity.
Qed.

(** X4: matcher.cases asserts that the communication of a pattern clause
    with one body statement is an expression statement.  When the first
    pattern clause has another communication (a send, an assignment) and
    every candidate statement is a clause, the assertion fails and the
    match panics; so does the match of two select statements with such a
    pattern, in both modes. *)
Theorem comm_clause_panics :
  (forall rec fuel c b rest stmts2 m,
     isExprStmt c = false -> forallb isClause stmts2 = true ->
     cases info rec fuel (CommClause (Some c) [b] :: rest) stmts2 m
     = Panic TypeAssertion)
  /\ (forall fuel c b rest ys m,
        isExprStmt c = false -> forallb isClause ys = true ->
        node info (S (S (S fuel)))
             (Some (SelectStmt (BlockStmt (CommClause (Some c) [b] :: rest))))
             (Some (SelectStmt (BlockStmt ys))) m
        = Panic TypeAssertion).
Proof.
  split; [apply cases_comm_panic|].
  intros fuel c b rest ys m Hc Hs.
  rewrite node_some. unfold bind at 1. rewrite reseatScope_reseated.
  cbn [node_switch]. rewrite node_some. unfold bind at 1.
  rewrite reseatScope_reseated. cbn [node_switch].
  set (m1 := reseated _ (reseated _ m)).
  destruct (aggressive (reseated (Some (SelectStmt (BlockStmt ys))) m)) eqn:Ha.
  - unfold andM at 1. rewrite bind_assoc, bind_ret_l.
    unfold bind at 1. rewrite node_some. unfold bind at 1.
    rewrite reseatScope_reseated. cbn [node_switch]. unfold ret at 1.
    cbv beta iota.
    apply bind_panic. by apply cases_comm_panic.
  - unfold andM at 1. rewrite bind_assoc, bind_ret_l. rewrite !bind_ret_l.
    apply bind_panic. by apply cases_comm_panic.
Qed.
End CommClauses.

(** ** Nil operands *)

Section Nil.
Context `{Collaborators}.
Variable info : Z -> varInfo.

(** X5: two nil operands match.  In strict mode a nil operand and one
    that is not nil never match, whatever the pattern.  In aggressive mode
    they match exactly when the operand that is not nil is the blank
    identifier, on either side.  Only the scope of the matcher changes,
    and only for a candidate that opens one. *)
Theorem nil_operands fuel x y m :
  node info (S fuel) None None m = Ret true m
  /\ (aggressive m = false ->
      node info (S fuel) None (Some y) m = Ret false (reseated (Some y) m)
      /\ node info (S fuel) (Some x) None m = Ret false m)
  /\ (aggressive m = true ->
      node info (S fuel) None (Some y) m
      = Ret (isBlank y) (reseated (Some y) m)
      /\ node info (S fuel) (Some x) None m = Ret (isBlank x) m).
Proof.
  rewrite !node_unfold. unfold node_body, bind.
  rewrite !reseatScope_reseated. unfold getAggressive.
  assert (E : reseated None m = m) by (by destruct m).
  rewrite E. cbn [aggressive reseated].
  split_and!.
  - by destruct (aggressive m).
  - intros ->. by split.
  - intros ->. split; cbn [negb isSome andb orb].
    + destruct y; reflexivity.
    + destruct x; reflexivity.
Qed.
End Nil.

(** ** The lists of a node and their positions *)

Section Lists.
Context `{Collaborators}.

Lemma nodeLists_len n l : l ∈ nodeLists n -> (0 < len l)%nat.
Proof.
  unfold nodeLists. destruct n as [[]|]; simpl;
    repeat case_bool_decide; intros Hl; set_unfold in Hl;
    destruct_or?; subst; done.
Qed.

(** X6: every list nodeLists returns has an element; Pos and End of a
    list that has one are those of its first and its last element; and
    Pos and End of an empty list panic with an index out of range. *)
Theorem list_positions :
  (forall n l, l ∈ nodeLists n -> (0 < len l)%nat)
  /\ (forall l m,
        (0 < len l)%nat ->
        exists first_ last_,
          head (elems l) = Some first_ /\ last (elems l) = Some last_
          /\ node_Pos (listNode l) m = Ret (ast_Pos first_) m
          /\ node_End (listNode l) m = Ret (ast_End last_) m)
  /\ (forall k m,
        node_Pos (listNode (NodeList k [])) m = Panic IndexOutOfRange
        /\ node_End (listNode (NodeList k [])) m = Panic IndexOutOfRange).
Proof.
  split_and!.
  - apply nodeLists_len.
  - intros [k l] m Hl. unfold len in Hl. simpl in Hl.
    destruct l as [|a l]; [simpl in Hl; lia|].
    destruct (last (a :: l)) as [z|] eqn:Ez;
      [|by apply last_None in Ez].
    exists a, z. split_and!; [reflexivity|exact Ez| |].
    + by destruct k.
    + assert (E : (a :: l) !! (length (a :: l) - 1)%nat = Some z).
      { rewrite <- Ez. rewrite last_lookup. f_equal. simpl. lia. }
      destruct k; unfold node_End, at_, len; cbn [listNode lkind asNodeList elems];
        rewrite E; reflexivity.
  - intros k m. by destruct k.
Qed.
End Lists.

(** ** A capture that is its own wildcard *)

Section Diverge.
Context `{Collaborators}.
Variable info : Z -> varInfo.

Lemma wildcard_self fuel w n cand m :
  isWildName w = true -> info (fromWildName w) = plainVar n -> n <> "_" ->
  bindingsOf m !! n = Some (Ident w) ->
  node info fuel (Some (Ident w)) (Some cand) m = NoFuel.
Proof.
  intros Hw Hi Hn. revert m. induction fuel as [|fuel IH]; intros m Hb;
    [reflexivity|].
  rewrite node_some. unfold bind at 1. rewrite reseatScope_reseated.
  cbn [node_switch]. unfold identCase. rewrite Hw, Hi. simpl.
  rewrite bool_decide_eq_false_2 by exact Hn.
  rewrite bind_ret_l. simpl. rewrite bind_lookupValue.
  rewrite reseated_bindings, Hb. apply IH. exact Hb.
Qed.

(** X7: when a named wildcard is bound to an identifier that carries the
    wildcard's own name, every later use of the wildcard calls
    matcher.node on the same pattern again and never returns; so $x op $x
    never returns on a candidate whose left operand is that identifier. *)
Theorem self_capture_diverges w n :
  isWildName w = true -> info (fromWildName w) = plainVar n -> n <> "_" ->
  (forall fuel cand m,
     bindingsOf m !! n = Some (Ident w) ->
     node info fuel (Some (Ident w)) (Some cand) m = NoFuel)
  /\ (forall fuel op c m,
        wf m -> bindingsOf m !! n = None ->
        node info fuel (Some (BinaryExpr (Ident w) op (Ident w)))
             (Some (BinaryExpr (Ident w) op c)) m = NoFuel).
Proof.
  intros Hw Hi Hn. split; [intros; by eapply wildcard_self|].
  intros [|[|fuel]] op c m Hwf Hb; [reflexivity| |].
  - rewrite node_some. unfold bind at 1. rewrite reseatScope_reseated.
    cbn [node_switch]. unfold andM. rewrite bind_assoc, bind_ret_l.
    rewrite bool_decide_eq_true_2 by reflexivity. reflexivity.
  - rewrite node_some. unfold bind at 1. rewrite reseatScope_reseated.
    cbn [node_switch]. unfold andM. rewrite bind_assoc, bind_ret_l.
    rewrite bool_decide_eq_true_2 by reflexivity.
    set (m0 := reseated _ m).
    destruct (wildcard_first info fuel w n (Ident w) m0 Hw Hi Hn Hwf Hb)
      as (m1 & Hx & Hb1).
    unfold bind at 1. rewrite Hx.
    eapply wildcard_self; try eassumption.
    rewrite Hb1. apply lookup_insert_eq.
Qed.
End Diverge.

(** ** The loop of the sequence matcher ends *)

Section Termination.
Context `{Collaborators}.
Variable info : Z -> varInfo.
Variable rec : option Node -> option Node -> M bool.
Variables ns1 ns2 : nodeList.
Variable partial : bool.
Hypothesis rec_returns : forall e n m, rec e n m <> NoFuel.

Lemma bind_returns {A B} (c : M A) (k : A -> M B) m :
  c m <> NoFuel -> (forall a m', c m = Ret a m' -> k a m' <> NoFuel) ->
  bind c k m <> NoFuel.
Proof.
  unfold bind. intros Hc Hk. destruct (c m) as [a m'| |]; [by apply Hk|done..].
Qed.

Lemma slice_returns l i j m : slice l i j m <> NoFuel.
Proof. unfold slice. by case_bool_decide. Qed.

Lemma at_returns l i m : at_ l i m <> NoFuel.
Proof. unfold at_. by destruct (elems l !! i). Qed.

Lemma wouldMatch_returns s m : wouldMatch rec ns2 s m <> NoFuel.
Proof.
  unfold wouldMatch. destruct (_ || _); [done|].
  apply bind_returns; [apply slice_returns|]. intros l m1 _.
  rewrite bind_lookupValue.
  apply bind_returns.
  - destruct (bindingsOf m1 !! wildName s); [|done].
    apply bind_returns; [apply rec_returns|done].
  - intros bad m2 _. by destruct bad.
Qed.

Lemma andM_returns (a b : M bool) m :
  a m <> NoFuel -> (forall m', b m' <> NoFuel) -> andM a b m <> NoFuel.
Proof.
  intros Ha Hb. apply bind_returns; [exact Ha|]. intros [] m' _; [apply Hb|done].
Qed.

Lemma tryPattern_returns s m :
  tryPattern info rec ns1 ns2 partial s m <> NoFuel.
Proof.
  unfold tryPattern. destruct (negb _); [done|].
  apply bind_returns; [apply at_returns|]. intros n1 m1 _.
  destruct (any (info (fromWildNode n1))); [done|].
  apply bind_returns; [by destruct (partial && _)|]. intros s1 m2 _.
  apply bind_returns; [|by intros []].
  apply andM_returns; [apply andM_returns; [done|apply wouldMatch_returns]|].
  intros m'. apply bind_returns; [apply at_returns|]. intros; apply rec_returns.
Qed.

Lemma loopBody_returns s m :
  loopBody info rec ns1 ns2 partial s m <> NoFuel.
Proof.
  unfold loopBody. apply bind_returns; [apply tryPattern_returns|].
  intros [s1|s1] m1 _; [done|]. unfold mismatch.
  destruct (atPartialEnd _ _ _); [done|]. by destruct (canRestart _ _).
Qed.

(* the cursors after the first statement of the loop body *)
Lemma tryPattern_cursor s m r m' :
  tryPattern info rec ns1 ns2 partial s m = Ret r m' ->
  match r with
  | inl s' =>
      exists n1, elems ns1 !! i1 s = Some n1
        /\ i1 s' = (i1 s + 1)%nat
        /\ if any (info (fromWildNode n1))
           then i2 s' = i2 s /\ next1 s' = i1 s /\ next2 s' = (i2 s + 1)%nat
           else (i2 s < len ns2)%nat /\ i2 s' = (i2 s + 1)%nat
                /\ next1 s' = next1 s
                /\ next2 s' = (if partial && bool_decide (i1 s = 0%nat)
                               then i2 s + 1 else next2 s)%nat
  | inr s' =>
      i1 s' = i1 s /\ i2 s' = i2 s /\ next1 s' = next1 s
      /\ next2 s' = (if bool_decide (i1 s < len ns1)%nat && partial
                        && bool_decide (i1 s = 0%nat)
                     then i2 s + 1 else next2 s)%nat
  end.
Proof.
  intros Hr. unfold tryPattern in Hr.
  case_bool_decide as Hlt; simpl in Hr.
  2:{ injection Hr as <- <-. by rewrite !andb_false_l. }
  apply bind_inv in Hr as (n1 & m1 & Hat & Hr).
  unfold at_ in Hat. destruct (elems ns1 !! i1 s) as [n|] eqn:En; [|discriminate].
  injection Hat as -> ->.
  destruct (any (info (fromWildNode n1))) eqn:Hany.
  - apply bind_inv in Hr as (s1 & m2 & Hb & Hr). injection Hb as <- <-.
    injection Hr as <- <-. exists n1. rewrite Hany.
    split; [reflexivity|]. by destruct (bool_decide _).
  - apply bind_inv in Hr as (s1 & m2 & Hb & Hr).
    apply bind_inv in Hr as (ok & m3 & Hok & Hr).
    assert (Hs1 : i1 s1 = i1 s /\ i2 s1 = i2 s /\ next1 s1 = next1 s
                  /\ next2 s1 = (if partial && bool_decide (i1 s = 0%nat)
                                 then i2 s + 1 else next2 s)%nat).
    { destruct (partial && _); injection Hb as <- <-; done. }
    destruct Hs1 as (E1 & E2 & E3 & E4).
    destruct ok; injection Hr as <- <-.
    + exists n1. rewrite Hany. simpl. rewrite E1, E2, E3, E4.
      split; [reflexivity|]. split; [reflexivity|].
      apply andM_true in Hok as (m4 & Hok & _).
      apply andM_true in Hok as (m5 & Hok & _).
      injection Hok as Hok _. apply bool_decide_eq_true in Hok.
      split; [lia|done].
    + simpl. by rewrite E1, E2, E3, E4.
Qed.

Local Abbreviation inv := (cursorInv info ns1 ns2 partial).
Local Abbreviation rank := (cursorRank ns1 ns2).

Lemma rank_checkpoint s s' :
  (next1 s' = next1 s) -> (next2 s' = next2 s) ->
  atCheckpoint s = false -> atCheckpoint s' = true ->
  (i1 s <= len ns1)%nat ->
  (rank s' < rank s)%nat.
Proof.
  unfold cursorRank. intros -> -> -> -> ?. lia.
Qed.

Lemma rank_advance s s' :
  (next1 s' = next1 s) -> (next2 s' = next2 s) ->
  atCheckpoint s = false -> (i1 s < i1 s' <= len ns1)%nat ->
  (rank s' < rank s)%nat.
Proof.
  unfold cursorRank. intros -> -> -> ?. destruct (atCheckpoint s'); lia.
Qed.

Lemma rank_next s s' :
  (next1 s <= len ns1)%nat -> (next2 s <= len ns2 + 1)%nat ->
  (next1 s' <= len ns1)%nat -> (next2 s' <= len ns2 + 1)%nat ->
  (i1 s' <= len ns1)%nat ->
  (next1 s < next1 s' \/ (next1 s = next1 s' /\ next2 s < next2 s'))%nat ->
  (rank s' < rank s)%nat.
Proof.
  unfold cursorRank. intros ? ? ? ? ? Hlt.
  set (a := len ns1) in *. set (b := len ns2) in *.
  assert (E : (next1 s * (b + 2) + next2 s + 1
               <= next1 s' * (b + 2) + next2 s')%nat) by nia.
  assert (E' : (next1 s' * (b + 2) + next2 s' <= (a + 1) * (b + 2))%nat) by nia.
  destruct (atCheckpoint s), (atCheckpoint s'); nia.
Qed.

Lemma loopBody_cursor s m s' m' :
  inv s -> loopBody info rec ns1 ns2 partial s m = Ret (Continue s') m' ->
  inv s' /\ (rank s' < rank s)%nat.
Proof.
  intros (Hi1 & Hi2 & Hn2 & Hj & Hck) Hr. unfold loopBody in Hr.
  apply bind_inv in Hr as (r & m1 & Ht & Hr).
  apply tryPattern_cursor in Ht.
  destruct r as [s1|s1].
  - injection Hr as <- <-. destruct Ht as (n1 & En & E1 & Ht).
    assert (Hlt : (i1 s < len ns1)%nat) by (by eapply lookup_lt_Some).
    destruct (any (info (fromWildNode n1))) eqn:Hany.
    + destruct Ht as (E2 & E3 & E4). split.
      * unfold cursorInv. rewrite E1, E2, E3, E4. split_and!; try lia.
        intros _. unfold backsUp. simpl. rewrite En, Hany. reflexivity.
      * apply rank_next; lia.
    + destruct Ht as (Hlt2 & E2 & E3 & E4).
      destruct (partial && bool_decide (i1 s = 0%nat)) eqn:Hp.
      * apply andb_true_iff in Hp as [-> Hz%bool_decide_eq_true].
        split.
        -- unfold cursorInv. rewrite E1, E2, E3, E4. split_and!; try lia.
           intros _. unfold backsUp. simpl.
           assert (next1 s = 0%nat) as -> by lia. rewrite Hz in En.
           rewrite En, Hany. reflexivity.
        -- apply rank_next; lia.
      * split.
        -- unfold cursorInv. rewrite E1, E2, E3, E4. split_and!; try lia.
           intros Hpos. specialize (Hck Hpos). unfold backsUp in *.
           simpl in *. exact Hck.
        -- destruct (atCheckpoint s) eqn:Hc.
           ++ (* a pass from the checkpoint takes a snapshot *)
              unfold atCheckpoint in Hc.
              apply andb_true_iff in Hc as [Hc _].
              apply andb_true_iff in Hc as [Hpos%bool_decide_eq_true
                                              He%bool_decide_eq_true].
              specialize (Hck Hpos). unfold backsUp in Hck. simpl in Hck.
              rewrite <- He, En, Hany in Hck. simpl in Hck.
              rewrite Hck in Hp. discriminate Hp.
           ++ apply rank_advance; try lia. exact Hc.
  - destruct Ht as (E1 & E2 & E3 & E4).
    unfold mismatch in Hr. destruct (atPartialEnd _ _ _); [discriminate|].
    destruct (canRestart ns2 s1) eqn:Hcr; [|discriminate].
    injection Hr as <- <-.
    unfold canRestart in Hcr.
    apply andb_true_iff in Hcr as [Hcr Hne].
    apply andb_true_iff in Hcr as [Hpos%bool_decide_eq_true
                                     Hle%bool_decide_eq_true].
    assert (Hne' : i1 s1 <> next1 s1 \/ i2 s1 <> next2 s1).
    { apply orb_true_iff in Hne as [Hne|Hne]; apply bool_decide_eq_true in Hne;
        [by left|by right]. }
    set (fresh := bool_decide (i1 s < len ns1)%nat && partial
                  && bool_decide (i1 s = 0%nat)) in *.
    assert (Hck1 : backsUp info ns1 partial
                     (set_i (next1 s1) (next2 s1) s1) = true).
    { unfold backsUp. simpl. rewrite E3.
      destruct fresh eqn:Hf.
      - apply andb_true_iff in Hf as [Hf Hz%bool_decide_eq_true].
        apply andb_true_iff in Hf as [Hlt%bool_decide_eq_true ->].
        assert (next1 s = 0%nat) as -> by lia.
        destruct (elems ns1 !! 0%nat) eqn:E0.
        + simpl. rewrite orb_true_r. reflexivity.
        + apply lookup_ge_None in E0. unfold len in Hlt. lia.
      - rewrite E4 in Hpos. specialize (Hck Hpos). unfold backsUp in Hck.
        simpl in Hck. exact Hck. }
    split.
    + unfold cursorInv. simpl. split_and!; try lia.
      intros _. exact Hck1.
    + destruct fresh eqn:Hf.
      * (* the pass took a snapshot before it failed *)
        apply andb_true_iff in Hf as [Hf Hz%bool_decide_eq_true].
        apply rank_next; simpl; lia.
      * apply rank_checkpoint; simpl; try lia.
        -- unfold atCheckpoint. rewrite <- E1, <- E2, <- E3, <- E4.
           destruct Hne' as [Hne'|Hne'];
             [rewrite (bool_decide_eq_false_2 _ Hne'), andb_false_r
             |rewrite (bool_decide_eq_false_2 _ Hne'), andb_false_r];
             reflexivity.
        -- unfold atCheckpoint. simpl.
           rewrite !bool_decide_eq_true_2 by (reflexivity || lia). reflexivity.
Qed.

Lemma loop_returns k s m :
  inv s -> (rank s < k)%nat ->
  loop info rec ns1 ns2 partial k s m <> NoFuel.
Proof.
  revert s m. induction k as [|k IH]; intros s m Hi Hk; [lia|].
  cbn [loop]. destruct (_ || _); [|done].
  apply bind_returns; [apply loopBody_returns|].
  intros [s1|s1|] m1 Hb; [|done..].
  apply loopBody_cursor in Hb as [Hi1 Hlt]; [|exact Hi].
  apply IH; [exact Hi1|lia].
Qed.

(** X8: the loop of matcher.nodes ends: when the calls of matcher.node
    return, a call of matcher.nodes makes fewer than passBound passes
    through its loop, a number that depends on the lengths of the two
    lists only. *)
Theorem nodes_pass_bound fuel m :
  (passBound ns1 ns2 < fuel)%nat ->
  nodes info rec fuel ns1 ns2 partial m <> NoFuel.
Proof.
  intros Hf. unfold nodes.
  destruct (bool_decide (len ns1 = 0%nat)); [by destruct (bool_decide _)|].
  apply bind_returns; [done|]. intros s m1 Hb.
  injection Hb as <- <-.
  apply bind_returns.
  - apply loop_returns.
    + unfold cursorInv. simpl. split_and!; lia.
    + unfold cursorRank, passBound, atCheckpoint in *. simpl. lia.
  - intros [s'|] m2 _; [|done].
    apply bind_returns; [apply wouldMatch_returns|].
    intros [] m3 _; [|done]. simpl.
    apply bind_returns; [apply slice_returns|done].
Qed.
End Termination.

(** ** Pattern lists without a multi-wildcard *)

Section FixedLength.
Context `{Collaborators}.
Variable info : Z -> varInfo.
Variable rec : option Node -> option Node -> M bool.
Variables ns1 ns2 : nodeList.
Hypothesis no_multi :
  forall n, n ∈ elems ns1 -> any (info (fromWildNode n)) = false.

Lemma loop_fixed k s m s' m' :
  i2 s = i1 s -> next2 s = 0%nat ->
  loop info rec ns1 ns2 false k s m = Ret (Some s') m' ->
  i2 s' = i1 s' /\ (len ns1 <= i1 s')%nat /\ (len ns2 <= i2 s')%nat
  /\ (i1 s <= len ns1 -> i1 s' <= len ns1)%nat
  /\ (i2 s <= len ns2 -> i2 s' <= len ns2)%nat.
Proof.
  revert s m. induction k as [|k IH]; intros s m Hi Hn Hr; [discriminate|].
  cbn [loop] in Hr.
  destruct (bool_decide (i1 s < len ns1)%nat || bool_decide (i2 s < len ns2)%nat)
    eqn:Hc.
  2:{ injection Hr as <- <-. apply orb_false_iff in Hc as [H1 H2].
      apply bool_decide_eq_false in H1, H2. split_and!; lia. }
  apply bind_inv in Hr as (c & m1 & Hb & Hr).
  unfold loopBody in Hb. apply bind_inv in Hb as (r & m2 & Ht & Hb).
  apply tryPattern_cursor in Ht. destruct r as [s1|s1].
  - injection Hb as <- <-. destruct Ht as (n1 & En & E1 & Ht).
    rewrite (no_multi n1) in Ht by (by eapply list_elem_of_lookup_2).
    destruct Ht as (Hlt & E2 & E3 & E4). simpl in E4.
    apply lookup_lt_Some in En.
    apply IH in Hr; [|lia|lia]. unfold len in *. split_and!; lia.
  - destruct Ht as (E1 & E2 & E3 & E4).
    rewrite andb_false_r in E4. simpl in E4.
    unfold mismatch in Hb. simpl in Hb. unfold canRestart in Hb.
    rewrite (bool_decide_eq_false_2 (0 < next2 s1)%nat) in Hb by lia.
    simpl in Hb. injection Hb as <- <-. discriminate.
Qed.

(** X9: outside partial mode a pattern list without a multi-wildcard
    matches only a candidate list of its own length, and the result is
    that candidate list. *)
Theorem fixed_length_patterns fuel m r m' :
  nodes info rec fuel ns1 ns2 false m = Ret (Some r) m' ->
  len ns1 = len ns2 /\ r = listNode ns2.
Proof.
  intros Hr. split; [|by eapply nodes_range].
  unfold nodes in Hr.
  case_bool_decide as E1.
  { case_bool_decide as E2; [congruence|discriminate]. }
  apply bind_inv in Hr as (s & m1 & Hb & Hr). injection Hb as <- <-.
  apply bind_inv in Hr as (o & m2 & Hl & Hr).
  destruct o as [s'|]; [|discriminate].
  apply loop_fixed in Hl; [|reflexivity..]. simpl in Hl. lia.
Qed.
End FixedLength.

(** ** Single passes through the loop *)

Section Passes.
Context `{Collaborators}.
Variable info : Z -> varInfo.
Variable rec : option Node -> option Node -> M bool.
Variables ns1 ns2 : nodeList.
Variable partial : bool.

Lemma loop_S k s m :
  loop info rec ns1 ns2 partial (S k) s m
  = if bool_decide (i1 s < len ns1)%nat || bool_decide (i2 s < len ns2)%nat
    then (let* c := loopBody info rec ns1 ns2 partial s in
          match c with
          | Continue s => loop info rec ns1 ns2 partial k s
          | Break s => ret (Some s)
          | ReturnNil => ret None
          end) m
    else Ret (Some s) m.
Proof. cbn [loop]. by destruct (_ || _). Qed.

(* a pass over a multi-wildcard *)
Lemma loopBody_wild s m p :
  elems ns1 !! i1 s = Some p -> any (info (fromWildNode p)) = true ->
  loopBody info rec ns1 ns2 partial s m
  = Ret (Continue
           (set_i (i1 s + 1) (i2 s)
              (set_oldMatches (length (store m))
                 (set_next (i1 s) (i2 s + 1)
                    (if bool_decide (name (info (fromWildNode p)) ≠ wildName s)
                     then set_wild (name (info (fromWildNode p))) (i2 s) s
                     else s)))))
        (Matcher (store m ++ [bindingsOf m]) (values m) (scope m)
                 (aggressive m)).
Proof.
  intros Hp Hany. unfold loopBody, tryPattern.
  rewrite bool_decide_eq_true_2 by (by eapply lookup_lt_Some).
  cbn [negb]. unfold at_. rewrite Hp. rewrite bind_assoc, bind_ret_l.
  rewrite Hany. rewrite bind_assoc. unfold bind at 1.
  rewrite backupMatches_run. cbv beta iota. rewrite !bind_ret_l.
  by destruct (bool_decide _).
Qed.

(* a pass that ends in a restart after the pattern is used up *)
Lemma loopBody_restart s m :
  (len ns1 <= i1 s)%nat -> atPartialEnd ns1 partial s = false ->
  canRestart ns2 s = true ->
  loopBody info rec ns1 ns2 partial s m
  = Ret (Continue (set_i (next1 s) (next2 s) s))
        (Matcher (store m) (oldMatches s) (scope m) (aggressive m)).
Proof.
  intros Hi Hpe Hcr. unfold loopBody, tryPattern.
  rewrite bool_decide_eq_false_2 by lia. cbn [negb].
  rewrite bind_ret_l. unfold mismatch. rewrite Hpe, Hcr. reflexivity.
Qed.

(* a pass over an ordinary element that matches, outside the first
   position of partial mode *)
Lemma loopBody_match s m p n2 m1 m2 :
  elems ns1 !! i1 s = Some p -> any (info (fromWildNode p)) = false ->
  partial && bool_decide (i1 s = 0%nat) = false ->
  elems ns2 !! i2 s = Some n2 ->
  wouldMatch rec ns2 s m = Ret true m1 ->
  rec (Some p) (Some n2) m1 = Ret true m2 ->
  loopBody info rec ns1 ns2 partial s m
  = Ret (Continue (set_i (i1 s + 1) (i2 s + 1) (set_wild "" (wildStart s) s)))
        m2.
Proof.
  intros Hp Hany Hpar Hn2 Hw Hr. unfold loopBody, tryPattern.
  rewrite bool_decide_eq_true_2 by (by eapply lookup_lt_Some).
  cbn [negb]. unfold at_ at 1. rewrite Hp. rewrite bind_assoc, bind_ret_l.
  rewrite Hany, Hpar. rewrite bind_assoc, bind_ret_l.
  rewrite bind_assoc. unfold bind at 1.
  assert (E : (ret (bool_decide (i2 s < len ns2)%nat) &&& wouldMatch rec ns2 s
               &&& (let* n2 := at_ ns2 (i2 s) in rec (Some p) (Some n2))) m
              = Ret true m2).
  { unfold andM. rewrite !bind_assoc, bind_ret_l.
    rewrite bool_decide_eq_true_2 by (by eapply lookup_lt_Some).
    unfold bind at 1. rewrite Hw. cbv beta iota.
    unfold at_. rewrite Hn2. rewrite bind_ret_l. exact Hr. }
  rewrite E. reflexivity.
Qed.

(* a pass over an ordinary element that does not match and ends in a
   restart *)
Lemma loopBody_fail_restart s m p m1 :
  elems ns1 !! i1 s = Some p -> any (info (fromWildNode p)) = false ->
  partial && bool_decide (i1 s = 0%nat) = false ->
  (ret (bool_decide (i2 s < len ns2)%nat) &&& wouldMatch rec ns2 s
   &&& (let* n2 := at_ ns2 (i2 s) in rec (Some p) (Some n2))) m
  = Ret false m1 ->
  atPartialEnd ns1 partial s = false -> canRestart ns2 s = true ->
  loopBody info rec ns1 ns2 partial s m
  = Ret (Continue (set_i (next1 s) (next2 s) s))
        (Matcher (store m1) (oldMatches s) (scope m1) (aggressive m1)).
Proof.
  intros Hp Hany Hpar Hok Hpe Hcr. unfold loopBody, tryPattern.
  rewrite bool_decide_eq_true_2 by (by eapply lookup_lt_Some).
  cbn [negb]. unfold at_ at 1. rewrite Hp. rewrite bind_assoc, bind_ret_l.
  rewrite Hany, Hpar. rewrite bind_assoc, bind_ret_l.
  rewrite bind_assoc. unfold bind at 1. rewrite Hok. cbv beta iota.
  rewrite bind_ret_l. unfold mismatch. rewrite Hpe, Hcr. reflexivity.
Qed.

End Passes.

(** ** A multi-wildcard on its own *)

Section LoneWildcard.
Context `{Collaborators}.
Variable info : Z -> varInfo.
Variable rec : option Node -> option Node -> M bool.
Variable k : listKind.
Variable p : Node.
Variable ns2 : nodeList.
Variable partial : bool.
Variable a : string.
Hypothesis p_any : any (info (fromWildNode p)) = true.
Hypothesis p_name : name (info (fromWildNode p)) = a.
Hypothesis a_named : a <> "".

Local Abbreviation ns1 := (NodeList k [p]).
Local Abbreviation loop' := (loop info rec ns1 ns2 partial).

(* the state after the pass over the wildcard that tries the window
   [0, j) *)
Local Abbreviation grown := (fun j old =>
  LoopState 1 j 0 (j + 1) a 0 0 (len ns2) old).

(* one more candidate: a restart and the pass over the wildcard again *)
Lemma grow_step n j old m :
  (j < len ns2)%nat ->
  loop' (S (S n)) (grown j old) m
  = loop' n (grown (j + 1) (length (store m)))
      (Matcher (store m ++ [deref (store m) old]) old (scope m) (aggressive m)).
Proof.
  intros Hj. rewrite loop_S. cbn [i1 i2 len elems length].
  rewrite (bool_decide_eq_true_2 (j < _)%nat) by exact Hj.
  rewrite orb_true_r.
  unfold bind at 1. rewrite loopBody_restart; cycle 1.
  { unfold len. simpl. lia. }
  { unfold atPartialEnd. cbn [wildName].
    rewrite (bool_decide_eq_false_2 (a = "")) by exact a_named.
    by rewrite andb_false_r. }
  { unfold canRestart. cbn [i1 i2 next1 next2].
    rewrite !bool_decide_eq_true_2 by lia. reflexivity. }
  cbv beta iota. rewrite loop_S. cbn [i1 i2 set_i next1 next2 len elems length].
  rewrite (bool_decide_eq_true_2 (0 < 1)%nat) by lia. cbn [orb].
  unfold bind at 1. rewrite (loopBody_wild _ _ _ _ _ _ _ p); cycle 1.
  { reflexivity. }
  { exact p_any. }
  cbv beta iota. rewrite p_name. cbn [wildName set_i].
  rewrite (bool_decide_eq_false_2 (a ≠ a)) by (intros E; by apply E).
  reflexivity.
Qed.

Lemma grow_all n j old m :
  (j <= len ns2)%nat -> (2 * (len ns2 - j) < n)%nat ->
  (old < length (store m))%nat ->
  exists old' st' v',
    loop' n (grown j old) m
    = Ret (Some (grown (len ns2) old'))
          (Matcher st' v' (scope m) (aggressive m))
    /\ deref st' v'
       = (if bool_decide (j = len ns2) then bindingsOf m
          else deref (store m) old)
    /\ (wf m -> (v' < length st')%nat).
Proof.
  revert j old m. induction n as [n IH] using lt_wf_ind.
  intros j old m Hj Hn Hold.
  destruct (decide (j = len ns2)) as [->|Hne].
  - destruct n as [|n]; [lia|]. rewrite loop_S. cbn [i1 i2 len elems length].
    rewrite !bool_decide_eq_false_2 by lia. cbn [orb].
    rewrite bool_decide_eq_true_2 by reflexivity.
    exists old, (store m), (values m). destruct m.
    split; [reflexivity|]. split; [reflexivity|done].
  - destruct n as [|[|n]]; [lia..|].
    rewrite grow_step by lia.
    edestruct (IH n ltac:(lia) (j + 1)%nat (length (store m))
                 (Matcher (store m ++ [deref (store m) old]) old (scope m)
                    (aggressive m)))
      as (old' & st' & v' & E & Hv & Hw).
    { lia. } { lia. }
    { simpl. rewrite length_app. simpl. lia. }
    exists old', st', v'. rewrite E. cbn [values scope aggressive store] in *.
    rewrite (bool_decide_eq_false_2 (j = _)) by exact Hne.
    split; [reflexivity|]. split.
    + rewrite Hv. unfold bindingsOf. cbn [store values].
      rewrite deref_new, deref_app_l by exact Hold.
      case_bool_decide; reflexivity.
    + intros _. apply Hw. unfold wf. simpl. rewrite length_app. simpl. lia.
Qed.

(* the loop of matcher.nodes on the pattern list [p] *)
Lemma lone_loop fuel m :
  wf m -> (2 * len ns2 + 1 < fuel)%nat ->
  exists s0 m0 old' m',
    backupMatches (LoopState 0 0 0 0 "" 0 0 (len ns2) 0) m = Ret s0 m0
    /\ loop' fuel s0 m0 = Ret (Some (grown (len ns2) old')) m'
    /\ wf m' /\ bindingsOf m' = bindingsOf m.
Proof.
  intros Hwf Hf.
  set (m1 := Matcher (store m ++ [bindingsOf m]) (values m) (scope m)
                     (aggressive m)).
  set (s0 := set_oldMatches (length (store m))
               (LoopState 0 0 0 0 "" 0 0 (len ns2) 0)).
  assert (Hwf1 : wf m1)
    by (unfold wf, m1; simpl; rewrite length_app; unfold wf in Hwf; lia).
  enough (exists old' m', loop' fuel s0 m1
                          = Ret (Some (grown (len ns2) old')) m'
                          /\ wf m' /\ bindingsOf m' = bindingsOf m)
    as (old' & m' & E) by (exists s0, m1, old', m'; by split).
  destruct fuel as [|n]; [lia|]. rewrite loop_S.
  cbn [i1 i2 s0 set_oldMatches len elems length].
  rewrite (bool_decide_eq_true_2 (0 < 1)%nat) by lia. cbn [orb].
  unfold bind at 1. rewrite (loopBody_wild _ _ _ _ _ _ _ p); cycle 1.
  { reflexivity. } { exact p_any. }
  cbv beta iota. rewrite p_name. cbn [wildName set_oldMatches].
  rewrite (bool_decide_eq_true_2 (a ≠ "")) by exact a_named.
  cbn [set_wild set_next set_i i1 i2 next1 next2 wildName wildStart
       partialStart partialEnd oldMatches Nat.add].
  set (m2 := Matcher _ _ _ _).
  destruct (grow_all n 0 (length (store m1)) m2)
    as (old' & st' & v' & E & Hv & Hw); [lia|lia| |].
  { unfold m2. simpl. rewrite !length_app. simpl. lia. }
  assert (Hwf2 : wf m2)
    by (unfold wf, m2 in *; simpl in *; rewrite length_app; lia).
  assert (Hb2 : bindingsOf m2 = bindingsOf m).
  { transitivity (bindingsOf m1);
      [exact (bindingsOf_backup m1 Hwf1)|exact (bindingsOf_backup m Hwf)]. }
  exists old'. eexists. split; [exact E|]. split; [by apply Hw|].
  unfold bindingsOf at 1. cbn [store values]. rewrite Hv.
  case_bool_decide; [exact Hb2|].
  unfold m2. cbn [store]. rewrite deref_new. by apply bindingsOf_backup.
Qed.

(** X10: a pattern list that is one multi-wildcard matches every
    candidate list, in partial mode or outside it, after a pass over the
    wildcard and a restart for every candidate: the result is the whole
    list, a wildcard named _ binds nothing, and a wildcard whose name is
    not bound yet is bound to the whole list. *)
Theorem lone_multi_wildcard fuel m :
  wf m -> (2 * len ns2 + 1 < fuel)%nat ->
  (a = "_" ->
   exists m', nodes info rec fuel ns1 ns2 partial m
              = Ret (Some (listNode ns2)) m'
              /\ bindingsOf m' = bindingsOf m)
  /\ (a <> "_" -> bindingsOf m !! a = None ->
      exists m', nodes info rec fuel ns1 ns2 partial m
                 = Ret (Some (listNode ns2)) m'
                 /\ bindingsOf m' = <[a := listNode ns2]> (bindingsOf m)).
Proof.
  intros Hwf Hf.
  destruct (lone_loop fuel m Hwf Hf)
    as (s0 & m0 & old' & m1 & E0 & E & Hwf1 & Hb1).
  assert (En : forall X, nodes info rec fuel ns1 ns2 partial m
                 = (let* w := wouldMatch rec ns2 (grown (len ns2) old') in
                    if negb w then ret None
                    else let* l := slice ns2 0 (len ns2) in
                         ret (Some (listNode l))) m1 \/ X).
  { intros X. left. unfold nodes. cbn [len elems length bool_decide].
    rewrite bool_decide_eq_false_2 by lia.
    unfold bind at 1. rewrite E0. unfold bind at 1. rewrite E. reflexivity. }
  split.
  - intros Ha. destruct (En False) as [->|[]].
    unfold wouldMatch. cbn [wildName].
    rewrite (bool_decide_eq_true_2 (a = "_")) by exact Ha.
    rewrite orb_true_r, bind_ret_l. cbn [negb].
    unfold bind. rewrite slice_all. eauto.
  - intros Ha Hnone. destruct (En False) as [->|[]].
    unfold wouldMatch. cbn [wildName wildStart i2].
    rewrite !bool_decide_eq_false_2 by assumption. cbn [orb].
    rewrite bind_assoc. unfold bind at 1. rewrite slice_all.
    rewrite bind_assoc, bind_lookupValue, Hb1, Hnone.
    rewrite bind_assoc, bind_ret_l. cbv iota.
    destruct (storeValue_bindings a (listNode ns2) m1 Hwf1)
      as (m2 & Hs & Hb2 & _).
    rewrite bind_assoc. unfold bind at 1. rewrite Hs.
    rewrite !bind_ret_l. cbn [negb]. unfold bind. rewrite slice_all.
    exists m2. split; [reflexivity|]. by rewrite Hb2, Hb1.
Qed.

End LoneWildcard.

(** ** A multi-wildcard before a single wildcard *)

Section WindowReset.
Context `{Collaborators}.
Variable info : Z -> varInfo.
Variable f : nat.
Variable k : listKind.
Variable p : Node.
Variables w a b : string.
Variable ns2 : nodeList.
Variable b0 : gmap string Node.
Hypothesis p_any : any (info (fromWildNode p)) = true.
Hypothesis p_name : name (info (fromWildNode p)) = a.
Hypothesis a_named : a <> "".
Hypothesis a_kept : a <> "_".
Hypothesis w_wild : isWildName w = true.
Hypothesis w_info : info (fromWildName w) = plainVar b.
Hypothesis b_kept : b <> "_".
Hypothesis b_other : b <> a.
Hypothesis a_free : b0 !! a = None.
Hypothesis b_free : b0 !! b = None.

Local Abbreviation rec := (node info (S f)).
Local Abbreviation ns1 := (NodeList k [p; Ident w]).
Local Abbreviation loop' := (loop info rec ns1 ns2 false).
Local Abbreviation nothing := (listNode (NodeList (lkind ns2) [])).

(* the state when the single wildcard is tried on candidate j *)
Local Abbreviation trying := (fun j old =>
  LoopState 1 j 0 (j + 1) a j 0 (len ns2) old).

(* what holds of the matcher then: the checkpoint and m.values are
   different maps and both hold the bindings of the start *)
Local Abbreviation ready := (fun old m =>
  wf m /\ (old < length (store m))%nat /\ old <> values m
  /\ deref (store m) old = b0 /\ bindingsOf m = b0).

Lemma slice_empty j m :
  (j <= len ns2)%nat ->
  slice ns2 j j m = Ret (NodeList (lkind ns2) []) m.
Proof.
  intros Hj. unfold slice. rewrite bool_decide_eq_true_2 by lia.
  by rewrite Nat.sub_diag, take_0.
Qed.

(* the pass over the single wildcard: the window [j, j) is recorded for
   the multi-wildcard, and candidate j for the single one *)
Lemma trying_pass j old c m :
  elems ns2 !! j = Some c -> ready old m ->
  exists m',
    loopBody info rec ns1 ns2 false (trying j old) m
    = Ret (Continue (LoopState 2 (j + 1) 0 (j + 1) "" j 0 (len ns2) old)) m'
    /\ wf m' /\ (old < length (store m'))%nat /\ deref (store m') old = b0
    /\ bindingsOf m' = <[b := c]> (<[a := nothing]> b0).
Proof.
  intros Hc (Hwf & Hold & Hne & Hd & Hb).
  assert (Hj : (j < len ns2)%nat) by (by eapply lookup_lt_Some).
  destruct (storeValue_bindings a nothing m Hwf) as (m1 & Hs & Hb1 & Hv1 & Hl1).
  assert (Hw : wouldMatch rec ns2 (trying j old) m = Ret true m1).
  { unfold wouldMatch. cbn [wildName wildStart i2].
    rewrite !bool_decide_eq_false_2 by assumption. cbn [orb].
    unfold bind at 1. rewrite slice_empty by lia.
    rewrite bind_lookupValue, Hb, a_free.
    rewrite bind_ret_l. cbv iota.
    unfold bind. rewrite Hs. reflexivity. }
  assert (Hwf1 : wf m1) by (unfold wf in *; lia).
  assert (K1 : deref (store m1) old = b0 /\ old <> values m1
               /\ (old < length (store m1))%nat).
  { destruct (framed_keeps _ _ _ _ old (framed_storeValue a nothing) Hs Hwf
                Hold Hne) as (_ & E & ? & ?).
    by rewrite E. }
  destruct K1 as (Hd1 & Hne1 & Hold1).
  destruct (wildcard_first info f w b c m1 w_wild w_info b_kept Hwf1)
    as (m2 & Hr & Hb2).
  { rewrite Hb1, Hb. rewrite lookup_insert_ne by (intros E; by apply b_other).
    exact b_free. }
  destruct (framed_keeps _ _ _ _ old (framed_node info (S f) _ _) Hr Hwf1
              Hold1 Hne1) as (Hwf2 & Hd2 & Hne2 & Hold2).
  exists m2. split.
  - rewrite (loopBody_match _ _ _ _ _ _ _ (Ident w) c m1 m2);
      [reflexivity|reflexivity| |reflexivity|exact Hc|exact Hw|exact Hr].
    cbn [fromWildNode]. rewrite w_info. reflexivity.
  - split_and!; [exact Hwf2|exact Hold2|by rewrite Hd2|].
    by rewrite Hb2, Hb1, Hb.
Qed.

(* from candidate j to candidate j + 1: the pass over the single
   wildcard, the restart, and the pass over the multi-wildcard, which
   moves the start of its window *)
Lemma trying_next n j old c m :
  elems ns2 !! j = Some c -> (j + 1 < len ns2)%nat -> ready old m ->
  exists old' m',
    loop' (S (S (S n))) (trying j old) m = loop' n (trying (j + 1) old') m'
    /\ ready old' m'.
Proof.
  intros Hc Hj Hm.
  destruct (trying_pass j old c m Hc Hm) as (m1 & Hp & Hwf1 & Hold1 & Hd1 & _).
  rewrite loop_S. cbn [i1 i2 len elems length].
  rewrite (bool_decide_eq_true_2 (1 < 2)%nat) by lia. cbn [orb].
  unfold bind at 1. rewrite Hp. cbv beta iota.
  rewrite loop_S. cbn [i1 i2 len elems length].
  rewrite (bool_decide_eq_true_2 (j + 1 < _)%nat) by exact Hj.
  rewrite orb_true_r.
  unfold bind at 1. rewrite loopBody_restart; cycle 1.
  { unfold len. simpl. lia. }
  { reflexivity. }
  { unfold canRestart. cbn [i1 i2 next1 next2].
    rewrite !bool_decide_eq_true_2 by lia. reflexivity. }
  cbv beta iota. rewrite loop_S. cbn [i1 i2 set_i next1 next2 len elems length].
  rewrite (bool_decide_eq_true_2 (0 < 2)%nat) by lia. cbn [orb].
  unfold bind at 1. rewrite (loopBody_wild _ _ _ _ _ _ _ p); cycle 1.
  { reflexivity. }
  { exact p_any. }
  cbv beta iota. rewrite p_name. cbn [wildName set_i oldMatches].
  rewrite (bool_decide_eq_true_2 (a ≠ "")) by exact a_named.
  cbn [set_wild set_next set_i set_oldMatches i1 i2 next1 next2 wildName
       wildStart partialStart partialEnd oldMatches store values scope
       aggressive].
  do 2 eexists. split; [reflexivity|].
  unfold wf, bindingsOf. cbn [store values]. rewrite length_app. simpl.
  rewrite deref_new. split_and!; try lia.
  - unfold bindingsOf. cbn [store values]. exact Hd1.
  - unfold deref. rewrite lookup_app_l by exact Hold1. exact Hd1.
Qed.

Lemma trying_all n j old m z :
  (j < len ns2)%nat -> (3 * (len ns2 - j) <= n)%nat ->
  last (elems ns2) = Some z -> ready old m ->
  exists s' m',
    loop' n (trying j old) m = Ret (Some s') m'
    /\ wildName s' = "" /\ partialStart s' = 0%nat
    /\ partialEnd s' = len ns2
    /\ bindingsOf m' = <[b := z]> (<[a := nothing]> b0).
Proof.
  revert j old m. induction n as [n IH] using lt_wf_ind.
  intros j old m Hj Hn Hz Hm.
  destruct (elems ns2 !! j) as [c|] eqn:Hc;
    [|apply lookup_ge_None in Hc; unfold len in Hj; lia].
  destruct (decide (j + 1 = len ns2)) as [Hlast|Hmore].
  - destruct n as [|[|n]]; [lia..|].
    destruct (trying_pass j old c m Hc Hm) as (m1 & Hp & _ & _ & _ & Hb1).
    rewrite loop_S. cbn [i1 i2 len elems length].
    rewrite (bool_decide_eq_true_2 (1 < 2)%nat) by lia. cbn [orb].
    unfold bind at 1. rewrite Hp. cbv beta iota.
    rewrite loop_S. cbn [i1 i2 len elems length].
    rewrite !bool_decide_eq_false_2 by lia. cbn [orb].
    do 2 eexists. split; [reflexivity|]. split_and!; try reflexivity.
    rewrite Hb1. do 2 f_equal.
    rewrite last_lookup in Hz. unfold len in Hlast.
    replace (pred (length (elems ns2))) with j in Hz by lia. congruence.
  - destruct n as [|[|[|n]]]; [lia..|].
    destruct (trying_next n j old c m Hc ltac:(lia) Hm) as (old' & m' & E & Hm').
    rewrite E. apply IH; [lia|lia|lia|exact Hz|exact Hm'].
Qed.

End WindowReset.

Section WindowResetClosed.
Context `{Collaborators}.
Variable info : Z -> varInfo.

(** X11: the pattern list [$*a, $b] matches every candidate list that is
    not empty, and binds b to the last candidate and a to the empty list:
    the match of $b clears wildName, so the pass over $*a after each
    restart moves the start of its window to the restart position. *)
Theorem window_start_reset fuel k p w a b ns2 z m :
  any (info (fromWildNode p)) = true -> name (info (fromWildNode p)) = a ->
  a <> "" -> a <> "_" ->
  isWildName w = true -> info (fromWildName w) = plainVar b ->
  b <> "_" -> b <> a ->
  last (elems ns2) = Some z ->
  wf m -> bindingsOf m !! a = None -> bindingsOf m !! b = None ->
  (3 * len ns2 + 1 < fuel)%nat ->
  exists m',
    matcher_nodes info fuel (NodeList k [p; Ident w]) ns2 false m
    = Ret (Some (listNode ns2)) m'
    /\ bindingsOf m'
       = <[b := z]> (<[a := listNode (NodeList (lkind ns2) [])]> (bindingsOf m)).
Proof.
  intros Hany Hname Ha Ha' Hw Hi Hb Hba Hz Hwf Hfa Hfb Hf.
  destruct fuel as [|[|n]]; [lia..|].
  assert (Hpos : (0 < len ns2)%nat).
  { unfold len. destruct (elems ns2); [discriminate|simpl; lia]. }
  unfold matcher_nodes, nodes. cbn [len elems length bool_decide].
  rewrite bool_decide_eq_false_2 by lia.
  unfold bind at 1. rewrite backupMatches_run. cbv beta iota.
  unfold bind at 1. rewrite loop_S.
  cbn [i1 i2 set_oldMatches len elems length].
  rewrite (bool_decide_eq_true_2 (0 < 2)%nat) by lia. cbn [orb].
  unfold bind at 1.
  rewrite (loopBody_wild _ _ _ _ _ _ _ p); [|reflexivity|exact Hany].
  cbv beta iota. rewrite Hname. cbn [wildName set_oldMatches].
  rewrite (bool_decide_eq_true_2 (a ≠ "")) by exact Ha.
  cbn [set_wild set_next set_i i1 i2 next1 next2 wildName wildStart
       partialStart partialEnd oldMatches store values scope aggressive].
  set (m2 := Matcher _ _ _ _).
  set (old := length (store m ++ _)).
  assert (Hm2 : wf m2 /\ (old < length (store m2))%nat /\ old <> values m2
                /\ deref (store m2) old = bindingsOf m
                /\ bindingsOf m2 = bindingsOf m).
  { unfold m2, old, wf, bindingsOf in *. cbn [store values].
    split_and!.
    - rewrite !length_app. simpl. lia.
    - rewrite !length_app. simpl. lia.
    - rewrite length_app. simpl. lia.
    - rewrite deref_new. unfold deref. by rewrite lookup_app_l.
    - unfold deref.
      by rewrite !lookup_app_l by (rewrite ?length_app; simpl; lia). }
  destruct (trying_all info (S n) k p w a b ns2 (bindingsOf m) Hany Hname Ha
              Ha' Hw Hi Hb Hba Hfa Hfb (S n) 0 old m2 z)
    as (s' & m' & E & Hwn & Hps & Hpe & Hbm); [lia|lia|exact Hz|exact Hm2|].
  match goal with
  | |- context [loop ?i ?r ?l1 ?l2 ?pa ?fu ?s ?mm] =>
      replace (loop i r l1 l2 pa fu s mm) with (Ret (Some s') m')
        by (symmetry; exact E)
  end.
  cbv beta iota.
  unfold bind at 1. rewrite (wouldMatch_none _ _ _ _ Hwn). cbn [negb].
  rewrite Hps, Hpe. unfold bind at 1.
  rewrite slice_all. eauto.
Qed.
End WindowResetClosed.


(** ** Patterns without wildcards *)

Section Accepts.
Context `{Collaborators}.
Variable info : Z -> varInfo.
Hypothesis info_none : any (info (-1)%Z) = false.
Hypothesis info_plain :
  forall s, isWildName s = false -> any (info (fromWildName s)) = false.

Section Switch.
Variable rec : option Node -> option Node -> M bool.
Variable fuel : nat.
Hypothesis rec_framed : forall e n, framed (rec e n).
Hypothesis rec_accepts : accepts rec.

Lemma holds_ret_true : holds (ret true).
Proof. intros m b m' Hs [= <- <-]. by split. Qed.

Lemma holds_ret_decide (P : Prop) `{Decision P} : P -> holds (ret (bool_decide P)).
Proof.
  intros HP m b m' Hs [= <- <-]. split; [by apply bool_decide_eq_true_2|done].
Qed.

Lemma holds_panic f : holds (panic f).
Proof. intros m b m' Hs Hr. discriminate Hr. Qed.

Lemma holds_andM a b : holds a -> holds b -> holds (a &&& b).
Proof.
  intros Ha Hb m r m' Hs Hr. apply bind_inv in Hr as (x & m1 & H1 & H2).
  destruct (Ha _ _ _ Hs H1) as [-> Hs1]. by eapply Hb.
Qed.

Lemma holds_orM a b : framed a -> holds b -> holds (a ||| b).
Proof.
  intros Ha Hb m r m' Hs Hr. apply bind_inv in Hr as (x & m1 & H1 & H2).
  assert (Hs1 : strict m1) by (by eapply strict_framed).
  destruct x; [injection H2 as <- <-; by split|by eapply Hb].
Qed.

Lemma holds_rec xo yo :
  plainO xo = true -> option_map erase xo = option_map erase yo ->
  holds (rec xo yo).
Proof.
  intros Hp He m b m' Hs Hr. split; [by eapply rec_accepts|].
  by eapply strict_framed; [apply rec_framed| |].
Qed.

(* the loop on two lists of the same images, from cursors that advance
   together *)
Lemma loop_accepts ns1 ns2 k s m r m' :
  forallb plain (elems ns1) = true ->
  List.map erase (elems ns1) = List.map erase (elems ns2) ->
  i2 s = i1 s -> next2 s = 0%nat -> wildName s = "" -> strict m ->
  loop info rec ns1 ns2 false k s m = Ret r m' ->
  exists s', r = Some s' /\ wildName s' = ""
    /\ partialStart s' = partialStart s /\ partialEnd s' = partialEnd s
    /\ strict m'.
Proof.
  intros Hplain Hsame. revert s m.
  assert (Hlen : len ns1 = len ns2).
  { unfold len. by rewrite <- (length_map erase), Hsame, length_map. }
  induction k as [|k IH]; intros s m E2 N2 W Hs Hr; [discriminate|].
  rewrite loop_S in Hr.
  destruct (bool_decide (i1 s < len ns1)%nat || bool_decide (i2 s < len ns2)%nat)
    eqn:Hcond.
  2:{ injection Hr as <- <-. eauto 10. }
  assert (Hi : (i1 s < len ns1)%nat).
  { apply orb_true_iff in Hcond as [C|C]; apply bool_decide_eq_true in C; lia. }
  destruct (elems ns1 !! i1 s) as [n1|] eqn:Hn1;
    [|apply lookup_ge_None in Hn1; unfold len in Hi; lia].
  destruct (elems ns2 !! i2 s) as [n2|] eqn:Hn2;
    [|apply lookup_ge_None in Hn2; unfold len in *; lia].
  assert (Hp1 : plain n1 = true).
  { rewrite forallb_forall in Hplain. apply Hplain.
    apply list_elem_of_In. by eapply list_elem_of_lookup_2. }
  assert (He : erase n1 = erase n2).
  { assert (E : List.map erase (elems ns1) !! i1 s
                = List.map erase (elems ns2) !! i1 s) by (by rewrite Hsame).
    rewrite !list_lookup_fmap, Hn1 in E. rewrite <- E2, Hn2 in E.
    by injection E. }
  apply bind_inv in Hr as (c & m1 & Hb & Hr).
  unfold loopBody in Hb. apply bind_inv in Hb as (t & m2 & Ht & Hb).
  unfold tryPattern in Ht.
  rewrite (bool_decide_eq_true_2 _ Hi) in Ht. cbn [negb] in Ht.
  unfold at_ at 1 in Ht. rewrite Hn1 in Ht. rewrite bind_ret_l in Ht.
  rewrite (fromWildNode_plain info info_none info_plain _ Hp1) in Ht.
  cbn [andb] in Ht. rewrite bind_ret_l in Ht.
  apply bind_inv in Ht as (ok & m3 & Hok & Ht).
  unfold andM in Hok. rewrite !bind_assoc, bind_ret_l in Hok.
  rewrite (bool_decide_eq_true_2 (i2 s < len ns2)%nat) in Hok by lia.
  unfold bind at 1 in Hok.
  rewrite (wouldMatch_none _ _ _ _ W) in Hok.
  unfold at_ in Hok. rewrite Hn2, bind_ret_l in Hok.
  destruct (holds_rec (Some n1) (Some n2) Hp1 ltac:(simpl; by f_equal)
              _ _ _ Hs Hok) as [-> Hs3].
  injection Ht as <- <-. injection Hb as <- <-.
  apply IH in Hr; [|simpl; lia|exact N2|reflexivity|exact Hs3].
  destruct Hr as (s' & -> & ? & ? & ? & ?). eauto 10.
Qed.

Lemma nodes_accepts k1 k2 l1 l2 :
  forallb plain l1 = true -> List.map erase l1 = List.map erase l2 ->
  holds (notNil (nodes info rec fuel (NodeList k1 l1) (NodeList k2 l2) false)).
Proof.
  intros Hp He m b m' Hs Hr. unfold notNil in Hr.
  apply bind_inv in Hr as (r & m1 & Hn & Hr). injection Hr as <- <-.
  assert (Hlen : length l1 = length l2)
    by (by rewrite <- (length_map erase), He, length_map).
  unfold nodes in Hn. unfold len in Hn. cbn [elems] in Hn.
  case_bool_decide as E1.
  { rewrite bool_decide_eq_true_2 in Hn by lia. injection Hn as <- <-.
    split; [by apply bool_decide_eq_true_2|exact Hs]. }
  apply bind_inv in Hn as (s & m2 & Hb & Hn).
  rewrite backupMatches_run in Hb. injection Hb as <- <-.
  apply bind_inv in Hn as (o & m3 & Hl & Hn).
  eapply (loop_accepts (NodeList k1 l1) (NodeList k2 l2)) in Hl;
    [|exact Hp|exact He|reflexivity|reflexivity|reflexivity|].
  2:{ eapply strict_framed; [apply (framed_newMap (bindingsOf m))|exact Hs|].
      reflexivity. }
  destruct Hl as (s' & -> & W & Ps & Pe & Hs3). cbn in Ps, Pe.
  rewrite (bind_ret _ _ _ _ _ (wouldMatch_none _ _ _ _ W)) in Hn.
  cbn [negb] in Hn. rewrite Ps, Pe in Hn.
  change (length l2) with (len (NodeList k2 l2)) in Hn.
  rewrite (bind_ret _ _ _ _ _ (slice_all _ _)) in Hn.
  injection Hn as <- <-. split; [by apply bool_decide_eq_true_2|exact Hs3].
Qed.

Lemma holds_exprs l1 l2 :
  forallb plain l1 = true -> List.map erase l1 = List.map erase l2 ->
  holds (exprs info rec fuel l1 l2).
Proof. apply nodes_accepts. Qed.

Lemma holds_idents l1 l2 :
  forallb plain l1 = true -> List.map erase l1 = List.map erase l2 ->
  holds (idents info rec fuel l1 l2).
Proof. apply nodes_accepts. Qed.

Lemma holds_stmts l1 l2 :
  forallb plain l1 = true -> List.map erase l1 = List.map erase l2 ->
  holds (stmts info rec fuel l1 l2).
Proof. apply nodes_accepts. Qed.

Lemma holds_specs l1 l2 :
  forallb plain l1 = true -> List.map erase l1 = List.map erase l2 ->
  holds (specs info rec fuel l1 l2).
Proof. apply nodes_accepts. Qed.

Lemma holds_pairwise l1 l2 :
  forallb plain l1 = true -> List.map erase l1 = List.map erase l2 ->
  holds (pairwise rec l1 l2).
Proof.
  revert l2. induction l1 as [|a l1 IH]; intros [|b l2] Hp He; try discriminate.
  - apply holds_ret_true.
  - simpl in Hp, He. apply andb_true_iff in Hp as [Hpa Hp].
    injection He as Ha He.
    intros m r m' Hs Hr. simpl in Hr.
    apply bind_inv in Hr as (x & m1 & H1 & H2).
    destruct (holds_rec (Some a) (Some b) Hpa ltac:(simpl; by f_equal)
                _ _ _ Hs H1) as [-> Hs1].
    by eapply IH.
Qed.

Lemma holds_fields f1 f2 :
  match f1 with Some l => forallb plain l | None => true end = true ->
  option_map (List.map erase) f1 = option_map (List.map erase) f2 ->
  holds (fields rec f1 f2).
Proof.
  intros Hp He. destruct f1 as [l1|], f2 as [l2|]; try discriminate.
  - injection He as He. unfold fields.
    rewrite bool_decide_eq_false_2.
    + by apply holds_pairwise.
    + intros Hne. apply Hne.
      by rewrite <- (length_map erase), He, length_map.
  - apply holds_ret_true.
Qed.

Lemma holds_bind_ok (c : M bool) (k : M bool) :
  holds c -> holds k ->
  holds (let* ok := c in if negb ok then ret false else k).
Proof.
  intros Hc Hk m b m' Hs Hr. apply bind_inv in Hr as (x & m1 & H1 & H2).
  destruct (Hc _ _ _ Hs H1) as [-> Hs1]. by eapply Hk.
Qed.

Lemma valid_erase e e' :
  (if IsValid e then 1%Z else NoPos) = (if IsValid e' then 1%Z else NoPos) ->
  IsValid e = IsValid e'.
Proof. by destruct (IsValid e), (IsValid e'). Qed.

Ltac hold :=
  repeat first
    [ apply holds_ret_true
    | apply holds_panic
    | apply holds_andM
    | apply holds_ret_decide; congruence
    | apply holds_rec; [simpl; assumption|simpl; congruence]
    | apply holds_exprs; [assumption|congruence]
    | apply holds_idents; [assumption|congruence]
    | apply holds_stmts; [assumption|congruence]
    | apply holds_specs; [assumption|congruence]
    | apply holds_fields; [assumption|congruence] ].

Ltac split_plain' :=
  repeat match goal with
         | H : _ && _ = true |- _ => apply andb_true_iff in H as [? ?]
         end.

Lemma switch_accepts x y :
  plain x = true -> erase x = erase y ->
  holds (node_switch info rec fuel false x (Some y)).
Proof.
  intros Hp He.
  destruct x; destruct y; try discriminate He;
    cbn [erase] in He; simplify_eq;
    cbn [plain] in Hp; split_plain'; cbn [node_switch]; unfold maybeNilIdent.
  all: try solve [hold].
  - (* File *)
    intros m b m' Hs Hr. apply bind_inv in Hr as (nameOk & m1 & Hn & Hr).
    destruct (holds_rec (Some x) (Some y) ltac:(assumption)
                ltac:(simpl; congruence) _ _ _ Hs Hn) as [-> Hs1].
    rewrite !bool_decide_eq_false_2 in Hr.
    + cbn [negb orb] in Hr.
      refine (holds_andM _ _ _ _ m1 b m' Hs1 Hr); by apply holds_pairwise.
    + intros Hne. apply Hne.
      by rewrite <- (length_map erase), H1, length_map.
    + intros Hne. apply Hne.
      by rewrite <- (length_map erase), H0, length_map.
  - (* Ident *)
    unfold identCase. rewrite Hp. simpl. apply holds_ret_decide. reflexivity.
  - (* BasicLit *)
    rewrite !bool_decide_eq_true_2 by reflexivity. apply holds_ret_true.
  - (* CallExpr *)
    apply holds_andM; [hold|].
    apply holds_ret_decide. by apply valid_erase.
  - (* FuncDecl *)
    apply holds_andM; [hold|].
    destruct Body, Body0; simplify_eq/=; hold.
  - (* ValueSpec *)
    apply holds_bind_ok; [hold|]. cbn [andb]. 
    intros m b m' Hs Hr. rewrite bind_ret_l in Hr.
    refine (holds_andM _ _ _ _ m b m' Hs Hr); hold.
  - (* ExprStmt *)
    match goal with
    | |- holds ?c => assert (E : c = rec (Some x) (Some y))
    end.
    { destruct x; try reflexivity.
      cbn [plain] in Hp. apply negb_true_iff in Hp. by rewrite Hp. }
    rewrite E. hold.
  - (* BlockStmt *)
    intros m b m' Hs Hr. apply bind_inv in Hr as (asList & m0 & Hsg & Hr).
    rewrite andM_ret_l in Hsg. injection Hsg as <- <-.
    refine (holds_orM _ _ _ _ m b m' Hs Hr); [by apply framed_cases|hold].
  - (* IfStmt *)
    rewrite (headerWild_plain info _ (Some x1)) by assumption. hold.
  - (* SwitchStmt *)
    rewrite (headerWild_plain info _ Tag) by assumption. hold.
  - (* ForStmt *)
    rewrite (headerWild_plain info _ Cond) by assumption. hold.
Qed.

End Switch.

Lemma node_accepts fuel : accepts (node info fuel).
Proof.
  induction fuel as [|fuel IH]; intros xo yo m b m' Hs Hp He Hr; [discriminate|].
  rewrite node_unfold in Hr. unfold node_body in Hr.
  apply bind_inv in Hr as ([] & m1 & Hre & Hr).
  assert (Hs1 : strict m1)
    by (eapply strict_framed; [apply framed_reseatScope|exact Hs|exact Hre]).
  rewrite bind_ret_l' in Hr.
  destruct Hs1 as [Hw Ha]. rewrite Ha in Hr. simpl in Hr.
  destruct xo as [x|], yo as [y|]; simpl in Hr, He; try discriminate He.
  - injection He as He.
    eapply (switch_accepts (node info fuel) fuel (framed_node info fuel) IH x y
              Hp He m1 b m'); [by split|exact Hr].
  - by injection Hr as <- _.
Qed.

(** X12: in strict mode, on a pattern in which no identifier is a wildcard,
    matcher.node decides agreement in what it compares: whenever the call
    returns a result, the result is true exactly when the candidate has the
    image of the pattern under [erase], that is, when the two are the same
    syntax apart from places, tags of struct fields and tokens of range
    statements, none of which matcher.node reads.  It is not equality of
    syntax: [for k := range m {}] as a pattern matches [for k = range m {}]. *)
Theorem plain_pattern_decides fuel p c m b m' :
  strict m -> plain p = true ->
  node info fuel (Some p) (Some c) m = Ret b m' ->
  b = true <-> erase c = erase p.
Proof.
  intros Hs Hp Hr. split.
  - intros ->.
    pose proof (node_identifies info info_none info_plain fuel (Some p)
                  (Some c) m m' Hs Hp Hr) as He.
    by injection He as ->.
  - intros He.
    eapply (node_accepts fuel (Some p) (Some c)); [exact Hs|exact Hp| |exact Hr].
    simpl. by rewrite He.
Qed.

End Accepts.


(** ** The range stage against the filter stages *)

Section Refine.
Context `{Collaborators}.

Lemma refines_bind {A B A' B'} (R : A -> B -> Prop) (R' : A' -> B' -> Prop)
    (c1 : M A) (c2 : M B) k1 k2 m :
  refines R (c1 m) (c2 m) ->
  (forall a b m', R a b -> refines R' (k1 a m') (k2 b m')) ->
  refines R' (bind c1 k1 m) (bind c2 k2 m).
Proof.
  unfold bind, refines at 1. intros Hc Hk.
  destruct (c1 m); [|exact I..]. destruct (c2 m); try contradiction.
  destruct Hc as [Hr <-]. by apply Hk.
Qed.

Lemma refines_same {A B C} (R : A -> B -> Prop) (c : M C) k1 k2 m :
  (forall x m', refines R (k1 x m') (k2 x m')) ->
  refines R (bind c k1 m) (bind c k2 m).
Proof.
  unfold bind. intros Hk. destruct (c m); simpl; auto.
Qed.

Lemma refines_ret {A B} (R : A -> B -> Prop) a b m :
  R a b -> refines R (ret a m) (ret b m).
Proof. by split. Qed.

Lemma forEach_refines {A B X} (R : A -> B -> Prop) (f1 : A -> X -> M A)
    (f2 : B -> X -> M B) l :
  (forall a b x m, R a b -> refines R (f1 a x m) (f2 b x m)) ->
  forall a b m, R a b -> refines R (forEach f1 l a m) (forEach f2 l b m).
Proof.
  intros Hf. induction l as [|x l IH]; intros a b m Hr; simpl.
  - by apply refines_ret.
  - eapply refines_bind; [by apply Hf|]. intros. by apply IH.
Qed.

Section Walk.
Context {A B : Type} (R : A -> B -> Prop).
Variable fn1 : A -> Node -> option Node -> M A.
Variable fn2 : B -> Node -> option Node -> M B.
Hypothesis fn_refines :
  forall a b e n m, R a b -> refines R (fn1 a e n m) (fn2 b e n m).

Lemma visit_refines e a b n m :
  R a b -> refines R (visit fn1 e a n m) (visit fn2 e b n m).
Proof.
  intros Hr. unfold visit. eapply refines_bind; [by apply fn_refines|].
  intros a' b' m' Hr'. apply forEach_refines; [|exact Hr'].
  intros. by apply fn_refines.
Qed.

Lemma inspect_refines e a b n m :
  R a b -> refines R (inspect fn1 e a n m) (inspect fn2 e b n m).
Proof.
  intros Hr. unfold inspect. eapply refines_bind.
  - apply forEach_refines; [|exact Hr]. intros. by apply visit_refines.
  - intros a' b' m' Hr'.
    destruct (snd (Inspect n)); [exact I|by apply refines_ret].
Qed.

Lemma walkWithLists_refines e n a b m :
  R a b ->
  refines R (walkWithLists fn1 e n a m) (walkWithLists fn2 e n b m).
Proof.
  intros Hr. unfold walkWithLists.
  destruct (asNodeList n) as [l|]; [|by apply inspect_refines].
  eapply refines_bind.
  { destruct (isExpr e); [|by apply refines_ret].
    eapply refines_bind; [by apply fn_refines|]. intros. by apply fn_refines. }
  intros a1 b1 m1 Hr1. eapply refines_bind; [by apply fn_refines|].
  intros a2 b2 m2 Hr2. apply forEach_refines; [|exact Hr2].
  intros. by apply inspect_refines.
Qed.
End Walk.

Variable info : Z -> varInfo.
Variable fuel : nat.

Lemma node_Pos_run n p m m' : node_Pos n m = Ret p m' -> m' = m.
Proof.
  unfold node_Pos. destruct (asNodeList n); [|by intros [= _ <-]].
  intros Hr. apply bind_inv in Hr as (x & m1 & Ha & Hr).
  apply at_run in Ha as [_ ->]. by injection Hr as _ <-.
Qed.

Lemma node_End_run n p m m' : node_End n m = Ret p m' -> m' = m.
Proof.
  unfold node_End. destruct (asNodeList n); [|by intros [= _ <-]].
  intros Hr. apply bind_inv in Hr as (x & m1 & Ha & Hr).
  apply at_run in Ha as [_ ->]. by injection Hr as _ <-.
Qed.

Lemma rangeMatch_refines acc any_ e n m :
  foundInv acc any_ ->
  refines foundInv (rangeMatch info fuel acc e n m)
          (filterMatch info fuel any_ e n m).
Proof.
  intros Hi. unfold rangeMatch, filterMatch.
  destruct n as [n|]; [|by apply refines_ret].
  apply refines_same. intros [] m1. apply refines_same. intros found m2.
  destruct found as [found|]; [|by apply refines_ret]. cbn [isSome].
  unfold refines.
  destruct (bind (node_Pos found) _ m2) as [acc' m3| |] eqn:Hr; [|exact I..].
  apply bind_inv in Hr as (p & m4 & Hp & Hr). apply node_Pos_run in Hp as ->.
  apply bind_inv in Hr as (q & m5 & Hq & Hr). apply node_End_run in Hq as ->.
  split; [|by destruct (negb _); injection Hr as _ <-].
  destruct Hi as [Hany Hseen].
  destruct (default false (snd acc !! (p, q))) eqn:Hs; simpl in Hr;
    injection Hr as <- _.
  - split; [|exact Hseen]. split; [intros _; by apply Hseen in Hs|done].
  - split; simpl.
    + split; [intros _|done]. by destruct (fst acc).
    + intros p' _. by destruct (fst acc).
Qed.

(** X13: the stages x, g and v agree on every candidate.  When the stage x
    returns its list of finds inside the node n, the test of the stages g
    and v on n returns, in the same matcher state, whether that list is not
    empty; so g keeps n exactly when x finds something in it, and v keeps n
    exactly when x finds nothing. *)
Theorem range_finds_iff_filter_keeps cmd n m out m' :
  cmdRange info fuel cmd [n] m = Ret out m' ->
  anyInside info fuel cmd n m = Ret (bool_decide (0 < length out)%nat) m'
  /\ cmdFilter info fuel true cmd [n] m
     = Ret (if bool_decide (0 < length out)%nat then [n] else []) m'
  /\ cmdFilter info fuel false cmd [n] m
     = Ret (if bool_decide (0 < length out)%nat then [] else [n]) m'.
Proof.
  intros Hr. unfold cmdRange in Hr. cbn [forEach] in Hr.
  apply bind_inv in Hr as (acc & m1 & Hw & Hr). injection Hr as <- <-.
  apply bind_inv in Hw as (acc' & m2 & Hw & Hr). injection Hr as <- <-.
  assert (Hsim : refines foundInv
            (walkWithLists (rangeMatch info fuel) (cmd_node cmd) n ([], ∅) m)
            (walkWithLists (filterMatch info fuel) (cmd_node cmd) n false m)).
  { apply walkWithLists_refines.
    - intros. by apply rangeMatch_refines.
    - split; [split; [discriminate|done]|].
      intros p. simpl. rewrite lookup_empty. discriminate. }
  rewrite Hw in Hsim. unfold refines in Hsim.
  destruct (walkWithLists (filterMatch info fuel) (cmd_node cmd) n false m)
    as [b m3| |] eqn:Hf; try contradiction.
  destruct Hsim as [[Hany _] <-].
  assert (Hb : b = bool_decide (0 < length (fst acc'))%nat).
  { destruct Hany as [H1 H2]. destruct b.
    - specialize (H1 eq_refl). symmetry. apply bool_decide_eq_true_2.
      destruct (fst acc'); [done|simpl; lia].
    - symmetry. apply bool_decide_eq_false_2. intros Hlt.
      assert (Hne : fst acc' <> [])
        by (intros E; rewrite E in Hlt; simpl in Hlt; lia).
      by specialize (H2 Hne). }
  subst b. unfold anyInside. split; [exact Hf|].
  unfold cmdFilter. cbn [forEach]. unfold bind. rewrite Hf.
  by destruct (bool_decide (0 < length (fst acc'))%nat).
Qed.
End Refine.


(** ** Filtering a concatenation *)

Section Append.
Context `{Collaborators}.
Variable info : Z -> varInfo.
Variable fuel : nat.

Lemma forEach_app {A B} (f : A -> B -> M A) l1 l2 acc m :
  forEach f (l1 ++ l2) acc m
  = (let* acc := forEach f l1 acc in forEach f l2 acc) m.
Proof.
  revert acc m. induction l1 as [|x l1 IH]; intros acc m; [reflexivity|].
  cbn [app forEach]. unfold bind.
  destruct (f acc x m); [rewrite IH; reflexivity|reflexivity..].
Qed.

Lemma bind_eq_l {A B} (c c' : M A) (k : A -> M B) m :
  c m = c' m -> bind c k m = bind c' k m.
Proof. unfold bind. by intros ->. Qed.

Lemma bind_eq_r {A B} (c : M A) (k k' : A -> M B) m :
  (forall a m', k a m' = k' a m') -> bind c k m = bind c k' m.
Proof. unfold bind. intros Hk. by destruct (c m). Qed.

(* the loop of cmdFilter from any value of the variable matches, against
   the loop from the empty list *)
Lemma cmdFilter_from want cmd ns acc m :
  forEach (fun matches_ n =>
             let* any_ := walkWithLists (filterMatch info fuel) (cmd_node cmd)
                            n false in
             if bool_decide (any_ = want) then ret (matches_ ++ [n])
             else ret matches_) ns acc m
  = (let* out := cmdFilter info fuel want cmd ns in ret (acc ++ out)) m.
Proof.
  unfold cmdFilter. rewrite cmdFilter_loop.
  rewrite (bind_eq_l _ _ _ _ (cmdFilter_loop info fuel want cmd ns [] m)).
  rewrite bind_assoc. unfold bind.
  by destruct (anyFlags info fuel cmd ns m).
Qed.

(** X14: cmdFilter works candidate by candidate: filtering the list
    ns1 ++ ns2 is filtering ns1, then ns2 in the matcher state the first
    leaves, and appending the two results; panics and exhausted fuel
    included. *)
Theorem cmdFilter_app want cmd ns1 ns2 m :
  cmdFilter info fuel want cmd (ns1 ++ ns2) m
  = (let* out1 := cmdFilter info fuel want cmd ns1 in
     let* out2 := cmdFilter info fuel want cmd ns2 in
     ret (out1 ++ out2)) m.
Proof.
  unfold cmdFilter at 1. rewrite forEach_app.
  fold (cmdFilter info fuel want cmd ns1).
  apply bind_eq_r. intros out1 m1. apply cmdFilter_from.
Qed.
End Append.


(** ** The aggressive loop of value specs *)

Section ValueSpecs.
Context `{Collaborators}.
Variable info : Z -> varInfo.

Lemma valueSpecAny_second rec a b0 b1 rest xv yv m m1 :
  rec (Some a) (Some b0) m = Ret false m1 ->
  valueSpecAny rec [a] (b0 :: b1 :: rest) xv yv
    (seq 0 (length (b0 :: b1 :: rest))) m
  = Panic IndexOutOfRange.
Proof.
  intros Hr. cbn [length seq valueSpecAny lookup list_lookup].
  unfold andM, bind, ret, panic. cbv beta iota. rewrite Hr. reflexivity.
Qed.

Lemma valueSpecAny_no_value rec a b0 rest v vs m m1 :
  rec (Some a) (Some b0) m = Ret true m1 ->
  valueSpecAny rec [a] (b0 :: rest) (v :: vs) []
    (seq 0 (length (b0 :: rest))) m
  = Panic IndexOutOfRange.
Proof.
  intros Hr. cbn [length seq valueSpecAny lookup list_lookup].
  rewrite bool_decide_eq_false_2 by discriminate.
  unfold andM, bind, ret, panic. cbv beta iota. rewrite Hr. reflexivity.
Qed.

(** X15: in aggressive mode the loop of case *ast.ValueSpec indexes the
    names of the pattern with the indices of the candidate's names.  A
    pattern spec with the single name x, not a wildcard, and no type panics
    with an index out of range on every candidate spec without type that
    has two names or more and whose first name is not x. *)
Theorem valueSpec_aggressive_panics fuel x y b1 rest xv yv m :
  aggressive m = true -> isWildName x = false -> x <> y ->
  node info (S (S fuel)) (Some (ValueSpec [Ident x] None xv))
       (Some (ValueSpec (Ident y :: b1 :: rest) None yv)) m
  = Panic IndexOutOfRange.
Proof.
  intros Ha Hx Hxy.
  rewrite node_some. unfold bind at 1. rewrite reseatScope_reseated.
  cbn [node_switch reseated opensScope aggressive]. rewrite Ha.
  assert (Hm : reseated (Some (ValueSpec (Ident y :: b1 :: rest) None yv)) m = m)
    by (by destruct m).
  rewrite Hm.
  assert (Ht : node info (S fuel) None None m = Ret true m).
  { rewrite node_unfold. unfold node_body, bind.
    rewrite reseatScope_reseated. unfold getAggressive.
    assert (E : reseated None m = m) by (by destruct m).
    rewrite E, Ha. reflexivity. }
  unfold bind at 1. rewrite Ht. cbv beta iota. cbn [negb andb length].
  rewrite bool_decide_eq_true_2 by reflexivity.
  apply bind_panic.
  apply (valueSpecAny_second _ _ _ _ _ _ _ _
           (reseated (Some (Ident y)) m)).
  rewrite node_some. unfold bind. rewrite reseatScope_reseated.
  cbn [node_switch]. unfold identCase. rewrite Hx. cbn [negb asIdent].
  by rewrite bool_decide_eq_false_2.
Qed.
End ValueSpecs.


(** ** Indices of the sequence matcher *)

Section Bounds.
Context `{Collaborators}.
Variable info : Z -> varInfo.
Variable rec : option Node -> option Node -> M bool.
Variables ns1 ns2 : nodeList.
Variable partial : bool.

Lemma rec_safe e n m : faultsFrom rec (rec e n m).
Proof. intros f Hf. eauto. Qed.

Lemma bind_safe {A B} (c : M A) (k : A -> M B) m :
  faultsFrom rec (c m) -> (forall a m', c m = Ret a m' -> faultsFrom rec (k a m')) ->
  faultsFrom rec (bind c k m).
Proof.
  unfold bind. intros Hc Hk. destruct (c m) as [a m'|f|] eqn:E;
    [by apply Hk|intros f' [= <-]; by apply Hc|done].
Qed.

Lemma ret_safe {A} (a : A) m : faultsFrom rec (ret a m).
Proof. done. Qed.

Lemma andM_safe (a b : M bool) m :
  faultsFrom rec (a m) -> (forall m', a m = Ret true m' -> faultsFrom rec (b m')) ->
  faultsFrom rec (andM a b m).
Proof.
  intros Ha Hb. apply bind_safe; [exact Ha|].
  intros [] m' E; [by apply Hb|done].
Qed.

Lemma slice_safe l i j m :
  (i <= j <= len l)%nat -> faultsFrom rec (slice l i j m).
Proof. intros Hij. unfold slice. by rewrite bool_decide_eq_true_2 by lia. Qed.

Lemma at_safe l i m : (i < len l)%nat -> faultsFrom rec (at_ l i m).
Proof.
  intros Hi. unfold at_. destruct (elems l !! i) eqn:E; [done|].
  apply lookup_ge_None in E. unfold len in Hi. lia.
Qed.

Lemma wouldMatch_safe s m :
  (wildStart s <= i2 s <= len ns2)%nat -> faultsFrom rec (wouldMatch rec ns2 s m).
Proof.
  intros Hb. unfold wouldMatch. destruct (_ || _); [done|].
  apply bind_safe; [by apply slice_safe|]. intros l m1 _.
  rewrite bind_lookupValue. apply bind_safe.
  - destruct (bindingsOf m1 !! wildName s); [|done].
    apply bind_safe; [apply rec_safe|done].
  - intros bad m2 _. by destruct bad.
Qed.

Lemma tryPattern_safe s m :
  boundsInv ns2 s ->
  faultsFrom rec (tryPattern info rec ns1 ns2 partial s m)
  /\ forall r m', tryPattern info rec ns1 ns2 partial s m = Ret r m' ->
       boundsInv ns2 (afterTry r).
Proof.
  intros Hi. pose proof Hi as (Hi2 & Hw & Hp & Hn & He).
  destruct (decide (i1 s < len ns1)%nat) as [Hlt|Hge].
  2:{ assert (E : tryPattern info rec ns1 ns2 partial s m = Ret (inr s) m).
      { unfold tryPattern. by rewrite bool_decide_eq_false_2. }
      rewrite E. split; [done|]. intros r m' [= <- <-]. exact Hi. }
  destruct (elems ns1 !! i1 s) as [n1|] eqn:En;
    [|apply lookup_ge_None in En; unfold len in Hlt; lia].
  assert (E : tryPattern info rec ns1 ns2 partial s m
              = (if any (info (fromWildNode n1))
                 then
                   let s := if bool_decide (name (info (fromWildNode n1))
                                            ≠ wildName s)
                            then set_wild (name (info (fromWildNode n1)))
                                   (i2 s) s
                            else s in
                   let s := set_next (i1 s) (i2 s + 1) s in
                   let* s := backupMatches s in
                   ret (inl (set_i (i1 s + 1) (i2 s) s))
                 else
                   let* s :=
                     if partial && bool_decide (i1 s = 0%nat) then
                       backupMatches
                         (set_partialStart (i2 s)
                            (set_next (next1 s) (i2 s + 1) s))
                     else ret s in
                   let* ok :=
                     ret (bool_decide (i2 s < len ns2)%nat)
                     &&& wouldMatch rec ns2 s
                     &&& (let* n2 := at_ ns2 (i2 s) in
                          rec (Some n1) (Some n2)) in
                   if ok then
                     ret (inl (set_i (i1 s + 1) (i2 s + 1)
                                 (set_wild "" (wildStart s) s)))
                   else ret (inr s)) m).
  { unfold tryPattern. rewrite bool_decide_eq_true_2 by exact Hlt.
    cbn [negb]. unfold at_ at 1. rewrite En. by rewrite bind_ret_l. }
  rewrite E. clear E.
  destruct (any (info (fromWildNode n1))).
  - cbv zeta. unfold bind. rewrite backupMatches_run.
    split; [done|]. intros r m' Hr. injection Hr as <- <-.
    unfold boundsInv. simpl.
    destruct (bool_decide _); simpl; split_and!; try lia; done.
  - set (s1 := if partial && bool_decide (i1 s = 0%nat)
               then set_oldMatches (length (store m))
                      (set_partialStart (i2 s)
                         (set_next (next1 s) (i2 s + 1) s))
               else s).
    set (m1 := if partial && bool_decide (i1 s = 0%nat)
               then Matcher (store m ++ [bindingsOf m]) (values m) (scope m)
                            (aggressive m)
               else m).
    assert (Hb : (if partial && bool_decide (i1 s = 0%nat)
                  then backupMatches
                         (set_partialStart (i2 s)
                            (set_next (next1 s) (i2 s + 1) s))
                  else ret s) m = Ret s1 m1).
    { unfold s1, m1. destruct (partial && _); [apply backupMatches_run|done]. }
    assert (Hs1 : boundsInv ns2 s1 /\ i2 s1 = i2 s).
    { unfold s1. destruct (partial && _); [|by split].
      unfold boundsInv. simpl. split_and!; try lia; done. }
    destruct Hs1 as ((Hi2' & Hw' & Hp' & Hn' & He') & E2).
    rewrite !(bind_ret _ _ _ _ _ Hb).
    split.
    + apply bind_safe; [|by intros []].
      apply andM_safe; [apply andM_safe; [done|]|].
      * intros m' _. apply wouldMatch_safe. lia.
      * intros m' Hok. apply andM_true in Hok as (m2 & Hlt2 & _).
        injection Hlt2 as Hlt2 _. apply bool_decide_eq_true in Hlt2.
        apply bind_safe; [by apply at_safe|]. intros; apply rec_safe.
    + intros r m' Hr. apply bind_inv in Hr as (ok & m2 & Hok & Hr).
      destruct ok; unfold ret in Hr; injection Hr as <- <-;
        [|simpl; unfold boundsInv; split_and!; try lia; done].
      apply andM_true in Hok as (m3 & Hok & _).
      apply andM_true in Hok as (m4 & Hlt2 & _).
      injection Hlt2 as Hlt2 _. apply bool_decide_eq_true in Hlt2.
      unfold boundsInv. simpl. split_and!; try lia; try done;
        intros Hpos; specialize (Hn' Hpos); lia.
Qed.

Lemma loop_safe k s m :
  boundsInv ns2 s ->
  faultsFrom rec (loop info rec ns1 ns2 partial k s m)
  /\ forall s' m', loop info rec ns1 ns2 partial k s m = Ret (Some s') m' ->
       (wildStart s' <= i2 s' <= len ns2)%nat
       /\ (partialStart s' <= partialEnd s' <= len ns2)%nat.
Proof.
  revert s m. induction k as [|k IH]; intros s m Hi; [by split|].
  rewrite loop_S. destruct (_ || _).
  2:{ split; [done|]. intros s' m' [= <- <-].
      destruct Hi as (? & ? & ? & ? & ?). lia. }
  destruct (tryPattern_safe s m Hi) as [Hsafe Hinv].
  assert (Hbody : faultsFrom rec (loopBody info rec ns1 ns2 partial s m)
            /\ forall c m1, loopBody info rec ns1 ns2 partial s m = Ret c m1 ->
                 match c with
                 | Continue s1 => boundsInv ns2 s1
                 | Break s1 =>
                     (wildStart s1 <= i2 s1 <= len ns2)%nat
                     /\ (partialStart s1 <= partialEnd s1 <= len ns2)%nat
                 | ReturnNil => True
                 end).
  { unfold loopBody. split.
    - apply bind_safe; [exact Hsafe|]. intros [s1|s1] m1 _; [done|].
      unfold mismatch. destruct (atPartialEnd _ _ _); [done|].
      by destruct (canRestart _ _).
    - intros c m1 Hr. apply bind_inv in Hr as (r & m2 & Ht & Hr).
      specialize (Hinv _ _ Ht). destruct r as [s1|s1]; simpl in Hinv.
      + by injection Hr as <- <-.
      + destruct Hinv as (Hi2 & Hw & Hp & Hn & He).
        unfold mismatch in Hr. destruct (atPartialEnd _ _ _).
        * injection Hr as <- <-. simpl. lia.
        * destruct (canRestart ns2 s1) eqn:Hcr; injection Hr as <- <-; [|done].
          unfold canRestart in Hcr.
          apply andb_true_iff in Hcr as [Hcr _].
          apply andb_true_iff in Hcr as [Hpos%bool_decide_eq_true
                                           Hle%bool_decide_eq_true].
          specialize (Hn Hpos). unfold boundsInv. simpl.
          split_and!; try lia; done. }
  destruct Hbody as [Hb1 Hb2]. split.
  - apply bind_safe; [exact Hb1|]. intros [s1|s1|] m1 Hc; [|done..].
    apply IH. exact (Hb2 _ _ Hc).
  - intros s' m' Hr. apply bind_inv in Hr as (c & m1 & Hc & Hr).
    specialize (Hb2 _ _ Hc). destruct c as [s1|s1|].
    + exact (proj2 (IH s1 m1 Hb2) _ _ Hr).
    + by injection Hr as <- <-.
    + discriminate.
Qed.

(** X16: matcher.nodes indexes and slices its two lists within their
    bounds: a panic of matcher.nodes is the panic of one of the calls of
    matcher.node it makes, whatever the lists, the mode and the matcher
    state. *)
Theorem nodes_index_safe fuel m f :
  nodes info rec fuel ns1 ns2 partial m = Panic f ->
  exists e n m0, rec e n m0 = Panic f.
Proof.
  revert f. change (faultsFrom rec (nodes info rec fuel ns1 ns2 partial m)).
  unfold nodes.
  destruct (bool_decide (len ns1 = 0%nat)); [by destruct (bool_decide _)|].
  apply bind_safe; [done|]. intros s m1 Hb.
  rewrite backupMatches_run in Hb. injection Hb as <- <-.
  assert (Hi : boundsInv ns2 (set_oldMatches (length (store m))
                      (LoopState 0 0 0 0 "" 0 0 (len ns2) 0)))
    by (unfold boundsInv; simpl; split_and!; try lia; done).
  destruct (loop_safe fuel _
              (Matcher (store m ++ [bindingsOf m]) (values m) (scope m)
                       (aggressive m)) Hi) as [Hsafe Hend].
  apply bind_safe; [exact Hsafe|]. intros [s'|] m2 Hl; [|done].
  destruct (Hend _ _ Hl) as [Hw Hp].
  apply bind_safe; [by apply wouldMatch_safe|]. intros [] m3 _; [|done].
  cbn [negb]. apply bind_safe; [by apply slice_safe|done].
Qed.
End Bounds.


(** ** A single wildcard and the list nodes *)

Section AnyNode.
Context `{Collaborators}.
Variable info : Z -> varInfo.

Lemma wildcard_any_node fuel w n cand m :
  isWildName w = true -> info (fromWildName w) = plainVar n -> wf m ->
  n = "_" \/ bindingsOf m !! n = None ->
  exists m',
    node info (S fuel) (Some (Ident w)) (Some cand) m = Ret true m'
    /\ topNode info (S fuel) (Ident w) cand m = Ret (Some cand) m'
    /\ bindingsOf m'
       = if bool_decide (n = "_") then bindingsOf m
         else <[n:=cand]> (bindingsOf m).
Proof.
  intros Hw Hinfo Hwf Hn.
  assert (Hrun : exists m',
            node info (S fuel) (Some (Ident w)) (Some cand) m = Ret true m'
            /\ bindingsOf m'
               = if bool_decide (n = "_") then bindingsOf m
                 else <[n:=cand]> (bindingsOf m)).
  { rewrite node_some. unfold bind at 1. rewrite reseatScope_reseated.
    cbn [node_switch]. unfold identCase. rewrite Hw, Hinfo.
    cbn [negb any nameRxs needExpr name plainVar nameRxsOk]. simpl.
    case_bool_decide as Hb.
    - exists (reseated (Some cand) m). by split.
    - destruct Hn as [Hn|Hn]; [done|].
      rewrite bind_ret_l. cbn [negb].
      rewrite bind_lookupValue, reseated_bindings, Hn.
      destruct (storeValue_bindings n cand (reseated (Some cand) m))
        as (m' & Hs & Hbd & _); [exact Hwf|].
      exists m'. unfold bind. rewrite Hs. split; [reflexivity|].
      by rewrite Hbd, reseated_bindings. }
  destruct Hrun as (m' & Hr & Hb). exists m'. split; [exact Hr|].
  split; [|exact Hb]. unfold topNode, bind. rewrite Hr. reflexivity.
Qed.

(** X17: a single wildcard without constraints matches every candidate
    that is not nil, the list nodes exprList, identList, stmtList and
    specList included (the test before the wildcard is looked up lets every
    non-nil node through); so does topNode.  A wildcard named _ leaves the
    captures as they are; another name, not yet bound, is bound to the
    candidate.  As the attempt of a stage empties the captures first, every
    attempt of the stages g and v with such a pattern on a non-nil node
    succeeds. *)
Theorem single_wildcard_any_node fuel w n cand :
  isWildName w = true -> info (fromWildName w) = plainVar n ->
  (* on its own *)
  (forall m, wf m -> n = "_" \/ bindingsOf m !! n = None ->
     exists m',
       node info (S fuel) (Some (Ident w)) (Some cand) m = Ret true m'
       /\ topNode info (S fuel) (Ident w) cand m = Ret (Some cand) m'
       /\ bindingsOf m'
          = if bool_decide (n = "_") then bindingsOf m
            else <[n:=cand]> (bindingsOf m))
  (* as an attempt of a stage, which empties the captures first *)
  /\ (forall any_ m, wf m ->
        exists m',
          filterMatch info (S fuel) any_ (Ident w) (Some cand) m
          = Ret true m').
Proof.
  intros Hw Hinfo. split; [intros m; by apply wildcard_any_node|].
  intros any_ m Hwf. unfold filterMatch.
  unfold bind at 1. rewrite resetValues_run.
  set (m1 := Matcher (store m ++ [∅]) (length (store m)) (scope m)
                     (aggressive m)).
  assert (Hb1 : bindingsOf m1 = ∅).
  { unfold bindingsOf, deref, m1. cbn [store values].
    rewrite lookup_app_r by lia. by rewrite Nat.sub_diag. }
  destruct (wildcard_any_node fuel w n cand m1 Hw Hinfo) as (m' & _ & Ht & _).
  - unfold wf, m1. cbn [store values]. rewrite length_app. simpl. lia.
  - right. rewrite Hb1. apply lookup_empty.
  - exists m'. unfold bind. rewrite Ht. reflexivity.
Qed.
End AnyNode.


(** ** Searching a statement list *)

Section Search.
Context `{Collaborators}.
Variable info : Z -> varInfo.
Hypothesis info_none : any (info (-1)%Z) = false.
Hypothesis info_plain :
  forall s, isWildName s = false -> any (info (fromWildName s)) = false.

Section SearchLoop.
Variable rec : option Node -> option Node -> M bool.
Hypothesis rec_framed : forall e n, framed (rec e n).
Hypothesis rec_identifies : identifies rec.
Hypothesis rec_accepts : accepts rec.
Variables ns1 ns2 : nodeList.
Hypothesis Hplain : forallb plain (elems ns1) = true.
Hypothesis Hpos : (0 < len ns1)%nat.
Variable m0 : matcher.
Hypothesis Hstrict0 : aggressive m0 = false.

Lemma occursAt_elem j i n1 :
  occursAt ns1 ns2 j -> elems ns1 !! i = Some n1 ->
  exists n2, elems ns2 !! (j + i)%nat = Some n2 /\ erase n2 = erase n1.
Proof.
  intros Ho Hn1. unfold occursAt in Ho.
  assert (E : List.map erase (take (len ns1) (drop j (elems ns2))) !! i
              = Some (erase n1)).
  { rewrite Ho, list_lookup_fmap, Hn1. reflexivity. }
  rewrite list_lookup_fmap in E.
  destruct (take (len ns1) (drop j (elems ns2)) !! i) as [n2|] eqn:E2;
    [|discriminate].
  apply lookup_take_Some in E2 as [E2 _]. rewrite lookup_drop in E2.
  exists n2. split; [exact E2|]. simpl in E. by injection E.
Qed.

Lemma occursAt_bound j : occursAt ns1 ns2 j -> (j + len ns1 <= len ns2)%nat.
Proof.
  intros Ho. unfold occursAt in Ho.
  apply (f_equal length) in Ho. rewrite !length_map in Ho.
  rewrite length_take, length_drop in Ho. unfold len in *. lia.
Qed.

Lemma frame_strict s m : loopFrame m0 s m -> strict m.
Proof.
  intros [(W & _ & _ & A & _) _]. split; [exact W|congruence].
Qed.

Lemma search_pass s m c m1 :
  searchInv ns1 ns2 s -> loopFrame m0 s m ->
  bool_decide (i1 s < len ns1)%nat || bool_decide (i2 s < len ns2)%nat = true ->
  loopBody info rec ns1 ns2 true s m = Ret c m1 ->
  match c with
  | Continue s' => searchInv ns1 ns2 s'
  | Break s' => searchEnd ns1 ns2 s'
  | ReturnNil => forall j, ~ occursAt ns1 ns2 j
  end.
Proof.
  intros (W & N1 & Pe & L1 & L2 & Hno & Hpre) Hf Hcond Hb.
  unfold loopBody in Hb. apply bind_inv in Hb as (t & m2 & Ht & Hb).
  unfold tryPattern in Ht.
  destruct (decide (i1 s < len ns1)%nat) as [Hi|Hi].
  2:{ (* the pattern is used up *)
      rewrite bool_decide_eq_false_2 in Ht by exact Hi. cbn [negb] in Ht.
      injection Ht as <- <-.
      assert (E1 : i1 s = len ns1) by lia.
      unfold mismatch, atPartialEnd in Hb. cbn [andb] in Hb.
      rewrite (bool_decide_eq_true_2 _ E1), (bool_decide_eq_true_2 _ W) in Hb.
      cbn [andb] in Hb. injection Hb as <- <-.
      destruct (Hpre ltac:(lia)) as (E2 & _ & Hp).
      unfold tried in Hno. rewrite bool_decide_eq_false_2 in Hno by lia.
      unfold searchEnd. cbn. split_and!; auto; try lia.
      unfold occursAt. rewrite E1 in Hp. rewrite <- Hp.
      unfold len. by rewrite firstn_all. }
  rewrite bool_decide_eq_true_2 in Ht by exact Hi. cbn [negb] in Ht.
  destruct (elems ns1 !! i1 s) as [n1|] eqn:Hn1;
    [|apply lookup_ge_None in Hn1; unfold len in Hi; lia].
  unfold at_ at 1 in Ht. rewrite Hn1, bind_ret_l in Ht.
  assert (Hp1 : plain n1 = true).
  { rewrite forallb_forall in Hplain. apply Hplain.
    apply list_elem_of_In. by eapply list_elem_of_lookup_2. }
  rewrite (fromWildNode_plain info info_none info_plain _ Hp1) in Ht.
  cbn [andb] in Ht.
  apply bind_inv in Ht as (s1 & m3 & Hs1 & Ht).
  (* the state after the snapshot of the first position *)
  assert (Hst : loopFrame m0 s1 m3
            /\ i1 s1 = i1 s /\ i2 s1 = i2 s /\ next1 s1 = 0%nat
            /\ wildName s1 = "" /\ partialEnd s1 = len ns2
            /\ partialStart s1 = tried s
            /\ next2 s1 = (tried s + 1)%nat).
  { unfold tried. destruct (decide (i1 s = 0%nat)) as [E0|E0].
    - rewrite (bool_decide_eq_true_2 _ E0) in Hs1 |- *.
      pose proof (backupMatches_frame m0 _ _ _ _ (proj1 Hf) Hs1) as Hf1.
      rewrite backupMatches_run in Hs1. injection Hs1 as <- <-.
      by split_and!.
    - rewrite (bool_decide_eq_false_2 _ E0) in Hs1 |- *.
      injection Hs1 as <- <-. destruct (Hpre ltac:(lia)) as (E2 & E3 & _).
      by split_and!. }
  destruct Hst as (Hf1 & I1 & I2 & N1' & W1 & Pe1 & Ps1 & N2').
  assert (Hi2 : i2 s = (tried s + i1 s)%nat).
  { unfold tried. destruct (decide (i1 s = 0%nat)) as [E0|E0].
    - rewrite (bool_decide_eq_true_2 _ E0). lia.
    - rewrite (bool_decide_eq_false_2 _ E0).
      by destruct (Hpre ltac:(lia)) as (E2 & _). }
  (* the pattern is not at the start that is tried when the test fails *)
  assert (Hfail : forall m4,
            (ret (bool_decide (i2 s1 < len ns2)%nat) &&& wouldMatch rec ns2 s1
             &&& (let* n2 := at_ ns2 (i2 s1) in rec (Some n1) (Some n2))) m3
            = Ret false m4 ->
            ~ occursAt ns1 ns2 (tried s)).
  { intros m4 Hok Ho.
    destruct (occursAt_elem _ _ _ Ho Hn1) as (n2 & Hn2 & He).
    rewrite <- Hi2 in Hn2.
    unfold andM in Hok. rewrite !bind_assoc, bind_ret_l in Hok.
    rewrite I2 in Hok.
    rewrite bool_decide_eq_true_2 in Hok by (by eapply lookup_lt_Some).
    unfold bind at 1 in Hok.
    rewrite (wouldMatch_none _ _ _ _ W1) in Hok.
    unfold at_ in Hok. rewrite Hn2, bind_ret_l in Hok.
    assert (false = true); [|discriminate].
    eapply (rec_accepts (Some n1) (Some n2));
      [exact (frame_strict _ _ Hf1)|exact Hp1| |exact Hok].
    simpl. by rewrite He. }
  apply bind_inv in Ht as (ok & m4 & Hok & Ht). destruct ok.
  - (* the element matches *)
    injection Ht as <- <-. injection Hb as <- <-.
    apply andM_true in Hok as (m5 & Hok & Hrec).
    apply andM_true in Hok as (m6 & Hlt & Hw).
    injection Hlt as Hlt <-. apply bool_decide_eq_true in Hlt.
    rewrite (wouldMatch_none _ _ _ _ W1) in Hw. injection Hw as <-.
    apply bind_inv in Hrec as (n2 & m7 & Hat2 & Hrec).
    apply at_run in Hat2 as [Hn2 ->].
    pose proof (rec_identifies (Some n1) (Some n2) _ _
                  (frame_strict _ _ Hf1) Hp1 Hrec) as He.
    simpl in He. injection He as He.
    assert (Et : tried (set_i (i1 s1 + 1) (i2 s1 + 1)
                          (set_wild "" (wildStart s1) s1)) = tried s).
    { unfold tried at 1. cbn. rewrite bool_decide_eq_false_2 by lia.
      exact Ps1. }
    unfold searchInv. rewrite Et. cbn. rewrite I1, I2, N1', Pe1, Ps1, N2'.
    split_and!; auto; try lia.
    intros _. split; [lia|]. split; [reflexivity|].
    replace (i1 s + 1)%nat with (S (i1 s)) by lia.
    rewrite (take_S_r _ _ _ Hn1).
    assert (Hd : drop (tried s) (elems ns2) !! i1 s = Some n2).
    { rewrite lookup_drop, <- Hi2, <- I2. exact Hn2. }
    rewrite (take_S_r _ _ _ Hd). rewrite !map_app. cbn [List.map].
    rewrite He. f_equal.
    destruct (decide (i1 s = 0%nat)) as [E0|E0]; [by rewrite E0|].
    unfold tried. rewrite bool_decide_eq_false_2 by exact E0.
    by destruct (Hpre ltac:(lia)) as (_ & _ & Hp).
  - (* the element does not match *)
    injection Ht as <- <-. specialize (Hfail _ Hok).
    unfold mismatch, atPartialEnd in Hb. cbn [andb] in Hb.
    rewrite (bool_decide_eq_false_2 (i1 s1 = len ns1)) in Hb by lia.
    cbn [andb] in Hb.
    assert (Hall : forall j, (j < tried s + 1)%nat -> ~ occursAt ns1 ns2 j).
    { intros j Hj. destruct (decide (j = tried s)) as [->|Hne]; [exact Hfail|].
      apply Hno. lia. }
    destruct (canRestart ns2 s1) eqn:Hcr.
    + injection Hb as <- <-.
      unfold canRestart in Hcr.
      apply andb_true_iff in Hcr as [Hcr _].
      apply andb_true_iff in Hcr as [_ Hle%bool_decide_eq_true].
      assert (Et : tried (set_i (next1 s1) (next2 s1) s1)
                   = (tried s + 1)%nat).
      { unfold tried at 1. cbn. rewrite N1'. exact N2'. }
      unfold searchInv. rewrite Et. cbn. rewrite N1', N2', W1, Pe1.
      split_and!; auto; try lia.
    + injection Hb as <- <-. intros j Ho.
      unfold canRestart in Hcr. rewrite N2', N1', I1, I2 in Hcr.
      rewrite (bool_decide_eq_true_2 (0 < tried s + 1)%nat) in Hcr by lia.
      cbn [andb] in Hcr.
      assert (Hne : bool_decide (i1 s ≠ 0%nat)
                    || bool_decide (i2 s ≠ (tried s + 1)%nat) = true).
      { apply orb_true_iff.
        destruct (decide (i1 s = 0%nat)) as [E0|E0].
        - right. apply bool_decide_eq_true_2. lia.
        - left. by apply bool_decide_eq_true_2. }
      rewrite Hne, andb_true_r in Hcr. apply bool_decide_eq_false in Hcr.
      destruct (decide (j < tried s + 1)%nat) as [Hj|Hj];
        [exact (Hall j Hj Ho)|].
      pose proof (occursAt_bound _ Ho). lia.
Qed.

Lemma search_loop k s m r m' :
  searchInv ns1 ns2 s -> loopFrame m0 s m ->
  loop info rec ns1 ns2 true k s m = Ret r m' ->
  match r with
  | Some s' => searchEnd ns1 ns2 s'
  | None => forall j, ~ occursAt ns1 ns2 j
  end.
Proof.
  revert s m. induction k as [|k IH]; intros s m Hi Hf Hr; [discriminate|].
  rewrite loop_S in Hr.
  destruct (bool_decide (i1 s < len ns1)%nat || bool_decide (i2 s < len ns2)%nat)
    eqn:Hcond.
  2:{ injection Hr as <- <-.
      apply orb_false_iff in Hcond as [C1%bool_decide_eq_false
                                         C2%bool_decide_eq_false].
      destruct Hi as (W & N1 & Pe & L1 & L2 & Hno & Hpre).
      assert (E1 : i1 s = len ns1) by lia.
      destruct (Hpre ltac:(lia)) as (E2 & _ & Hp).
      unfold tried in Hno. rewrite bool_decide_eq_false_2 in Hno by lia.
      unfold searchEnd. split_and!; auto; try lia.
      unfold occursAt. rewrite E1 in Hp. rewrite <- Hp.
      unfold len. by rewrite firstn_all. }
  apply bind_inv in Hr as (c & m1 & Hb & Hr).
  pose proof (search_pass _ _ _ _ Hi Hf Hcond Hb) as Hc.
  pose proof (loopBody_frame info rec rec_framed ns1 ns2 true _ _ _ _ _ Hf Hb) as Hf1.
  destruct c as [s1|s1|].
  - by eapply IH.
  - by injection Hr as <- <-.
  - by injection Hr as <- <-.
Qed.

Lemma nodes_search k o m' :
  wf m0 ->
  nodes info rec k ns1 ns2 true m0 = Ret o m' ->
  match o with
  | Some r =>
      exists i, occursAt ns1 ns2 i
        /\ (forall j, (j < i)%nat -> ~ occursAt ns1 ns2 j)
        /\ r = listNode (NodeList (lkind ns2)
                           (take (len ns1) (drop i (elems ns2))))
  | None => forall j, ~ occursAt ns1 ns2 j
  end.
Proof.
  intros Hs Hr. unfold nodes in Hr.
  rewrite bool_decide_eq_false_2 in Hr by lia.
  apply bind_inv in Hr as (s & m1 & Hb & Hr).
  pose proof (backupMatches_frame m0 _ _ _ _ (extends_refl _ Hs) Hb) as Hf.
  rewrite backupMatches_run in Hb. injection Hb as <- <-.
  apply bind_inv in Hr as (r & m2 & Hl & Hr).
  eapply search_loop in Hl; [| |exact Hf].
  2:{ unfold searchInv. cbn. split_and!; try done; try lia.
      intros j Hj. unfold tried in Hj. simpl in Hj. lia. }
  destruct r as [s'|]; [|by injection Hr as <- <-].
  destruct Hl as (W & Pe & Le & Ho & Hno).
  rewrite (bind_ret _ _ _ _ _ (wouldMatch_none _ _ _ _ W)) in Hr.
  cbn [negb] in Hr.
  apply bind_inv in Hr as (l & m3 & Hsl & Hr). injection Hr as <- <-.
  apply slice_inv in Hsl as (_ & -> & _).
  exists (partialStart s'). split; [exact Ho|]. split; [exact Hno|].
  do 3 f_equal. lia.
Qed.

End SearchLoop.

(** X18: in partial mode and strict mode, a pattern list that is not empty
    and has no wildcard is searched for as a contiguous run of the candidate
    list: when matcher.nodes returns a node, it is the leftmost run of the
    candidate list whose elements have the images of the pattern's elements
    under [erase] (they agree with them in everything matcher.node compares
    and can differ in places, tags of struct fields and tokens of range
    statements); when it returns nil, the candidate list has no such run. *)
Theorem partial_search_leftmost fuel k ns1 ns2 m o m' :
  strict m -> forallb plain (elems ns1) = true -> (0 < len ns1)%nat ->
  nodes info (node info fuel) k ns1 ns2 true m = Ret o m' ->
  match o with
  | Some r =>
      exists i, occursAt ns1 ns2 i
        /\ (forall j, (j < i)%nat -> ~ occursAt ns1 ns2 j)
        /\ r = listNode (NodeList (lkind ns2)
                           (take (len ns1) (drop i (elems ns2))))
  | None => forall j, ~ occursAt ns1 ns2 j
  end.
Proof.
  intros Hs Hp Hpos Hr.
  eapply (nodes_search (node info fuel) (framed_node info fuel)
            (node_identifies info info_none info_plain fuel)
            (node_accepts info info_none info_plain fuel)
            ns1 ns2 Hp Hpos m (proj2 Hs) k o m' (proj1 Hs) Hr).
Qed.

End Search.


(** ** Examples on the sample patterns *)

Module Examples.
Import Fixture Samples.

Lemma yields_run {A} (o : outcome matcher A) r b :
  yields o r b -> exists m, o = Ret r m.
Proof.
  unfold yields, view. destruct o as [r' m| |]; try discriminate.
  intros [= -> _]. by exists m.
Qed.

Ltac run := vm_compute; reflexivity.

(** C3 (as amended): matching [$*a, last] against [1, 2, last] succeeds
    and binds a to [1, 2]; against [last] it succeeds and binds a to the
    empty list; against [1, 2, 3] it returns nil, as the identifier last
    matches only an identifier of that name; and with the literal 3 as
    last element, matching against [1, 2, 3] succeeds and binds a to
    [1, 2]. *)
Theorem multi_wildcard_absorption :
  yields (matcher_nodes info 20 (exprsOf [wild 0; Ident "last"])
            (exprsOf [lit "1"; lit "2"; Ident "last"]) false (matcher0 false))
         (Some (exprList [lit "1"; lit "2"; Ident "last"]))
         [("a", exprList [lit "1"; lit "2"])]
  /\ yields (matcher_nodes info 20 (exprsOf [wild 0; Ident "last"])
               (exprsOf [Ident "last"]) false (matcher0 false))
            (Some (exprList [Ident "last"]))
            [("a", exprList [])]
  /\ yields (matcher_nodes info 20 (exprsOf [wild 0; Ident "last"])
               (exprsOf [lit "1"; lit "2"; lit "3"]) false (matcher0 false))
            None []
  /\ yields (matcher_nodes info 20 (exprsOf [wild 0; lit "3"])
               (exprsOf [lit "1"; lit "2"; lit "3"]) false (matcher0 false))
            (Some (exprList [lit "1"; lit "2"; lit "3"]))
            [("a", exprList [lit "1"; lit "2"])].
Proof. split_and!; run. Qed.

(* With the single wildcard $last as second element the match against
   [1, 2, 3] succeeds, and a is bound to the empty list: the ordinary
   match of a failed attempt clears wildName, and the restart then moves
   wildStart to the restart position. *)
Lemma window_start_lost :
  yields (matcher_nodes info 20 (exprsOf [wild 0; wild 3])
            (exprsOf [lit "1"; lit "2"; lit "3"]) false (matcher0 false))
         (Some (exprList [lit "1"; lit "2"; lit "3"]))
         [("a", exprList []); ("last", lit "3")].
Proof. run. Qed.

Lemma last_is_not_three :
  ~ exists r m,
      matcher_nodes info 20 (exprsOf [wild 0; Ident "last"])
        (exprsOf [lit "1"; lit "2"; lit "3"]) false (matcher0 false)
      = Ret (Some r) m.
Proof.
  intros (r & m & E).
  assert (Y : yields (matcher_nodes info 20 (exprsOf [wild 0; Ident "last"])
                        (exprsOf [lit "1"; lit "2"; lit "3"]) false
                        (matcher0 false)) None []) by run.
  unfold yields in Y. rewrite E in Y. discriminate Y.
Qed.

(** C4: in partial mode the pattern [b; c] matches the statement list
    [a; b; c; d] and the result is the sub-list [b; c]; the Range stage
    finds it in the block of these statements, and the block itself does
    not match. *)
Theorem partial_match_subrange :
  yields (matcher_nodes info 20 (stmtsOf [stmt "b"; stmt "c"])
            (stmtsOf [stmt "a"; stmt "b"; stmt "c"; stmt "d"]) true
            (matcher0 false))
         (Some (stmtList [stmt "b"; stmt "c"])) []
  /\ yields (topNode info 20 (stmtList [stmt "b"; stmt "c"])
               (BlockStmt [stmt "a"; stmt "b"; stmt "c"; stmt "d"])
               (matcher0 false))
            None []
  /\ yields (cmdRange info 20 (ExprCmd "x" (stmtList [stmt "b"; stmt "c"]))
               [BlockStmt [stmt "a"; stmt "b"; stmt "c"; stmt "d"]]
               (matcher0 false))
            [stmtList [stmt "b"; stmt "c"]] [].
Proof. split_and!; run. Qed.

(* in aggressive mode $x; $x matches two declarations that differ; in
   strict mode it matches two range statements that differ in their token,
   and f($x, $x) matches a call whose arguments differ in a struct tag *)
Lemma relaxed_reuse_differs :
  (yields (topNode info 20 (stmtList [ExprStmt (wild 1); ExprStmt (wild 1)])
             (stmtList [decl1; decl2]) (matcher0 true))
          (Some (stmtList [decl1; decl2])) [("x", decl1)]
   /\ erase decl1 <> erase decl2)
  /\ (yields (topNode info 20
                (stmtList [ExprStmt (wild 1); ExprStmt (wild 1)])
                (stmtList [rangeAssign; rangeDefine]) (matcher0 false))
             (Some (stmtList [rangeAssign; rangeDefine]))
             [("x", rangeAssign)]
      /\ rangeAssign <> rangeDefine)
  /\ (yields (node info 20
                (Some (CallExpr (Ident "f") [wild 1; wild 1] NoPos))
                (Some (CallExpr (Ident "f") [tagged; untagged] NoPos))
                (matcher0 false))
             true [("x", tagged)]
      /\ tagged <> untagged).
Proof. split_and!; try run; discriminate. Qed.

(* in partial mode too, the empty pattern list fails on a list that is
   not empty *)
Lemma empty_pattern_partial_fails :
  ~ exists r m,
      matcher_nodes info 20 (stmtsOf []) (stmtsOf [stmt "a"]) true
        (matcher0 false)
      = Ret (Some r) m.
Proof.
  intros (r & m & E).
  assert (Y : yields (matcher_nodes info 20 (stmtsOf []) (stmtsOf [stmt "a"])
                        true (matcher0 false)) None []) by run.
  unfold yields in Y. rewrite E in Y. discriminate Y.
Qed.

(* the table of the fixture has the two properties of the pattern parser *)
Lemma info_none vs : any (infoOf vs (-1)%Z) = false.
Proof. reflexivity. Qed.

Lemma fromWild_plain s : isWild s = false -> fromWild s = (-1)%Z.
Proof. unfold fromWild. by intros ->. Qed.

Lemma info_plain vs s :
  isWildName s = false -> any (infoOf vs (fromWildName s)) = false.
Proof. intros Hs. simpl in *. by rewrite (fromWild_plain s Hs). Qed.

Lemma binary_reuse_run :
  yields (node info 7 (Some (BinaryExpr (wild 1) token_ADD (wild 1)))
            (Some (BinaryExpr (Ident "a") token_ADD (Ident "a")))
            (matcher0 false))
         true [("x", Ident "a")].
Proof. run. Qed.

Lemma repeated_capture_witness :
  (isWildName "gogrep_1" = true /\ strict (matcher0 false)
   /\ plain (Ident "a") = true
   /\ exists m',
        node info 7 (Some (BinaryExpr (wild 1) token_ADD (wild 1)))
             (Some (BinaryExpr (Ident "a") token_ADD (Ident "a")))
             (matcher0 false) = Ret true m')
  /\ (token_ADD = token_ADD /\ erase (Ident "a") = erase (Ident "a")).
Proof.
  destruct (yields_run _ _ _ binary_reuse_run) as [m' E].
  assert (Hs : strict (matcher0 false))
    by (split; [unfold wf; simpl; lia|reflexivity]).
  split; [split_and!; [reflexivity|exact Hs|reflexivity|by exists m']|].
  apply (proj1 (proj2 (proj2 (repeated_capture_consistency info
                                (info_none vars) (info_plain vars))))
           5%nat "gogrep_1" "x" token_ADD (Ident "a") token_ADD (Ident "a")
           (matcher0 false) m').
  - reflexivity.
  - reflexivity.
  - discriminate.
  - reflexivity.
  - exact Hs.
  - reflexivity.
  - exact E.
Defined.

Lemma callExpr_ellipsis_witness :
  (IsValid NoPos = false /\ IsValid 7%Z = true)
  /\ forall k m',
       node info k (Some (CallExpr (Ident "f") [lit "1"] NoPos))
            (Some (CallExpr (Ident "f") [lit "1"] 7%Z)) (matcher0 false)
       <> Ret true m'.
Proof.
  split; [by split|].
  apply (proj2 (proj2 (callExpr_ellipsis info 0 (Ident "f") [lit "1"] NoPos
                         (Ident "f") [lit "1"] 7%Z (matcher0 false))));
    reflexivity.
Defined.

Lemma exprStmt_wildcard_witness :
  (isWildName "gogrep_1" = true /\ wf (matcher0 false))
  /\ exists m',
       node info 7 (Some (ExprStmt (wild 1))) (Some (ReturnStmt [lit "1"]))
            (matcher0 false) = Ret true m'
       /\ bindingsOf m' = <["x" := ReturnStmt [lit "1"]]> (bindingsOf (matcher0 false)).
Proof.
  split; [split; [reflexivity|unfold wf; simpl; lia]|].
  apply (proj1 (proj2 (exprStmt_wildcard info 5 (ReturnStmt [lit "1"])
                         (matcher0 false))) "gogrep_1" "x").
  - reflexivity.
  - reflexivity.
  - discriminate.
  - unfold wf; simpl; lia.
  - reflexivity.
Defined.

Lemma resolveType_faults_witness :
  (isIntLit (Ident "n") = false
   /\ resolveType (Some tt) (Ident "int") = Resolved "int")
  /\ resolveType (Some tt) badArray = Fatal (ArrayLenTODO badArray).
Proof.
  split; [by split|].
  apply (proj1 (proj2 (resolveType_faults_are_fatal info))
           (Some tt) (Ident "n") (Ident "int") "int"); reflexivity.
Defined.

Lemma backtrack_restores_witness :
  let ns1 := exprsOf [wild 0; Ident "last"] in
  let ns2 := exprsOf [lit "1"; lit "2"; Ident "last"] in
  wf (matcher0 false)
  /\ exists s m r m1,
       backupMatches (LoopState 0 0 0 0 "" 0 0 (len ns2) 0) (matcher0 false)
       = Ret s m
       /\ checkpointInv info ns1 false s m
       /\ tryPattern info (node info 20) ns1 ns2 false s m = Ret r m1
       /\ snapshotOf (afterTry r) m1 = checkpointBindings info ns1 false s m.
Proof.
  intros ns1 ns2.
  assert (Hwf : wf (matcher0 false)) by (unfold wf; simpl; lia).
  split; [exact Hwf|].
  destruct (backtrack_restores_snapshot info 20 ns1 ns2 false)
    as (_ & Tinit & Tpass & _).
  eexists _, _, _, _.
  assert (Hb : backupMatches (LoopState 0 0 0 0 "" 0 0 (len ns2) 0)
                 (matcher0 false)
               = Ret (set_oldMatches 1 (LoopState 0 0 0 0 "" 0 0 (len ns2) 0))
                     (Matcher [∅; ∅] 0 None false)) by reflexivity.
  split; [exact Hb|].
  pose proof (Tinit _ _ _ Hwf Hb) as Hinv.
  split; [exact Hinv|].
  assert (Ht : tryPattern info (node info 20) ns1 ns2 false
                 (set_oldMatches 1 (LoopState 0 0 0 0 "" 0 0 (len ns2) 0))
                 (Matcher [∅; ∅] 0 None false)
               = Ret (inl (LoopState 1 0 0 1 "a" 0 0 3 2))
                     (Matcher [∅; ∅; ∅] 0 None false))
    by reflexivity.
  split; [exact Ht|].
  exact (proj1 (proj1 (Tpass _ _ Hinv) _ _ Ht)).
Defined.

End Examples.

(** ** The further properties on the sample patterns *)

Module Checks.
Import Fixture Samples.

Lemma strict0 : strict (matcher0 false).
Proof. split; [unfold wf; simpl; lia|reflexivity]. Qed.

Lemma wf0 aggr : wf (matcher0 aggr).
Proof. unfold wf. simpl. lia. Qed.

Lemma sub_run :
  yields (nodes info (node info 20) 20 (stmtsOf [stmt "b"; stmt "c"])
            (stmtsOf [stmt "a"; stmt "b"; stmt "c"; stmt "d"]) true
            (matcher0 false))
         (Some (stmtList [stmt "b"; stmt "c"])) [].
Proof. vm_compute. reflexivity. Qed.

Lemma sequence_result_witness :
  exists i j, (i <= j <= 4)%nat
    /\ stmtList [stmt "b"; stmt "c"]
       = listNode (NodeList StmtL
           (take (j - i) (drop i [stmt "a"; stmt "b"; stmt "c"; stmt "d"]))).
Proof.
  destruct (Examples.yields_run _ _ _ sub_run) as [m' E].
  exact (proj1 (proj1 (sequence_result_shape info) _ _ _ _ _ _ _ _ E)).
Defined.

Lemma matches_pipeline_witness :
  knownCmd (ExprCmd "z" (Ident "a")) = false
  /\ matches info 5 [ExprCmd "z" (Ident "a")] [Ident "a"] (matcher0 false)
     = Panic NilDereference.
Proof.
  split; [reflexivity|].
  apply (proj2 (proj2 (proj2 (matches_pipeline info 5)))). reflexivity.
Defined.

Lemma unsupported_pattern_witness :
  unsupported (TypeSpec (Ident "T") (Ident "int")) = true
  /\ node info 1 (Some (TypeSpec (Ident "T") (Ident "int")))
          (Some (Ident "a")) (matcher0 false)
     = Panic (UnexpectedNode (TypeSpec (Ident "T") (Ident "int"))).
Proof.
  split; [reflexivity|].
  apply (proj1 (unsupported_pattern_panics info)). reflexivity.
Defined.

Lemma comm_clause_witness :
  (isExprStmt (SendStmt (Ident "ch") (Ident "v")) = false
   /\ forallb isClause [CommClause None []] = true)
  /\ cases info (node info 5) 5
       [CommClause (Some (SendStmt (Ident "ch") (Ident "v"))) [stmt "f"]]
       [CommClause None []] (matcher0 false)
     = Panic TypeAssertion.
Proof.
  split; [by split|].
  apply (proj1 (comm_clause_panics info)); reflexivity.
Defined.

Lemma nil_operands_witness :
  aggressive (matcher0 true) = true
  /\ node info 1 (Some (Ident "_")) None (matcher0 true)
     = Ret true (matcher0 true).
Proof.
  split; [reflexivity|].
  apply (proj2 (proj2 (proj2 (nil_operands info 0 (Ident "_") (Ident "_")
                                (matcher0 true))) eq_refl)).
Defined.

Lemma list_positions_witness :
  exprsOf [lit "1"] ∈ nodeLists (Some (CallExpr (Ident "f") [lit "1"] NoPos))
  /\ (0 < len (exprsOf [lit "1"]))%nat.
Proof.
  assert (Hin : exprsOf [lit "1"]
                ∈ nodeLists (Some (CallExpr (Ident "f") [lit "1"] NoPos)))
    by apply list_elem_of_here.
  split; [exact Hin|].
  exact (proj1 list_positions _ _ Hin).
Defined.

Lemma self_capture_witness :
  (isWildName "gogrep_1" = true /\ info (fromWildName "gogrep_1") = plainVar "x"
   /\ wf (matcher0 false) /\ bindingsOf (matcher0 false) !! "x" = None)
  /\ node info 9 (Some (BinaryExpr (wild 1) token_ADD (wild 1)))
          (Some (BinaryExpr (Ident "gogrep_1") token_ADD (lit "1")))
          (matcher0 false)
     = NoFuel.
Proof.
  split; [split_and!; try reflexivity; apply wf0|].
  apply (proj2 (self_capture_diverges info "gogrep_1" "x" eq_refl eq_refl
                  ltac:(discriminate))).
  - apply wf0.
  - reflexivity.
Defined.

Lemma pass_bound_witness :
  (forall e n m, (fun _ _ : option Node => ret true) e n m <> NoFuel)
  /\ (passBound (exprsOf [wild 0; Ident "last"])
                (exprsOf [lit "1"; lit "2"; lit "3"]) < 64)%nat
  /\ nodes info (fun _ _ : option Node => ret true) 64 (exprsOf [wild 0; Ident "last"])
           (exprsOf [lit "1"; lit "2"; lit "3"]) false (matcher0 false)
     <> NoFuel.
Proof.
  assert (Hr : forall e n m, (fun _ _ : option Node => ret true) e n m <> NoFuel)
    by (intros; discriminate).
  assert (Hb : (passBound (exprsOf [wild 0; Ident "last"])
                          (exprsOf [lit "1"; lit "2"; lit "3"]) < 64)%nat)
    by (vm_compute; lia).
  split; [exact Hr|]. split; [exact Hb|].
  exact (nodes_pass_bound info _ _ _ false Hr 64 (matcher0 false) Hb).
Defined.

Lemma pair_run :
  yields (nodes info (node info 20) 20 (exprsOf [lit "1"; lit "2"])
            (exprsOf [lit "1"; lit "2"]) false (matcher0 false))
         (Some (exprList [lit "1"; lit "2"])) [].
Proof. vm_compute. reflexivity. Qed.

Lemma fixed_length_witness :
  (forall n, n ∈ [lit "1"; lit "2"] -> any (info (fromWildNode n)) = false)
  /\ len (exprsOf [lit "1"; lit "2"]) = len (exprsOf [lit "1"; lit "2"])
  /\ exprList [lit "1"; lit "2"] = listNode (exprsOf [lit "1"; lit "2"]).
Proof.
  assert (Hn : forall n, n ∈ elems (exprsOf [lit "1"; lit "2"]) ->
                         any (info (fromWildNode n)) = false).
  { intros n Hin. simpl in Hin. set_unfold in Hin.
    destruct Hin as [->|[->|[]]]; reflexivity. }
  split; [exact Hn|].
  destruct (Examples.yields_run _ _ _ pair_run) as [m' E].
  exact (fixed_length_patterns info (node info 20) _ _ Hn 20 _ _ _ E).
Defined.

Lemma lone_multi_wildcard_witness :
  (any (info (fromWildNode (wild 0))) = true
   /\ name (info (fromWildNode (wild 0))) = "a"
   /\ wf (matcher0 false) /\ bindingsOf (matcher0 false) !! "a" = None)
  /\ exists m',
       nodes info (node info 20) 6 (NodeList ExprL [wild 0])
             (exprsOf [lit "1"; lit "2"]) false (matcher0 false)
       = Ret (Some (listNode (exprsOf [lit "1"; lit "2"]))) m'
       /\ bindingsOf m'
          = <["a" := listNode (exprsOf [lit "1"; lit "2"])]>
              (bindingsOf (matcher0 false)).
Proof.
  split; [split_and!; try reflexivity; apply wf0|].
  apply (proj2 (lone_multi_wildcard info (node info 20) ExprL (wild 0)
                  (exprsOf [lit "1"; lit "2"]) false "a" eq_refl eq_refl
                  ltac:(discriminate) 6 (matcher0 false) (wf0 false)
                  ltac:(simpl; lia))).
  - discriminate.
  - reflexivity.
Defined.

Lemma window_start_witness :
  (any (info (fromWildNode (wild 0))) = true
   /\ name (info (fromWildNode (wild 0))) = "a"
   /\ isWildName "gogrep_3" = true
   /\ info (fromWildName "gogrep_3") = plainVar "last"
   /\ last [lit "1"; lit "2"; lit "3"] = Some (lit "3")
   /\ wf (matcher0 false))
  /\ exists m',
       matcher_nodes info 11 (NodeList ExprL [wild 0; Ident "gogrep_3"])
         (exprsOf [lit "1"; lit "2"; lit "3"]) false (matcher0 false)
       = Ret (Some (listNode (exprsOf [lit "1"; lit "2"; lit "3"]))) m'
       /\ bindingsOf m'
          = <["last" := lit "3"]>
              (<["a" := listNode (NodeList ExprL [])]>
                 (bindingsOf (matcher0 false))).
Proof.
  split; [split_and!; try reflexivity; apply wf0|].
  apply (window_start_reset info 11 ExprL (wild 0) "gogrep_3" "a" "last"
           (exprsOf [lit "1"; lit "2"; lit "3"]) (lit "3") (matcher0 false));
    try reflexivity; try discriminate; try apply wf0.
  simpl. lia.
Defined.

Lemma plain_run :
  yields (node info 7 (Some rangeDefine) (Some rangeAssign) (matcher0 false))
         true [].
Proof. vm_compute. reflexivity. Qed.

Lemma plain_pattern_witness :
  (strict (matcher0 false) /\ plain rangeDefine = true)
  /\ exists m',
       node info 7 (Some rangeDefine) (Some rangeAssign) (matcher0 false)
       = Ret true m'
       /\ (true = true <-> erase rangeAssign = erase rangeDefine)
       /\ rangeAssign <> rangeDefine.
Proof.
  split; [split; [exact strict0|reflexivity]|].
  destruct (Examples.yields_run _ _ _ plain_run) as [m' E].
  exists m'. split; [exact E|]. split; [|discriminate].
  refine (plain_pattern_decides info (Examples.info_none vars)
            (Examples.info_plain vars) _ _ _ _ _ _ strict0 _ E).
  reflexivity.
Defined.

Lemma range_run :
  yields (cmdRange info 20 (ExprCmd "x" (Ident "a"))
            [BinaryExpr (Ident "a") token_ADD (Ident "b")] (matcher0 false))
         [Ident "a"] [].
Proof. vm_compute. reflexivity. Qed.

Lemma range_filter_witness :
  exists m',
    cmdRange info 20 (ExprCmd "x" (Ident "a"))
      [BinaryExpr (Ident "a") token_ADD (Ident "b")] (matcher0 false)
    = Ret [Ident "a"] m'
    /\ cmdFilter info 20 true (ExprCmd "x" (Ident "a"))
         [BinaryExpr (Ident "a") token_ADD (Ident "b")] (matcher0 false)
       = Ret [BinaryExpr (Ident "a") token_ADD (Ident "b")] m'
    /\ cmdFilter info 20 false (ExprCmd "x" (Ident "a"))
         [BinaryExpr (Ident "a") token_ADD (Ident "b")] (matcher0 false)
       = Ret [] m'.
Proof.
  destruct (Examples.yields_run _ _ _ range_run) as [m' E].
  exists m'. split; [exact E|].
  exact (proj2 (range_finds_iff_filter_keeps info 20 _ _ _ _ _ E)).
Defined.

Lemma valueSpec_aggressive_witness :
  (aggressive (matcher0 true) = true /\ isWildName "a" = false /\ "a" <> "b")
  /\ node info 2 (Some (ValueSpec [Ident "a"] None [lit "1"]))
          (Some (ValueSpec [Ident "b"; Ident "c"] None [lit "1"; lit "2"]))
          (matcher0 true)
     = Panic IndexOutOfRange.
Proof.
  split; [split_and!; [reflexivity|reflexivity|discriminate]|].
  apply (valueSpec_aggressive_panics info 0); [reflexivity|reflexivity|].
  discriminate.
Defined.

Lemma index_safe_witness :
  nodes info (node info 5) 20
    (exprsOf [TypeSpec (Ident "T") (Ident "int")]) (exprsOf [Ident "a"])
    false (matcher0 false)
  = Panic (UnexpectedNode (TypeSpec (Ident "T") (Ident "int")))
  /\ exists e n m0,
       node info 5 e n m0
       = Panic (UnexpectedNode (TypeSpec (Ident "T") (Ident "int"))).
Proof.
  assert (E : nodes info (node info 5) 20
                (exprsOf [TypeSpec (Ident "T") (Ident "int")])
                (exprsOf [Ident "a"]) false (matcher0 false)
              = Panic (UnexpectedNode (TypeSpec (Ident "T") (Ident "int"))))
    by reflexivity.
  split; [exact E|].
  exact (nodes_index_safe info (node info 5) _ _ _ _ _ _ E).
Defined.

Lemma single_wildcard_witness :
  (isWildName "gogrep_1" = true
   /\ info (fromWildName "gogrep_1") = plainVar "x"
   /\ wf (matcher0 false))
  /\ exists m',
       topNode info 1 (Ident "gogrep_1") (exprList [lit "1"; lit "2"])
         (matcher0 false)
       = Ret (Some (exprList [lit "1"; lit "2"])) m'.
Proof.
  split; [split_and!; [reflexivity|reflexivity|apply wf0]|].
  destruct (proj1 (single_wildcard_any_node info 0 "gogrep_1" "x"
                     (exprList [lit "1"; lit "2"]) eq_refl eq_refl)
              (matcher0 false) (wf0 false) (or_intror eq_refl))
    as (m' & _ & Ht & _).
  exists m'. exact Ht.
Defined.

Lemma search_run :
  yields (nodes info (node info 20) 20 (stmtsOf [rangeDefine; stmt "x"])
            (stmtsOf [stmt "a"; rangeAssign; stmt "x"; stmt "d"]) true
            (matcher0 false))
         (Some (stmtList [rangeAssign; stmt "x"])) [].
Proof. vm_compute. reflexivity. Qed.

Lemma partial_search_witness :
  (strict (matcher0 false)
   /\ forallb plain (elems (stmtsOf [rangeDefine; stmt "x"])) = true)
  /\ exists i,
       occursAt (stmtsOf [rangeDefine; stmt "x"])
         (stmtsOf [stmt "a"; rangeAssign; stmt "x"; stmt "d"]) i
       /\ (forall j, (j < i)%nat ->
             ~ occursAt (stmtsOf [rangeDefine; stmt "x"])
                 (stmtsOf [stmt "a"; rangeAssign; stmt "x"; stmt "d"]) j)
       /\ stmtList [rangeAssign; stmt "x"]
          = listNode (NodeList StmtL
              (take 2 (drop i [stmt "a"; rangeAssign; stmt "x"; stmt "d"]))).
Proof.
  split; [split; [exact strict0|reflexivity]|].
  destruct (Examples.yields_run _ _ _ search_run) as [m' E].
  refine (partial_search_leftmost info (Examples.info_none vars)
            (Examples.info_plain vars) 20 20 _ _ _ _ _ strict0 _ _ E).
  - reflexivity.
  - unfold len, stmtsOf. simpl. lia.
Defined.

End Checks.
